(** * RVE periodic boundary condition generator (rve_mpc_generator.py)

    A shallow embedding of [src/RVE_support/rve_mpc_generator.py]:
    classification of boundary nodes, periodic pairings, generation of the
    multi-point constraints with the closure over implied zero constraints,
    the driver constraints and the layout of the output file.

    Conventions.
    - A Python [float] is an IEEE binary64 number: Rocq's primitive [float].
      [a < b] is [PrimFloat.ltb a b], [a <= b] is [PrimFloat.leb a b],
      [a == b] is [PrimFloat.eqb a b], [a > b] is [PrimFloat.ltb b a].
    - A Python [int] is a [Z].
    - A Python [str] is a [string]; a character is a code point below 256.
    - A [dict] is an association list in insertion order; a [set] of
      (node, dof) pairs is a [gset].
    - A degree of freedom is one of the strings "u", "v", "w" (the parser
      rejects anything else, and [comp] produces nothing else): type [Dof].
    - A strain index is one of 1, 2, 3 (the parser rejects anything else):
      type [Ix]. *)

From Stdlib Require Import ZArith List String Ascii Floats Bool Lia.
From stdpp Require Import base decidable countable gmap sets list strings pretty sorting.

Set Warnings "-inexact-float,-clear-no-such-hyp".
Local Open Scope Z_scope.

(* ===================================================================== *)
(** ** Python built-ins on floats *)
(* ===================================================================== *)

Module Py.

(** [a / b] rounded to the nearest integer, ties to even ([0 <= a], [0 < b]). *)
Definition div_half_even (a b : Z) : Z :=
  let q := a / b in
  let r := a mod b in
  match (2 * r ?= b) with
  | Lt => q
  | Gt => q + 1
  | Eq => if Z.even q then q else q + 1
  end.

(** The exact value of a finite float [m * 2^e] as a fraction. *)
Definition frac_of (m : positive) (e : Z) : Z * Z :=
  if 0 <=? e then (Z.pos m * 2 ^ e, 1) else (Z.pos m, 2 ^ (- e)).

(** [|v| * 10^nd] rounded half-even to an integer: the digits that
    [round(v, nd)] and [format(v, '.{nd}f')] keep. *)
Definition scaled_digits (m : positive) (e : Z) (nd : Z) : Z :=
  let '(a, b) := frac_of m e in div_half_even (a * 10 ^ nd) b.

(** The binary64 number nearest to [a / b] ([0 < a], [0 < b]), ties to even. *)
Definition nearest_float (a b : Z) : float :=
  let e0 := Z.log2 a - Z.log2 b - 53 in
  let below := if 0 <=? e0 then a <? b * 2 ^ 53 * 2 ^ e0
               else a * 2 ^ (- e0) <? b * 2 ^ 53 in
  let e1 := if below then e0 else e0 + 1 in
  let e := Z.max e1 (-1074) in
  let m := if 0 <=? e then div_half_even a (b * 2 ^ e)
           else div_half_even (a * 2 ^ (- e)) b in
  Z.ldexp (PrimFloat.of_uint63 (Uint63.of_Z m)) e.

(** [round(v, nd)] for [0 <= nd]: the decimal with [nd] fractional digits
    nearest to the exact value of [v] (ties to even), read back as the nearest
    float. NaN and the infinities round to themselves. *)
Definition round (v : float) (nd : Z) : float :=
  match Prim2SF v with
  | S754_finite s m e =>
      let n := scaled_digits m e nd in
      if n =? 0 then (if s then (-0)%float else 0%float)
      else let r := nearest_float n (10 ^ nd) in
           if s then PrimFloat.opp r else r
  | _ => v
  end.

(** Left-pads with "0" up to [n] characters. *)
Fixpoint zeros (n : nat) : string :=
  match n with
  | O => ""
  | S n' => "0" +:+ zeros n'
  end.

Definition pad0 (n : nat) (s : string) : string :=
  zeros (n - String.length s) +:+ s.

(** [format(v, '.{nd}f')]. *)
Definition format_f (v : float) (nd : Z) : string :=
  match Prim2SF v with
  | S754_nan => "nan"
  | S754_infinity s => if s then "-inf" else "inf"
  | S754_zero s =>
      (if s then "-" else "") +:+ "0." +:+ pad0 (Z.to_nat nd) ""
  | S754_finite s m e =>
      let n := scaled_digits m e nd in
      (if s then "-" else "") +:+ pretty (n / 10 ^ nd) +:+ "."
        +:+ pad0 (Z.to_nat nd) (pretty (n mod 10 ^ nd))
  end.

(** [s.rstrip(c)] for a one-character [c]. *)
Fixpoint rstrip (c : ascii) (s : string) : string :=
  match s with
  | EmptyString => EmptyString
  | String a s' =>
      match rstrip c s' with
      | EmptyString => if Ascii.eqb a c then EmptyString else String a EmptyString
      | r => String a r
      end
  end.

(** [c in s]. *)
Fixpoint contains (c : ascii) (s : string) : bool :=
  match s with
  | EmptyString => false
  | String a s' => Ascii.eqb a c || contains c s'
  end.

(** [min(l)] and [max(l)]: the first smallest (largest) element under [<]
    ([>]); [None] stands for the ValueError on an empty sequence. *)
Definition min (l : list float) : option float :=
  match l with
  | [] => None
  | a :: l' => Some (fold_left (fun m v => if PrimFloat.ltb v m then v else m) l' a)
  end.

Definition max (l : list float) : option float :=
  match l with
  | [] => None
  | a :: l' => Some (fold_left (fun m v => if PrimFloat.ltb m v then v else m) l' a)
  end.

(** [max(a, b, c)]. *)
Definition max3 (a b c : float) : float :=
  fold_left (fun m v => if PrimFloat.ltb m v then v else m) [b; c] a.

(** [max(a, b, c, d)]. *)
Definition max4 (a b c d : float) : float :=
  fold_left (fun m v => if PrimFloat.ltb m v then v else m) [b; c; d] a.

(** [sep.join(l)]. *)
Fixpoint join (sep : string) (l : list string) : string :=
  match l with
  | [] => ""
  | [s] => s
  | s :: l' => s +:+ sep +:+ join sep l'
  end.

End Py.

(* ===================================================================== *)
(** ** Utilities *)
(* ===================================================================== *)

Definition is_close (a b tol : float) : bool :=
  PrimFloat.leb (PrimFloat.abs (PrimFloat.sub a b)) tol.

(** The default tolerance of [is_close] and [float_to_str]. *)
Definition tol12 : float := 1e-12%float.

Definition float_to_str (val : float) : string :=
  if PrimFloat.ltb (PrimFloat.abs val) tol12 then "0.0"
  else
    let v := Py.round val 10 in
    let s := Py.rstrip "." (Py.rstrip "0" (Py.format_f v 10)) in
    if Py.contains "." s then s else s +:+ ".0".

Definition round_coord (val : float) : float := Py.round val 6.

(* ===================================================================== *)
(** ** Data structures *)
(* ===================================================================== *)

(** The six boundary planes: "X-", "X+", "Y-", "Y+", "Z-", "Z+". *)
Inductive Face := Xm | Xp | Ym | Yp | Zm | Zp.

#[global] Instance Face_eq_dec : EqDecision Face.
Proof. solve_decision. Defined.

#[global] Instance Face_countable : Countable Face.
Proof.
  refine (inj_countable'
    (fun f => match f with
              | Xm => 0%nat | Xp => 1%nat | Ym => 2%nat
              | Yp => 3%nat | Zm => 4%nat | Zp => 5%nat end)
    (fun n => match n with
              | 0%nat => Xm | 1%nat => Xp | 2%nat => Ym
              | 3%nat => Yp | 4%nat => Zm | _ => Zp end) _).
  by intros [].
Defined.

(** The coordinate axes "X", "Y", "Z". *)
Inductive Axis := AX | AY | AZ.

#[global] Instance Axis_eq_dec : EqDecision Axis.
Proof. solve_decision. Defined.

(** The first character of a face name. *)
Definition face_axis (f : Face) : Axis :=
  match f with
  | Xm | Xp => AX
  | Ym | Yp => AY
  | Zm | Zp => AZ
  end.

(** The values of [Node.kind]; [unset] is the initial empty string. *)
Inductive Kind := unset | interior | face | edge | vertex | degenerate.

#[global] Instance Kind_eq_dec : EqDecision Kind.
Proof. solve_decision. Defined.

(** The degrees of freedom "u", "v", "w". *)
Inductive Dof := u | v | w.

#[global] Instance Dof_eq_dec : EqDecision Dof.
Proof. solve_decision. Defined.

#[global] Instance Dof_countable : Countable Dof.
Proof.
  refine (inj_countable'
    (fun d => match d with u => 0%nat | v => 1%nat | w => 2%nat end)
    (fun n => match n with 0%nat => u | 1%nat => v | _ => w end) _).
  by intros [].
Defined.

Definition dof_str (d : Dof) : string :=
  match d with u => "u" | v => "v" | w => "w" end.

(** The strain indices 1, 2, 3. *)
Inductive Ix := I1 | I2 | I3.

#[global] Instance Ix_eq_dec : EqDecision Ix.
Proof. solve_decision. Defined.

Definition ix_Z (i : Ix) : Z :=
  match i with I1 => 1 | I2 => 2 | I3 => 3 end.

(** [comp = {1: "u", 2: "v", 3: "w"}]. *)
Definition comp (i : Ix) : Dof :=
  match i with I1 => u | I2 => v | I3 => w end.

Record Node := mkNode {
  nid : Z;
  x : float;
  y : float;
  z : float;
  faces : gset Face;
  kind : Kind
}.

Record Pairing := mkPairing {
  minus_node : Z;
  plus_node : Z;
  delta : float * float * float
}.

(** [Dict[int, Node]] in insertion order; the parser inserts node [k] under
    key [k], so a node is looked up by its [nid]. *)
Definition Nodes := list Node.

(** [nodes.get(k)]. *)
Definition nodes_get (nodes : Nodes) (k : Z) : option Node :=
  List.find (fun nd => bool_decide (nid nd = k)) nodes.

(** The strain tensor: three rows of three floats. *)
Definition Row := (float * float * float)%type.
Definition Strain := (Row * Row * Row)%type.

Definition row_at (r : Row) (j : Ix) : float :=
  let '(a, b, c) := r in
  match j with I1 => a | I2 => b | I3 => c end.

(** [eps[i-1]]. *)
Definition eps_row (eps : Strain) (i : Ix) : Row :=
  let '(r1, r2, r3) := eps in
  match i with I1 => r1 | I2 => r2 | I3 => r3 end.

(** [eps[i-1][j-1]]. *)
Definition eps_at (eps : Strain) (i j : Ix) : float :=
  row_at (eps_row eps i) j.

(** [DUMMY_EPS_MAP]: (i, j) -> (dummy_node, driver_node, dof). *)
Definition DummyEpsMap := list ((Ix * Ix) * (Z * Z * Dof)).

(** [dummy_eps_map.get(key)]; [None] when [key not in dummy_eps_map]. *)
Definition dmap_get (m : DummyEpsMap) (key : Ix * Ix) : option (Z * Z * Dof) :=
  snd <$> List.find (fun e => bool_decide (fst e = key)) m.

Definition FixedDofSet := gset (Z * Dof).

(** The vertex labels "A" .. "H" and the dictionary [vertex_ids]. *)
Inductive VLabel := vA | vB | vC | vD | vE | vF | vG | vH.

Definition vlabel_str (l : VLabel) : string :=
  match l with
  | vA => "A" | vB => "B" | vC => "C" | vD => "D"
  | vE => "E" | vF => "F" | vG => "G" | vH => "H"
  end.

Definition VertexIds := VLabel -> Z.

(** The errors raised (all are ValueError in the source). *)
Inductive Err :=
| EmptySequence
| InsufficientNodeLines (n_nodes : Z) (idx : nat)
| BadNodeLine (line : string) (tokens : list string)
| NotSequential (expected got : Z) (line : string)
| BadIntLiteral (token : string)
| BadFloatLiteral (token : string)
| VertexMissing (plus_lbl minus_lbl : VLabel) (pid mid : Z)
| DriverConflict (drv_node : Z) (dof : Dof) (old val : float) (i j : Ix)
| ZeroDriverConflict (node : Z) (dof : Dof) (val : float)
| EmitConflict (node : Z) (dof : Dof).

(* ===================================================================== *)
(** ** Bounds and classification *)
(* ===================================================================== *)

Definition Bounds := (float * float * float * float * float * float)%type.

Definition detect_bounds (nodes : Nodes) : Err + Bounds :=
  let xs := map x nodes in
  let ys := map y nodes in
  let zs := map z nodes in
  match Py.min xs, Py.max xs, Py.min ys, Py.max ys, Py.min zs, Py.max zs with
  | Some xmin, Some xmax, Some ymin, Some ymax, Some zmin, Some zmax =>
      inr (xmin, xmax, ymin, ymax, zmin, zmax)
  | _, _, _, _, _, _ => inl EmptySequence
  end.

(** The tolerance of the classifier. *)
Definition classify_tol (bounds : Bounds) (tol_rel : float) : float :=
  let '(xmin, xmax, ymin, ymax, zmin, zmax) := bounds in
  let Lx := PrimFloat.sub xmax xmin in
  let Ly := PrimFloat.sub ymax ymin in
  let Lz := PrimFloat.sub zmax zmin in
  let Lmax := Py.max3 (PrimFloat.abs Lx) (PrimFloat.abs Ly) (PrimFloat.abs Lz) in
  if PrimFloat.ltb 0 Lmax then PrimFloat.mul tol_rel Lmax else tol_rel.

(** [abs(c - plane) <= tol]. *)
Definition on_plane (c plane tol : float) : bool :=
  PrimFloat.leb (PrimFloat.abs (PrimFloat.sub c plane)) tol.

(** [faces.add(f)] when [b] holds. *)
Definition add_if (b : bool) (f : Face) (s : gset Face) : gset Face :=
  if b then s ∪ {[ f ]} else s.

Definition node_faces (bounds : Bounds) (tol : float) (nd : Node) : gset Face :=
  let '(xmin, xmax, ymin, ymax, zmin, zmax) := bounds in
  add_if (on_plane (z nd) zmax tol) Zp
    (add_if (on_plane (z nd) zmin tol) Zm
      (add_if (on_plane (y nd) ymax tol) Yp
        (add_if (on_plane (y nd) ymin tol) Ym
          (add_if (on_plane (x nd) xmax tol) Xp
            (add_if (on_plane (x nd) xmin tol) Xm ∅))))).

Definition kind_of_count (nf : nat) : Kind :=
  match nf with
  | 0%nat => interior
  | 1%nat => face
  | 2%nat => edge
  | 3%nat => vertex
  | _ => degenerate
  end.

Definition classify_node (bounds : Bounds) (tol : float) (nd : Node) : Node :=
  let fs := node_faces bounds tol nd in
  mkNode (nid nd) (x nd) (y nd) (z nd) fs (kind_of_count (size fs)).

(** [classify_boundary_nodes] rewrites [faces] and [kind] of every node in
    place; the embedding returns the rewritten dictionary. It has no raise. *)
Definition classify_boundary_nodes (bounds : Bounds) (nodes : Nodes)
    (tol_rel : float) : Nodes :=
  map (classify_node bounds (classify_tol bounds tol_rel)) nodes.

(** The default [tol_rel]. *)
Definition tol_rel_default : float := 1e-6%float.

(* ===================================================================== *)
(** ** Pairings (faces, edges, vertices) *)
(* ===================================================================== *)

(** A dictionary from matching keys to node ids. Keys are compared with
    the [==] of the key type, given as [keq]; [kd_set d k v] is
    [d[k] = v]: an equal key already stored keeps its place and takes the
    new value, a new key is appended. *)
Section KeyDict.
Context {K : Type} (keq : K -> K -> bool).

Fixpoint kd_set (d : list (K * Z)) (k : K) (val : Z) : list (K * Z) :=
match d with
| [] => [(k, val)]
| (k', v') :: d' =>
if keq k' k then (k', val) :: d' else (k', v') :: kd_set d' k val
end.

(** [{key(nd): nd.nid for nd in l}]. *)
Definition kd_build (key : Node -> K) (l : list Node) : list (K * Z) :=
fold_left (fun d nd => kd_set d (key nd) (nid nd)) l [].

(** [d.get(k)]; [None] when [k not in d]. *)
Definition kd_get (d : list (K * Z)) (k : K) : option Z :=
snd <$> List.find (fun e => keq (fst e) k) d.
End KeyDict.

(** [==] on floats and on pairs of floats. *)
Definition key1_eqb (a b : float) : bool := PrimFloat.eqb a b.

Definition key2_eqb (a b : float * float) : bool :=
  PrimFloat.eqb (fst a) (fst b) && PrimFloat.eqb (snd a) (snd b).

(** What [==] compares: nothing for a NaN, one value for both zeros. *)
Definition sf_class (f : spec_float) : option spec_float :=
  match f with
  | S754_nan => None
  | S754_zero _ => Some (S754_zero false)
  | _ => Some f
  end.

(** The stored keys of a dictionary are pairwise different under [==]. *)
Fixpoint distinct_keys {K : Type} (keq : K -> K -> bool) (d : list (K * Z)) : Prop :=
  match d with
  | [] => True
  | e :: d' => Forall (fun e' => keq (fst e) (fst e') = false) d'
               /\ distinct_keys keq d'
  end.

(** In the list [l], in iteration order, [nd] is the last node whose key
    is equal to the key of [nd]. *)
Definition last_of_key {K : Type} (keq : K -> K -> bool) (key : Node -> K)
    (l : list Node) (nd : Node) : Prop :=
  exists l1 l2, l = l1 ++ nd :: l2
                /\ Forall (fun nd' => keq (key nd) (key nd') = false) l2.

(** In [l], the node [nd] comes before a node with an equal key. *)
Definition shadowed {K : Type} (keq : K -> K -> bool) (key : Node -> K)
    (l : list Node) (nd : Node) : Prop :=
  exists l1 l2 nd' l3, l = l1 ++ nd :: l2 ++ nd' :: l3
                       /\ keq (key nd) (key nd') = true.

(** [Pairing(minus_node=mid, plus_node=pid, delta=(b.x-a.x, b.y-a.y, b.z-a.z))]
    with [a = nodes[mid]] and [b = nodes[pid]]. Both ids come from nodes of
    the dictionary, so the two lookups succeed (see [nodes_get_In]); the
    empty list stands for the KeyError that cannot occur. *)
Definition pairing_of (nodes : Nodes) (mid pid : Z) : list Pairing :=
  match nodes_get nodes mid, nodes_get nodes pid with
  | Some a, Some b =>
      [mkPairing mid pid (PrimFloat.sub (x b) (x a),
                          PrimFloat.sub (y b) (y a),
                          PrimFloat.sub (z b) (z a))]
  | _, _ => []
  end.

(** The loop [for k, mid in m.items(): if k not in p: continue; ...]. *)
Definition match_keys {K : Type} (keq : K -> K -> bool) (nodes : Nodes)
    (m p : list (K * Z)) : list Pairing :=
  flat_map (fun e => match kd_get keq p (fst e) with
                     | None => []
                     | Some pid => pairing_of nodes (snd e) pid
                     end) m.

(** The pairings of the minus nodes [lm] with the plus nodes [lp] under the
    key [key]: the two dictionaries, then the loop over the first. *)
Definition pair_by_key {K : Type} (keq : K -> K -> bool) (key : Node -> K)
    (nodes : Nodes) (lm lp : list Node) : list Pairing :=
  match_keys keq nodes (kd_build keq key lm) (kd_build keq key lp).

(** What the dictionary built from [l] holds under a stored key [k]: the
  id of the last node of [l] whose key is [k] itself or equal to [k]. *)
Definition holds_last {K : Type} (keq : K -> K -> bool) (key : Node -> K)
    (l : list Node) (e : K * Z) : Prop :=
exists l1 nd l2,
  l = l1 ++ nd :: l2
  /\ nid nd = snd e
  /\ (fst e = key nd \/ keq (fst e) (key nd) = true)
  /\ Forall (fun nd' => keq (fst e) (key nd') = false) l2.

(** The transverse key of a face of axis [a]. *)
Definition face_key (a : Axis) (nd : Node) : float * float :=
  match a with
  | AX => (round_coord (y nd), round_coord (z nd))
  | AY => (round_coord (x nd), round_coord (z nd))
  | AZ => (round_coord (x nd), round_coord (y nd))
  end.

Definition _pair_face_nodes (nodes : Nodes) (minus_face plus_face : Face)
    : list Pairing :=
  let key := face_key (face_axis minus_face) in
  let minus_nodes := List.filter (fun nd => bool_decide (minus_face ∈ faces nd)) nodes in
  let plus_nodes := List.filter (fun nd => bool_decide (plus_face ∈ faces nd)) nodes in
  let m := kd_build key2_eqb key minus_nodes in
  let p := kd_build key2_eqb key plus_nodes in
  match_keys key2_eqb nodes m p.

(** [{"X": ..., "Y": ..., "Z": ...}]. *)
Definition FacePairings := (list Pairing * list Pairing * list Pairing)%type.

Definition build_face_pairings (nodes : Nodes) : FacePairings :=
  (_pair_face_nodes nodes Xm Xp,
   _pair_face_nodes nodes Ym Yp,
   _pair_face_nodes nodes Zm Zp).

(** [face_pairings[d]]. *)
Definition face_pairings_at (fp : FacePairings) (d : Axis) : list Pairing :=
  let '(px, py, pz) := fp in
  match d with AX => px | AY => py | AZ => pz end.

Definition _axis_coord (nd : Node) (axis : Axis) : float :=
  match axis with AX => x nd | AY => y nd | AZ => z nd end.

(** The table [specs] of [build_edge_pairings]. *)
Definition edge_specs : list (string * (Face * Face) * (Face * Face)) :=
  [ ("X-Y (--)/(++)", (Xm, Ym), (Xp, Yp));
    ("X-Y (-+)/(+-)", (Xm, Yp), (Xp, Ym));
    ("X-Z (--)/(++)", (Xm, Zm), (Xp, Zp));
    ("X-Z (-+)/(+-)", (Xm, Zp), (Xp, Zm));
    ("Y-Z (--)/(++)", (Ym, Zm), (Yp, Zp));
    ("Y-Z (-+)/(+-)", (Ym, Zp), (Yp, Zm)) ]%string.

(** [(axes - used_axes).pop()]: the axis that is in neither face name. *)
Definition param_axis_of (fs : Face * Face) : Axis :=
  let used := [face_axis (fst fs); face_axis (snd fs)] in
  hd AX (List.filter (fun a => negb (bool_decide (a ∈ used))) [AX; AY; AZ]).

(** [set(faces)] for a pair of face names. *)
Definition face_set (fs : Face * Face) : gset Face := {[ fst fs; snd fs ]}.

(** One round of the loop over [specs]. *)
Definition edge_pairings_for (nodes : Nodes) (minus_faces plus_faces : Face * Face)
    : list Pairing :=
  let is_on fs := fun nd =>
    bool_decide (kind nd = edge) && bool_decide (faces nd = face_set fs) in
  let minus_nodes := List.filter (is_on minus_faces) nodes in
  let plus_nodes := List.filter (is_on plus_faces) nodes in
  match minus_nodes, plus_nodes with
  | [], _ | _, [] => []
  | _, _ =>
      let param_axis := param_axis_of minus_faces in
      let key := fun nd => round_coord (_axis_coord nd param_axis) in
      let km := kd_build key1_eqb key minus_nodes in
      let kp := kd_build key1_eqb key plus_nodes in
      match_keys key1_eqb nodes km kp
  end.

(** [Dict[str, List[Pairing]]], in the order of [specs]. *)
Definition EdgePairings := list (string * list Pairing).

Definition build_edge_pairings (nodes : Nodes) : EdgePairings :=
  map (fun s => let '(label, minus_faces, plus_faces) := s in
                (label, edge_pairings_for nodes minus_faces plus_faces))
      edge_specs.

(** The table [defs] of the body diagonals, plus label first. *)
Definition vertex_defs : list (VLabel * VLabel) :=
  [(vG, vA); (vF, vD); (vH, vB); (vC, vE)].

Fixpoint vertex_pairings_loop (nodes : Nodes) (vertex_ids : VertexIds)
    (defs : list (VLabel * VLabel)) : Err + list Pairing :=
  match defs with
  | [] => inr []
  | (plus_lbl, minus_lbl) :: defs' =>
      let pid := vertex_ids plus_lbl in
      let mid := vertex_ids minus_lbl in
      match nodes_get nodes mid, nodes_get nodes pid with
      | Some a, Some b =>
          match vertex_pairings_loop nodes vertex_ids defs' with
          | inl e => inl e
          | inr out =>
              inr (mkPairing mid pid (PrimFloat.sub (x b) (x a),
                                      PrimFloat.sub (y b) (y a),
                                      PrimFloat.sub (z b) (z a)) :: out)
          end
      | _, _ => inl (VertexMissing plus_lbl minus_lbl pid mid)
      end
  end.

Definition build_vertex_pairings_from_vertices (nodes : Nodes)
    (vertex_ids : VertexIds) : Err + list Pairing :=
  vertex_pairings_loop nodes vertex_ids vertex_defs.

(* ===================================================================== *)
(** ** Generation of the multi-point constraints *)
(* ===================================================================== *)

(** A term [(coeff, nid, dof)] of an equation. *)
Definition Term := (float * Z * Dof)%type.

(** What one call of the generator returns:
    [(mpc_lines, implied_abs, warnings)]. *)
Definition Gen := (list string * FixedDofSet * list string)%type.

Definition gen_empty : Gen := ([], ∅, []).

(** Results of successive rounds of a loop: lines and warnings are
    appended, implied constraints are united. *)
Definition gen_app (a b : Gen) : Gen :=
  let '(l1, s1, w1) := a in
  let '(l2, s2, w2) := b in
  (l1 ++ l2, s1 ∪ s2, w1 ++ w2).

Definition gen_concat (l : list Gen) : Gen := fold_right gen_app gen_empty l.

Definition gen_lines (g : Gen) : list string := fst (fst g).
Definition gen_implied (g : Gen) : FixedDofSet := snd (fst g).
Definition gen_warnings (g : Gen) : list string := snd g.

(** The default [eps_tol] and [one_term_tol]. *)
Definition eps_tol_default : float := 1e-14%float.
Definition one_term_tol_default : float := 1e-12%float.

Definition missing_map_warning (i j : Ix) : string :=
  "WARNING: eps_" +:+ pretty (ix_Z i) +:+ pretty (ix_Z j)
    +:+ " nonzero but missing from DUMMY_EPS_MAP.".

Definition residual_warning (t : Term) : string :=
  let '(coeff, n, dch) := t in
  "WARNING: single-term residual not auto-converted: (node " +:+ pretty n
    +:+ ", dof " +:+ dof_str dch +:+ ", coeff " +:+ float_to_str coeff +:+ ")".

(** The loop [for j, dv in enumerate(deltas, start=1)]: the dummy terms
    appended for row [i], and the warnings appended on the way. *)
Fixpoint dummy_terms (row : Row) (dummy_eps_map : DummyEpsMap)
    (fixed_dofs : FixedDofSet) (eps_tol : float) (i : Ix)
    (deltas : list (Ix * float)) : list Term * list string :=
  match deltas with
  | [] => ([], [])
  | (j, dv) :: rest =>
      let '(ts, ws) := dummy_terms row dummy_eps_map fixed_dofs eps_tol i rest in
      let eij := row_at row j in
      if PrimFloat.ltb (PrimFloat.abs eij) eps_tol || PrimFloat.eqb dv 0 then (ts, ws)
      else
        match dmap_get dummy_eps_map (i, j) with
        | None => (ts, missing_map_warning i j :: ws)
        | Some (dn, _drv, ddof) =>
            if bool_decide ((dn, ddof) ∈ fixed_dofs) then (ts, ws)
            else ((PrimFloat.opp dv, dn, ddof) :: ts, ws)
        end
  end.

(** [(plus_id, dof) not in fixed_dofs] guards the +1 term, and likewise
    the -1 term. *)
Definition physical_terms (fixed_dofs : FixedDofSet) (p : Pairing) (dof : Dof)
    : list Term :=
  (if bool_decide ((plus_node p, dof) ∈ fixed_dofs) then []
   else [(1%float, plus_node p, dof)])
  ++ (if bool_decide ((minus_node p, dof) ∈ fixed_dofs) then []
      else [((-1)%float, minus_node p, dof)]).

(** The list [terms] assembled for pairing [p] and component [i], with the
    warnings of the assembly. *)
Definition assemble_terms (eps : Strain) (dummy_eps_map : DummyEpsMap)
    (fixed_dofs : FixedDofSet) (eps_tol : float) (p : Pairing) (i : Ix)
    : list Term * list string :=
  let '(dx, dy, dz) := delta p in
  let '(ds, ws) := dummy_terms (eps_row eps i) dummy_eps_map fixed_dofs eps_tol i
                     [(I1, dx); (I2, dy); (I3, dz)] in
  (physical_terms fixed_dofs p (comp i) ++ ds, ws).

(** The part of a line for the first term and for a later term. *)
Definition first_part (t : Term) : string :=
  let '(coeff, n, dch) := t in
  pretty n +:+ " " +:+ float_to_str coeff +:+ " " +:+ dof_str dch.

Definition later_part (t : Term) : string :=
  let '(coeff, n, dch) := t in
  (if PrimFloat.leb 0 coeff then "+" else "-") +:+ " " +:+ pretty n +:+ " "
    +:+ float_to_str (PrimFloat.abs coeff) +:+ " " +:+ dof_str dch.

Definition line_parts (terms : list Term) : list string :=
  match terms with
  | [] => []
  | t :: ts => first_part t :: map later_part ts
  end.

(** The rendered equation: the terms in order, as a sum equal to zero. *)
Definition render_line (terms : list Term) : string :=
  "  " +:+ Py.join "  " (line_parts terms) +:+ " = 0.".

(** [nid in nodes]. *)
Definition is_physical (nodes : Nodes) (n : Z) : bool :=
  bool_decide (is_Some (nodes_get nodes n)).

(** What the list [terms] becomes: nothing, an implied constraint, a
    warning, or one line. *)
Definition resolve_terms (nodes : Nodes) (one_term_tol : float)
    (terms : list Term) : Gen :=
  match terms with
  | [] => gen_empty
  | [(coeff, n, dch)] =>
      if is_physical nodes n && is_close (PrimFloat.abs coeff) 1 one_term_tol
      then ([], {[ (n, dch) ]}, [])
      else ([], ∅, [residual_warning (coeff, n, dch)])
  | _ => ([render_line terms], ∅, [])
  end.

(** One round of [for i in (1, 2, 3)]. *)
Definition gen_dof (nodes : Nodes) (eps : Strain) (dummy_eps_map : DummyEpsMap)
    (fixed_dofs : FixedDofSet) (eps_tol one_term_tol : float)
    (p : Pairing) (i : Ix) : Gen :=
  let '(terms, ws) := assemble_terms eps dummy_eps_map fixed_dofs eps_tol p i in
  gen_app ([], ∅, ws) (resolve_terms nodes one_term_tol terms).

(** The two guards at the head of the loop over the pairings. *)
Definition pair_passes (nodes : Nodes) (required_kind : option Kind)
    (p : Pairing) : bool :=
  match nodes_get nodes (minus_node p), nodes_get nodes (plus_node p) with
  | Some a, Some b =>
      match required_kind with
      | None => true
      | Some k => bool_decide (kind a = k) && bool_decide (kind b = k)
      end
  | _, _ => false
  end.

(** One round of [for p in pair_list]. *)
Definition gen_pair (nodes : Nodes) (eps : Strain) (dummy_eps_map : DummyEpsMap)
    (fixed_dofs : FixedDofSet) (required_kind : option Kind)
    (eps_tol one_term_tol : float) (p : Pairing) : Gen :=
  if pair_passes nodes required_kind p
  then gen_concat (map (gen_dof nodes eps dummy_eps_map fixed_dofs
                          eps_tol one_term_tol p) [I1; I2; I3])
  else gen_empty.

Definition generate_dummy_mpcs_for_pairs (pair_list : list Pairing)
    (nodes : Nodes) (eps : Strain) (dummy_eps_map : DummyEpsMap)
    (fixed_dofs : FixedDofSet) (required_kind : option Kind)
    (eps_tol one_term_tol : float) : Gen :=
  gen_concat (map (gen_pair nodes eps dummy_eps_map fixed_dofs required_kind
                     eps_tol one_term_tol) pair_list).

(* ===================================================================== *)
(** ** Closure over the implied constraints *)
(* ===================================================================== *)

(** The groups in the order the closure visits them: the faces "X", "Y",
    "Z" with [required_kind="face"], the edge lists in dictionary order
    with [required_kind="edge"], the vertex pairings with
    [required_kind=None]. *)
Definition groups (face_pairings : FacePairings) (edge_pairings : EdgePairings)
    (vertex_pairings : list Pairing) : list (list Pairing * option Kind) :=
  map (fun d => (face_pairings_at face_pairings d, Some face)) [AX; AY; AZ]
  ++ map (fun e => (snd e, Some edge)) edge_pairings
  ++ [(vertex_pairings, None)].

(** One sweep over all groups under the set [fixed]. *)
Definition sweep (gs : list (list Pairing * option Kind)) (nodes : Nodes)
    (eps : Strain) (dummy_eps_map : DummyEpsMap) (fixed : FixedDofSet)
    (eps_tol : float) : Gen :=
  gen_concat (map (fun g => generate_dummy_mpcs_for_pairs (fst g) nodes eps
                              dummy_eps_map fixed (snd g) eps_tol
                              one_term_tol_default) gs).

Definition limit_warning : string :=
  "WARNING: implied-constraint closure hit iteration limit (50).".

(** The loop [for _iter in range(50): ... else: ...] with [fuel] rounds
    left; it returns the set reached and the warnings so far. *)
Fixpoint closure_loop (fuel : nat) (gs : list (list Pairing * option Kind))
    (nodes : Nodes) (eps : Strain) (dummy_eps_map : DummyEpsMap)
    (eps_tol : float) (fixed : FixedDofSet) (warnings_all : list string)
    : FixedDofSet * list string :=
  match fuel with
  | O => (fixed, warnings_all ++ [limit_warning])
  | S fuel' =>
      let g := sweep gs nodes eps dummy_eps_map fixed eps_tol in
      let implied_total := gen_implied g in
      let warnings_all := warnings_all ++ gen_warnings g in
      let new_implied := implied_total ∖ fixed in
      if bool_decide (new_implied = ∅) then (fixed, warnings_all)
      else closure_loop fuel' gs nodes eps dummy_eps_map eps_tol
             (fixed ∪ new_implied) warnings_all
  end.

(** [s1 <= s2] on strings, by code points. *)
Definition str_le (s1 s2 : string) : Prop := String.leb s1 s2 = true.

#[global] Instance str_le_dec : RelDecision str_le.
Proof. intros s1 s2. unfold str_le. apply _. Defined.

(** [sorted(set(l))]. *)
Definition sorted_set (l : list string) : list string :=
  merge_sort str_le (remove_dups l).

Definition closure_generate_all_mpcs (face_pairings : FacePairings)
    (edge_pairings : EdgePairings) (vertex_pairings : list Pairing)
    (nodes : Nodes) (eps : Strain) (dummy_eps_map : DummyEpsMap)
    (fixed_initial : FixedDofSet) (eps_tol : float)
    : FixedDofSet * list string * list string :=
  let gs := groups face_pairings edge_pairings vertex_pairings in
  let '(fixed, warnings_all) :=
    closure_loop 50 gs nodes eps dummy_eps_map eps_tol fixed_initial [] in
  let g := sweep gs nodes eps dummy_eps_map fixed eps_tol in
  (fixed, gen_lines g, sorted_set (warnings_all ++ gen_warnings g)).

(* ===================================================================== *)
(** ** Driver constraints from the strain tensor *)
(* ===================================================================== *)

(** [Dict[(driver_node, dof), float]] in insertion order. *)
Definition DriverMap := list ((Z * Dof) * float).

(** [drv.get(key)]; [None] when [key not in drv]. *)
Definition drv_get (drv : DriverMap) (key : Z * Dof) : option float :=
  snd <$> List.find (fun e => bool_decide (fst e = key)) drv.

(** The loop over [dummy_eps_map.items()], started with the dictionary
    [drv] built so far. *)
Fixpoint driver_loop (eps : Strain) (eps_tol : float) (items : DummyEpsMap)
    (drv : DriverMap) : Err + DriverMap :=
  match items with
  | [] => inr drv
  | ((i, j), (_dn, drv_node, dof)) :: rest =>
      let val := eps_at eps i j in
      if PrimFloat.ltb (PrimFloat.abs val) eps_tol
      then driver_loop eps eps_tol rest drv
      else
        let key := (drv_node, dof) in
        match drv_get drv key with
        | Some old =>
            if is_close old val tol12
            then driver_loop eps eps_tol rest drv
            else inl (DriverConflict drv_node dof old val i j)
        | None => driver_loop eps eps_tol rest (drv ++ [(key, val)])
        end
  end.

Definition build_driver_constraints (eps : Strain) (dummy_eps_map : DummyEpsMap)
    (eps_tol : float) : Err + DriverMap :=
  driver_loop eps eps_tol dummy_eps_map [].

(* ===================================================================== *)
(** ** Writing the output file *)
(* ===================================================================== *)

(** Code that writes to the open file [out] and may raise: the lines
    written so far are threaded through, and kept when an error is raised. *)
Definition Out (A : Type) : Type := list string -> list string * (Err + A).

Definition out_ret {A} (a : A) : Out A := fun o => (o, inr a).

Definition out_bind {A B} (c : Out A) (k : A -> Out B) : Out B :=
  fun o => match c o with
           | (o', inl e) => (o', inl e)
           | (o', inr a) => k a o'
           end.

Definition out_raise {A} (e : Err) : Out A := fun o => (o, inl e).

Notation "c1 ;;; c2" := (out_bind c1 (fun _ => c2))
  (at level 100, right associativity).

(** [w(out, s)]: one line. *)
Definition w_ (s : string) : Out unit := fun o => (o ++ [s], inr tt).

Fixpoint out_for {A} (l : list A) (body : A -> Out unit) : Out unit :=
  match l with
  | [] => out_ret tt
  | a :: l' => body a ;;; out_for l' body
  end.

Definition dof_leb (a b : Dof) : bool :=
  match a, b with
  | u, _ => true
  | v, u => false
  | v, _ => true
  | w, w => true
  | w, _ => false
  end.

(** The order of Python on the tuples [(nid, dch)]. *)
Definition key_leb (a b : Z * Dof) : bool :=
  (fst a <? fst b) || ((fst a =? fst b) && dof_leb (snd a) (snd b)).

Definition key_le (a b : Z * Dof) : Prop := key_leb a b = true.

#[global] Instance key_le_dec : RelDecision key_le.
Proof. intros a b. unfold key_le. apply _. Defined.

(** The items of a dictionary are ordered by their keys, which differ. *)
Definition item_le {V} (a b : (Z * Dof) * V) : Prop := key_le (fst a) (fst b).

#[global] Instance item_le_dec {V} : RelDecision (@item_le V).
Proof. intros a b. unfold item_le. apply _. Defined.

Definition driver_line (e : (Z * Dof) * float) : string :=
  "  " +:+ pretty (fst (fst e)) +:+ " " +:+ dof_str (snd (fst e)) +:+ " "
    +:+ float_to_str (snd e).

Definition zero_line (k : Z * Dof) : string :=
  "  " +:+ pretty (fst k) +:+ " " +:+ dof_str (snd k) +:+ " 0.0".

(** [sorted(driver_constraints.items())] and [sorted(zero_constraints)]. *)
Definition sorted_items (driver_constraints : DriverMap) : DriverMap :=
  merge_sort item_le driver_constraints.

Definition sorted_keys (zero_constraints : FixedDofSet) : list (Z * Dof) :=
  merge_sort key_le (elements zero_constraints).

(** [not d] for a list or a dictionary [d]. *)
Definition is_empty {A} (l : list A) : bool :=
  match l with [] => true | _ => false end.

Definition emit_constraints_block (zero_constraints : FixedDofSet)
    (driver_constraints : DriverMap) : Out unit :=
  w_ "!" ;;;
  w_ "! --- ABSOLUTE CONSTRAINTS (must appear before 'multipoint') ---" ;;;
  if bool_decide (zero_constraints = ∅) && is_empty driver_constraints
  then w_ "!   (none)"
  else
    w_ "constraints" ;;;
    out_for (sorted_items driver_constraints) (fun e => w_ (driver_line e)) ;;;
    out_for (sorted_keys zero_constraints) (fun k =>
      if bool_decide (is_Some (drv_get driver_constraints k))
      then out_raise (EmitConflict (fst k) (snd k))
      else w_ (zero_line k)).

(** The tabulator. *)
Definition tab : string := String (ascii_of_nat 9) EmptyString.

(** One line of the symbolic dump: the terms for component [i]. *)
Definition symbolic_line (p : Pairing) (i : Ix) : string :=
  let '(dx, dy, dz) := delta p in
  let dof := dof_str (comp i) in
  fold_left
    (fun line jd =>
       let '(j, dv) := jd in
       if PrimFloat.eqb dv 0 then line
       else
         let coeff := PrimFloat.opp dv in
         line +:+ " " +:+ (if PrimFloat.leb 0 coeff then "+" else "-") +:+ " "
           +:+ float_to_str (PrimFloat.abs coeff) +:+ " eps_{"
           +:+ pretty (ix_Z i) +:+ pretty (ix_Z j) +:+ "} 1.0 " +:+ dof)
    [(I1, dx); (I2, dy); (I3, dz)]
    (pretty (plus_node p) +:+ " 1.0 " +:+ dof +:+ "  - "
       +:+ pretty (minus_node p) +:+ " 1.0 " +:+ dof)
  +:+ " = 0.".

Definition emit_symbolic_mpcs_for_pairs (label : string)
    (pair_list : list Pairing) (nodes : Nodes) (required_kind : option Kind)
    : Out unit :=
  w_ "!" ;;;
  w_ ("! --- " +:+ label +:+ " (symbolic eps_ij) ---") ;;;
  out_for pair_list (fun p =>
    if pair_passes nodes required_kind p
    then out_for [I1; I2; I3] (fun i => w_ ("!   " +:+ symbolic_line p i))
    else out_ret tt).

(* ===================================================================== *)
(** ** Main *)
(* ===================================================================== *)

(** What [parse_model_def] returns. *)
Record Parsed := mkParsed {
  Lx_decl : float;
  Ly_decl : float;
  Lz_decl : float;
  vertex_ids : VertexIds;
  eps : Strain;
  nodes : Nodes;
  fixed_dofs : FixedDofSet;
  dummy_eps_map : DummyEpsMap
}.

(** What [main] has computed when it opens the output file. *)
Record Prepared := mkPrepared {
  bounds : Bounds;
  classified : Nodes;
  face_pairings : FacePairings;
  edge_pairings : EdgePairings;
  vertex_pairings : list Pairing;
  fixed_final : FixedDofSet;
  mpc_lines : list string;
  warnings : list string;
  driver_constraints : DriverMap
}.

(** The conflict check of [main]: the first driver key, in the order of the
    dictionary, that is in [fixed_final]. *)
Definition conflict_check (driver_constraints : DriverMap)
    (fixed_final : FixedDofSet) : Err + unit :=
  match List.find (fun e => bool_decide (fst e ∈ fixed_final)) driver_constraints with
  | Some (key, val) => inl (ZeroDriverConflict (fst key) (snd key) val)
  | None => inr tt
  end.

(** [main] from the return of [parse_model_def] to the point before
    [open(out_name, "w")]. *)
Definition prepare (P : Parsed) : Err + Prepared :=
  match detect_bounds (nodes P) with
  | inl e => inl e
  | inr bounds =>
      let nodes := classify_boundary_nodes bounds (nodes P) tol_rel_default in
      let face_pairings := build_face_pairings nodes in
      let edge_pairings := build_edge_pairings nodes in
      match build_vertex_pairings_from_vertices nodes (vertex_ids P) with
      | inl e => inl e
      | inr vertex_pairings =>
          let '(fixed_final, mpc_lines, warnings) :=
            closure_generate_all_mpcs face_pairings edge_pairings vertex_pairings
              nodes (eps P) (dummy_eps_map P) (fixed_dofs P) eps_tol_default in
          match build_driver_constraints (eps P) (dummy_eps_map P) eps_tol_default with
          | inl e => inl e
          | inr driver_constraints =>
              match conflict_check driver_constraints fixed_final with
              | inl e => inl e
              | inr _ =>
                  inr (mkPrepared bounds nodes face_pairings edge_pairings
                         vertex_pairings fixed_final mpc_lines warnings
                         driver_constraints)
              end
          end
      end
  end.

(** [f"{vertex_ids}"]: the display of the dictionary. *)
Definition vertex_ids_str (vertex_ids : VertexIds) : string :=
  "{" +:+ Py.join ", " (map (fun l => "'" +:+ vlabel_str l +:+ "': "
                                       +:+ pretty (vertex_ids l))
                          [vA; vB; vC; vD; vE; vF; vG; vH]) +:+ "}".

Definition ix_leb (a b : Ix) : bool := ix_Z a <=? ix_Z b.

Definition map_item_le (a b : (Ix * Ix) * (Z * Z * Dof)) : Prop :=
  (ix_Z (fst (fst a)) <? ix_Z (fst (fst b)))
  || ((ix_Z (fst (fst a)) =? ix_Z (fst (fst b)))
      && ix_leb (snd (fst a)) (snd (fst b))) = true.

#[global] Instance map_item_le_dec : RelDecision map_item_le.
Proof. intros a b. unfold map_item_le. apply _. Defined.

Definition row_str (r : Row) : string :=
  let '(a, b, c) := r in
  Py.join "  " [float_to_str a; float_to_str b; float_to_str c].

(** The header comments, up to the warnings. *)
Definition write_header (in_name : string) (P : Parsed) (R : Prepared) : Out unit :=
  let '(xmin, xmax, ymin, ymax, zmin, zmax) := bounds R in
  let Lx_det := PrimFloat.sub xmax xmin in
  let Ly_det := PrimFloat.sub ymax ymin in
  let Lz_det := PrimFloat.sub zmax zmin in
  let dim_tol := PrimFloat.mul 1e-6
    (Py.max4 (PrimFloat.abs Lx_det) (PrimFloat.abs Ly_det) (PrimFloat.abs Lz_det) 1) in
  let off d_det d_decl :=
    PrimFloat.ltb dim_tol (PrimFloat.abs (PrimFloat.sub d_det d_decl)) in
  let bound_line lo hi d lov hiv dv :=
    "!   " +:+ lo +:+ "=" +:+ float_to_str lov +:+ "  " +:+ hi +:+ "="
      +:+ float_to_str hiv +:+ "   => " +:+ d +:+ "=" +:+ float_to_str dv in
  w_ "! ------------------------------------------------------------" ;;;
  w_ "! RVE PBC generator output (origin-agnostic bounds)" ;;;
  w_ ("! Input file : " +:+ in_name) ;;;
  w_ "!" ;;;
  w_ "! Declared dimensions from input file:" ;;;
  w_ ("!   Lx_decl=" +:+ float_to_str (Lx_decl P) +:+ "  Ly_decl="
        +:+ float_to_str (Ly_decl P) +:+ "  Lz_decl=" +:+ float_to_str (Lz_decl P)) ;;;
  w_ "!" ;;;
  w_ "! Detected bounds from node coordinates:" ;;;
  w_ (bound_line "xmin" "xmax" "Lx_det" xmin xmax Lx_det) ;;;
  w_ (bound_line "ymin" "ymax" "Ly_det" ymin ymax Ly_det) ;;;
  w_ (bound_line "zmin" "zmax" "Lz_det" zmin zmax Lz_det) ;;;
  (if off Lx_det (Lx_decl P) || off Ly_det (Ly_decl P) || off Lz_det (Lz_decl P)
   then
     w_ "!" ;;;
     w_ "! WARNING: Declared (Lx,Ly,Lz) differ from detected (xmax-xmin, etc.)." ;;;
     w_ "!          PBC generation uses DETECTED bounds for face classification and Δ-vectors."
   else
     w_ "!" ;;;
     w_ "! OK: Declared (Lx,Ly,Lz) consistent with detected bounds (within tolerance).") ;;;
  w_ "!" ;;;
  w_ ("! Vertex nodes: " +:+ vertex_ids_str (vertex_ids P)) ;;;
  w_ "!" ;;;
  w_ "! Enforced strain tensor eps_ij (row-wise):" ;;;
  out_for [I1; I2; I3] (fun i =>
    w_ ("!   row " +:+ pretty (ix_Z i) +:+ ": " +:+ row_str (eps_row (eps P) i))) ;;;
  w_ "!" ;;;
  w_ "! Dummy strain mapping (eps_ij -> dummy_node, driver_node, dof):" ;;;
  out_for (merge_sort map_item_le (dummy_eps_map P)) (fun e =>
    let '((i, j), (dn, drv, dch)) := e in
    w_ ("!   eps_" +:+ pretty (ix_Z i) +:+ pretty (ix_Z j) +:+ " -> dummy "
          +:+ pretty dn +:+ " " +:+ dof_str dch +:+ ",  driver " +:+ pretty drv
          +:+ " " +:+ dof_str dch)) ;;;
  (if is_empty (warnings R) then out_ret tt
   else
     w_ "!" ;;;
     w_ "! --- WARNINGS ---" ;;;
     out_for (warnings R) (fun msg => w_ ("! " +:+ msg))).

(** The optional symbolic section. *)
Definition write_symbolic (R : Prepared) : Out unit :=
  w_ "!" ;;;
  w_ "!" ;;;
  w_ ("!" +:+ tab +:+ tab +:+ ".... Full symbolic periodic RVE boundary conditions .....") ;;;
  w_ ("!" +:+ tab +:+ tab +:+ "          Assumes all terms are non-zero in strain") ;;;
  w_ ("!" +:+ tab +:+ tab +:+ "          tensor loading. No =0 absolute constraints") ;;;
  w_ "!" ;;;
  out_for [(AX, "X"); (AY, "Y"); (AZ, "Z")] (fun d =>
    emit_symbolic_mpcs_for_pairs ("Face-node MPCs, direction " +:+ snd d)
      (face_pairings_at (face_pairings R) (fst d)) (classified R) (Some face)) ;;;
  out_for (edge_pairings R) (fun e =>
    emit_symbolic_mpcs_for_pairs ("Edge-node MPCs, edge type " +:+ fst e)
      (snd e) (classified R) (Some edge)) ;;;
  emit_symbolic_mpcs_for_pairs "Vertex-node MPCs, body diagonals"
    (vertex_pairings R) (classified R) None.

(** The multipoint section and the closing counts. *)
Definition write_mpcs (R : Prepared) : Out unit :=
  w_ "!" ;;;
  w_ "!" ;;;
  w_ ("!" +:+ tab +:+ tab +:+ ".... Full ready-to-use periodic RVE boundary conditions .....") ;;;
  w_ ("!" +:+ tab +:+ tab +:+ "          in WARP3D required format") ;;;
  w_ "!" ;;;
  w_ "!" ;;;
  w_ "! --- MULTI-POINT CONSTRAINTS (MPCs) ---" ;;;
  w_ "multipoint" ;;;
  out_for (mpc_lines R) w_ ;;;
  w_ "!" ;;;
  w_ ("! Total zero absolute constraints (final, incl. implied): "
        +:+ pretty (Z.of_nat (size (fixed_final R)))) ;;;
  w_ ("! Total driver constraints (from eps_ij): "
        +:+ pretty (Z.of_nat (List.length (driver_constraints R)))) ;;;
  w_ ("! Total MPC equations emitted: "
        +:+ pretty (Z.of_nat (List.length (mpc_lines R)))) ;;;
  w_ "! ------------------------------------------------------------".

(** The body of [with open(out_name, "w") as out]. *)
Definition write_output (in_name : string) (emit_symbolic : bool)
    (P : Parsed) (R : Prepared) : Out unit :=
  write_header in_name P R ;;;
  (if emit_symbolic then write_symbolic R else out_ret tt) ;;;
  emit_constraints_block (fixed_final R) (driver_constraints R) ;;;
  write_mpcs R.

(** The output file: [None] while it does not exist, else its lines. *)
Definition FileState := option (list string).

(** [main] from the return of [parse_model_def] on. [in_name] and
    [emit_symbolic] are the answers to the prompts; the state is the file
    named [out_name], which [open(out_name, "w")] creates or empties. The
    messages printed on the terminal at the end are left out. *)
Definition main (in_name : string) (emit_symbolic : bool) (P : Parsed)
    (file : FileState) : FileState * (Err + unit) :=
  match prepare P with
  | inl e => (file, inl e)
  | inr R =>
      let '(out, r) := write_output in_name emit_symbolic P R [] in
      (Some out, r)
  end.

(* ===================================================================== *)
(** ** Parsing of the node block *)
(* ===================================================================== *)

(** The characters [str.strip()] and [str.split()] treat as white space,
    among the code points below 256. *)
Definition is_space (c : ascii) : bool :=
  let n := nat_of_ascii c in
  ((9 <=? n) && (n <=? 13) || (28 <=? n) && (n <=? 32)
   || (n =? 133) || (n =? 160))%nat.

(** [line.split("#", 1)[0]]. *)
Fixpoint before_hash (s : string) : string :=
  match s with
  | EmptyString => EmptyString
  | String c s' => if Ascii.eqb c "#" then EmptyString else String c (before_hash s')
  end.

Fixpoint lstrip (s : string) : string :=
  match s with
  | EmptyString => EmptyString
  | String c s' => if is_space c then lstrip s' else s
  end.

Fixpoint rstrip_ws (s : string) : string :=
  match s with
  | EmptyString => EmptyString
  | String c s' =>
      match rstrip_ws s' with
      | EmptyString => if is_space c then EmptyString else String c EmptyString
      | r => String c r
      end
  end.

(** [s.strip()]. *)
Definition strip (s : string) : string := rstrip_ws (lstrip s).

(** [s.replace(",", " ")]. *)
Fixpoint replace_commas (s : string) : string :=
  match s with
  | EmptyString => EmptyString
  | String c s' =>
      String (if Ascii.eqb c "," then " "%char else c) (replace_commas s')
  end.

(** [s.split()]: the maximal runs without white space; [cur] is the run
    being read, reversed. *)
Fixpoint split_ws (s : string) (cur : list ascii) : list string :=
  let flush := match cur with
               | [] => []
               | _ => [string_of_list_ascii (rev cur)]
               end in
  match s with
  | EmptyString => flush
  | String c s' =>
      if is_space c then flush ++ split_ws s' [] else split_ws s' (c :: cur)
  end.

Definition data_tokens (line : string) : list string :=
  let core := strip (before_hash line) in
  if bool_decide (core = EmptyString) then []
  else List.filter (fun p => negb (bool_decide (p = EmptyString)))
         (split_ws (replace_commas core) []).

Section ParseNodes.
(** The built-ins [int] and [float] on a token; [None] stands for the
ValueError they raise on a token they do not accept. *)
Variable py_int : string -> option Z.
Variable py_float : string -> option float.

(** The body of [for k in range(idx, node_end)] over the lines
[lines[idx:node_end]], with [expected_id = (k - idx) + 1]; [nodes] is
the dictionary filled so far. *)
Fixpoint parse_node_lines (ls : list string) (expected_id : Z)
(nodes : Nodes) : Err + Nodes :=
match ls with
| [] => inr nodes
| line :: rest =>
let parts := data_tokens line in
match parts with
| [t0; t1; t2; t3] =>
match py_int t0 with
| None => inl (BadIntLiteral t0)
| Some n =>
if bool_decide (n ≠ expected_id)
then inl (NotSequential expected_id n line)
else
match py_float t1 with
| None => inl (BadFloatLiteral t1)
| Some cx =>
match py_float t2 with
| None => inl (BadFloatLiteral t2)
| Some cy =>
  match py_float t3 with
  | None => inl (BadFloatLiteral t3)
  | Some cz =>
      parse_node_lines rest (expected_id + 1)
        (nodes ++ [mkNode n cx cy cz ∅ unset])
  end
end
end
end
| _ => inl (BadNodeLine line parts)
end
end.

(** The node block of [parse_model_def]: [lines] are the data lines of
the file, [idx] the index of the first node line, [n_nodes] the count
read from line 1. *)
Definition parse_nodes (lines : list string) (idx : nat) (n_nodes : Z)
: Err + Nodes :=
let node_end := Z.of_nat idx + n_nodes in
if Z.of_nat (List.length lines) <? node_end
then inl (InsufficientNodeLines n_nodes idx)
else parse_node_lines
 (take (Z.to_nat (node_end - Z.of_nat idx)) (drop idx lines)) 1 [].
(** The line carries the id [n]: it has a first token, which [int] reads
as [n]. *)
Definition has_id (line : string) (n : Z) : Prop :=
exists t0 ts, data_tokens line = t0 :: ts /\ py_int t0 = Some n.

(** The line is a node line with the id [n]: four tokens, the first read
by [int] as [n], the others read by [float]. *)
Definition node_line_ok (line : string) (n : Z) : Prop :=
exists t0 t1 t2 t3 cx cy cz,
data_tokens line = [t0; t1; t2; t3]
/\ py_int t0 = Some n
/\ py_float t1 = Some cx /\ py_float t2 = Some cy /\ py_float t3 = Some cz.

(** The [k]-th node line, counted from 1, of a file whose node block
starts at the index [idx]. *)
Definition node_line_at (lines : list string) (idx : nat) (k : Z) : option string :=
if 1 <=? k then lines !! (idx + Z.to_nat (k - 1))%nat else None.
End ParseNodes.

(** Decimal literals, for examples: an instance of [int] on tokens of
    digits with an optional sign, and of [float] on such tokens of at most
    15 digits (which binary64 holds exactly). *)
Fixpoint digits_val (s : string) (acc : Z) : option Z :=
  match s with
  | EmptyString => Some acc
  | String c s' =>
      let n := Z.of_nat (nat_of_ascii c) in
      if (48 <=? n) && (n <=? 57) then digits_val s' (10 * acc + (n - 48))
      else None
  end.

Definition dec_int (tok : string) : option Z :=
  match tok with
  | EmptyString => None
  | String "-" (String c s) => Z.opp <$> digits_val (String c s) 0
  | String "+" (String c s) => digits_val (String c s) 0
  | _ => digits_val tok 0
  end.

Definition dec_float (tok : string) : option float :=
  match dec_int tok with
  | Some n =>
      if (String.length tok <=? 15)%nat
      then Some (if n <? 0 then PrimFloat.opp (PrimFloat.of_uint63 (Uint63.of_Z (- n)))
                 else PrimFloat.of_uint63 (Uint63.of_Z n))
      else None
  | None => None
  end.

(* ===================================================================== *)
(** ** Notions used in the statements *)
(* ===================================================================== *)

(** One round of the closure loop that does not break: the set [fixed]
    after [fixed |= new_implied]. *)
Definition closure_step (gs : list (list Pairing * option Kind)) (nodes : Nodes)
    (eps : Strain) (dummy_eps_map : DummyEpsMap) (eps_tol : float)
    (fixed : FixedDofSet) : FixedDofSet :=
  fixed ∪ (gen_implied (sweep gs nodes eps dummy_eps_map fixed eps_tol) ∖ fixed).

(** The set [fixed] at the start of round [k] of the closure loop. *)
Fixpoint fixed_after (k : nat) (gs : list (list Pairing * option Kind))
    (nodes : Nodes) (eps : Strain) (dummy_eps_map : DummyEpsMap)
    (eps_tol : float) (fixed : FixedDofSet) : FixedDofSet :=
  match k with
  | O => fixed
  | S k' => fixed_after k' gs nodes eps dummy_eps_map eps_tol
              (closure_step gs nodes eps dummy_eps_map eps_tol fixed)
  end.

(** A set is closed when a sweep under it implies nothing outside it. *)
Definition closed (gs : list (list Pairing * option Kind)) (nodes : Nodes)
    (eps : Strain) (dummy_eps_map : DummyEpsMap) (eps_tol : float)
    (fixed : FixedDofSet) : Prop :=
  gen_implied (sweep gs nodes eps dummy_eps_map fixed eps_tol) ⊆ fixed.

(** An entry of the map counts when its strain component is not below
    the threshold: the test [abs(val) < eps_tol] fails. *)
Definition live (eps : Strain) (eps_tol : float)
    (e : (Ix * Ix) * (Z * Z * Dof)) : bool :=
  negb (PrimFloat.ltb (PrimFloat.abs (eps_at eps (fst (fst e)) (snd (fst e)))) eps_tol).

(** The driver key [(driver_node, dof)] and the strain value of an entry. *)
Definition entry_key (e : (Ix * Ix) * (Z * Z * Dof)) : Z * Dof :=
  (snd (fst (snd e)), snd (snd e)).

Definition entry_val (eps : Strain) (e : (Ix * Ix) * (Z * Z * Dof)) : float :=
  eps_at eps (fst (fst e)) (snd (fst e)).

(** The strain value of the first entry of [items], in the order of the
    map, that counts and has the driver key [key]. *)
Definition first_live (eps : Strain) (eps_tol : float) (items : DummyEpsMap)
    (key : Z * Dof) : option float :=
  entry_val eps <$>
    List.find (fun e => live eps eps_tol e && bool_decide (entry_key e = key)) items.

(** An entry that counts, after which the loop over the map raises: an
    earlier entry that counts has the same driver key, and the value of the
    first such entry is not within 1e-12 of this one's. *)
Definition driver_clash (eps : Strain) (eps_tol : float) (items : DummyEpsMap) : Prop :=
  exists l1 e l2 old,
    items = l1 ++ e :: l2
    /\ live eps eps_tol e = true
    /\ first_live eps eps_tol l1 (entry_key e) = Some old
    /\ is_close old (entry_val eps e) tol12 = false.

(** The first part of the sentence on the driver constraints, as it is
    written: every entry that counts has its own strain value recorded under
    its driver key. *)
Definition records_every_entry (eps : Strain) (eps_tol : float)
    (items : DummyEpsMap) : Prop :=
  forall drv, build_driver_constraints eps items eps_tol = inr drv ->
  forall e, In e items -> live eps eps_tol e = true ->
    drv_get drv (entry_key e) = Some (entry_val eps e).

(** Two strain components that agree within 1e-12 and are not equal, both
    mapped to the driver dof (100, u). *)
Definition eps_close_pair : Strain :=
  ((1%float, 0%float, 0%float),
   (0%float, 1.0000000000005%float, 0%float),
   (0%float, 0%float, 0%float)).

Definition map_shared_driver : DummyEpsMap :=
  [((I1, I1), (10, 100, u)); ((I2, I2), (11, 100, u))].

(** A comment line of the output starts with "!". *)
Definition is_comment (s : string) : bool :=
  match s with
  | String c _ => Ascii.eqb c "!"
  | EmptyString => false
  end.

(** The lines [emit_constraints_block] writes when it does not raise. *)
Definition constraints_lines (zero_constraints : FixedDofSet)
    (driver_constraints : DriverMap) : list string :=
  [ "!"; "! --- ABSOLUTE CONSTRAINTS (must appear before 'multipoint') ---" ]
  ++ (if bool_decide (zero_constraints = ∅) && is_empty driver_constraints
      then [ "!   (none)" ]
      else "constraints"
             :: map driver_line (sorted_items driver_constraints)
             ++ map zero_line (sorted_keys zero_constraints)).

(** The lines [main] writes from the multipoint section on. *)
Definition multipoint_lines (R : Prepared) : list string :=
  [ "!"; "!";
    "!" +:+ tab +:+ tab +:+ ".... Full ready-to-use periodic RVE boundary conditions .....";
    "!" +:+ tab +:+ tab +:+ "          in WARP3D required format";
    "!"; "!";
    "! --- MULTI-POINT CONSTRAINTS (MPCs) ---";
    "multipoint" ]
  ++ mpc_lines R
  ++ [ "!";
       "! Total zero absolute constraints (final, incl. implied): "
         +:+ pretty (Z.of_nat (size (fixed_final R)));
       "! Total driver constraints (from eps_ij): "
         +:+ pretty (Z.of_nat (List.length (driver_constraints R)));
       "! Total MPC equations emitted: "
         +:+ pretty (Z.of_nat (List.length (mpc_lines R)));
       "! ------------------------------------------------------------" ].

(** A writer that raises nothing and appends the lines [ls]. *)
Definition Emits (c : Out unit) (ls : list string) : Prop :=
  forall o, c o = (o ++ ls, inr tt).

(** A writer that raises nothing and appends comment lines only. *)
Definition Comments (c : Out unit) : Prop :=
  exists ls, Emits c ls /\ Forall (fun s => is_comment s = true) ls.

(** The bounding plane a face name stands for, and the extent of the box
    the classifier compares with zero. *)
Definition plane_of (bounds : Bounds) (f : Face) : float :=
  let '(xmin, xmax, ymin, ymax, zmin, zmax) := bounds in
  match f with
  | Xm => xmin | Xp => xmax | Ym => ymin | Yp => ymax | Zm => zmin | Zp => zmax
  end.

Definition box_extent (bounds : Bounds) : float :=
  let '(xmin, xmax, ymin, ymax, zmin, zmax) := bounds in
  Py.max3 (PrimFloat.abs (PrimFloat.sub xmax xmin))
          (PrimFloat.abs (PrimFloat.sub ymax ymin))
          (PrimFloat.abs (PrimFloat.sub zmax zmin)).

(** The equations behind the lines of a call of the generator: the term
    lists of two terms or more, for the pairings that pass the guards and
    the three components, in order. *)
Definition gen_equations (pair_list : list Pairing) (nodes : Nodes) (eps : Strain)
    (dummy_eps_map : DummyEpsMap) (fixed_dofs : FixedDofSet)
    (required_kind : option Kind) (eps_tol : float) : list (list Term) :=
  List.filter (fun ts => (2 <=? List.length ts)%nat)
    (flat_map (fun p => map (fun i => fst (assemble_terms eps dummy_eps_map
                                             fixed_dofs eps_tol p i))
                          [I1; I2; I3])
       (List.filter (pair_passes nodes required_kind) pair_list)).

Definition sweep_equations (gs : list (list Pairing * option Kind)) (nodes : Nodes)
    (eps : Strain) (dummy_eps_map : DummyEpsMap) (fixed : FixedDofSet)
    (eps_tol : float) : list (list Term) :=
  flat_map (fun g => gen_equations (fst g) nodes eps dummy_eps_map fixed (snd g)
                       eps_tol) gs.

(** The equations behind the lines [mpc_lines] of a run. *)
Definition run_equations (P : Parsed) (R : Prepared) : list (list Term) :=
  sweep_equations (groups (face_pairings R) (edge_pairings R) (vertex_pairings R))
    (classified R) (eps P) (dummy_eps_map P) (fixed_final R) eps_tol_default.

(** The term is on a node of the dictionary whose kind is "degenerate". *)
Definition term_on_degenerate (nodes : Nodes) (t : Term) : bool :=
  match nodes_get nodes (snd (fst t)) with
  | Some nd => bool_decide (kind nd = degenerate)
  | None => false
  end.

(** The last part of the sentence on the classifier, as it is written: no
    equation of a run has a term on a degenerate node. *)
Definition degenerate_free (P : Parsed) : Prop :=
  forall R, prepare P = inr R ->
  forall ts t, In ts (run_equations P R) -> In t ts ->
    term_on_degenerate (classified R) t = false.

(** What holds of the pairings [out] of the minus nodes [lm] with the plus
    nodes [lp], both in iteration order: no two pairings have minus nodes
    with equal keys; a pairing joins the last minus node and the last plus
    node of one key; and a node that comes before a node of its side with an
    equal key is in no pairing. *)
Definition one_pairing_per_key {K : Type} (keq : K -> K -> bool)
    (key : Node -> K) (nodes : Nodes) (lm lp : list Node)
    (out : list Pairing) : Prop :=
  ForallOrdPairs
    (fun p q => forall a b,
       nodes_get nodes (minus_node p) = Some a ->
       nodes_get nodes (minus_node q) = Some b ->
       keq (key a) (key b) = false)
    out
  /\ (forall p, In p out ->
        exists a b,
          nodes_get nodes (minus_node p) = Some a
          /\ nodes_get nodes (plus_node p) = Some b
          /\ last_of_key keq key lm a /\ last_of_key keq key lp b
          /\ keq (key a) (key b) = true)
  /\ (forall p, In p out ->
        (forall nd, In nd lm -> shadowed keq key lm nd -> minus_node p <> nid nd)
        /\ (forall nd, In nd lp -> shadowed keq key lp nd -> plus_node p <> nid nd)).

(** The nodes of a face and of an edge, in iteration order. *)
Definition nodes_on_face (nodes : Nodes) (f : Face) : list Node :=
  List.filter (fun nd => bool_decide (f ∈ faces nd)) nodes.

Definition nodes_on_edge (nodes : Nodes) (fs : Face * Face) : list Node :=
  List.filter (fun nd => bool_decide (kind nd = edge)
                         && bool_decide (faces nd = face_set fs)) nodes.

(** The key of an edge whose faces are [fs]. *)
Definition edge_key (fs : Face * Face) (nd : Node) : float :=
  round_coord (_axis_coord nd (param_axis_of fs)).

(** The first sentence on the face pairings, as it is written: the two
    nodes of every face pairing of a run have the kind face. *)
Definition face_pairings_join_faces (P : Parsed) : Prop :=
  forall R, prepare P = inr R ->
  forall d p, In p (face_pairings_at (face_pairings R) d) ->
  forall a b,
    nodes_get (classified R) (minus_node p) = Some a ->
    nodes_get (classified R) (plus_node p) = Some b ->
    kind a = face /\ kind b = face.

(** The ids of the two nodes of a pairing, minus first. *)
Definition pairing_ids (p : Pairing) : Z * Z := (minus_node p, plus_node p).

(* ===================================================================== *)
(** ** Example inputs *)
(* ===================================================================== *)

(** A node as the parser creates it. *)
Definition parsed_node (n : Z) (cx cy cz : float) : Node :=
  mkNode n cx cy cz ∅ unset.

(** The unit cube: 8 nodes at the corners of [0,1]^3. *)
Definition cube_nodes : Nodes :=
  [ parsed_node 1 0 0 0; parsed_node 2 1 0 0;
    parsed_node 3 1 1 0; parsed_node 4 0 1 0;
    parsed_node 5 0 0 1; parsed_node 6 1 0 1;
    parsed_node 7 1 1 1; parsed_node 8 0 1 1 ].

(** The labels A..H on the nodes 1..8: A-G, D-F, B-H and E-C are the body
    diagonals of the cube. *)
Definition cube_vertex_ids : VertexIds :=
  fun l => match l with
           | vA => 1 | vB => 2 | vC => 3 | vD => 4
           | vE => 5 | vF => 6 | vG => 7 | vH => 8
           end.

Definition zero_row : Row := (0%float, 0%float, 0%float).
Definition zero_strain : Strain := (zero_row, zero_row, zero_row).

(** The unit cube with zero strain, an empty map and no fixed dof. *)
Definition cube_free : Parsed :=
  mkParsed 1 1 1 cube_vertex_ids zero_strain cube_nodes ∅ [].

(** The unit cube with eps11 and eps12 driven through the dummy node 100
    and the drivers 200 and 201, node 1 fixed in u and v. *)
Definition cube_driven : Parsed :=
  mkParsed 1 1 1 cube_vertex_ids
    ((0.01%float, 0.002%float, 0%float), zero_row, zero_row)
    cube_nodes {[ (1, u); (1, v) ]}
    [ ((I1, I1), (100, 200, u)); ((I1, I2), (100, 201, v)) ].

(** As [cube_driven], with the driver dof (200, u) fixed by the caller. *)
Definition cube_conflict : Parsed :=
  mkParsed 1 1 1 cube_vertex_ids
    ((0.01%float, 0.002%float, 0%float), zero_row, zero_row)
    cube_nodes {[ (1, u); (200, u) ]}
    [ ((I1, I1), (100, 200, u)); ((I1, I2), (100, 201, v)) ].

(** A flat unit square in the plane z = 0: every node touches the planes
    Z- and Z+ and two more, so every node is degenerate. The labels A..H
    are on its four nodes. *)
Definition square_nodes : Nodes :=
  [ parsed_node 1 0 0 0; parsed_node 2 1 0 0;
    parsed_node 3 1 1 0; parsed_node 4 0 1 0 ].

Definition square_vertex_ids : VertexIds :=
  fun l => match l with
           | vA => 1 | vB => 2 | vC => 3 | vD => 4
           | vE => 1 | vF => 2 | vG => 3 | vH => 4
           end.

Definition flat_square : Parsed :=
  mkParsed 1 1 0 square_vertex_ids zero_strain square_nodes ∅ [].

(** The unit cube with three more nodes: 9 and 10 on the face X-, with the
    same transverse coordinates once rounded to 6 decimals, and 11 across
    them on the face X+. *)
Definition shadow_nodes : Nodes :=
  classify_boundary_nodes (0, 1, 0, 1, 0, 1)%float
    (cube_nodes ++ [ parsed_node 9 0 0.5 0.5;
                     parsed_node 10 0 0.5000000001 0.5;
                     parsed_node 11 1 0.5 0.5 ])
    tol_rel_default.

(** The unit cube with zero strain, an empty map and no fixed dof, with
    the labels A..H placed by [vertex_ids] and any declared dimensions. *)
Definition cube_labelled (vertex_ids : VertexIds) (L : float * float * float)
    : Parsed :=
  mkParsed (fst (fst L)) (snd (fst L)) (snd L) vertex_ids zero_strain
    cube_nodes ∅ [].

(** The scenario of the unit cube, as it is written: no equation, and
    three zero constraints. *)
Definition cube_claim (P : Parsed) : Prop :=
  forall R, prepare P = inr R ->
    mpc_lines R = [] /\ size (fixed_final R) = 3%nat.

(** The bounds of the unit cube and its nodes once classified. *)
Definition cube_bounds : Bounds := (0, 1, 0, 1, 0, 1)%float.

Definition cube_classified : Nodes :=
  classify_boundary_nodes cube_bounds cube_nodes tol_rel_default.

(** The equation of a vertex pairing for one dof, when no dof is fixed
    and the strain is zero. *)
Definition cube_line (p : Pairing) (d : Dof) : string :=
  "  " +:+ pretty (plus_node p) +:+ " 1.0 " +:+ dof_str d +:+ "  - "
    +:+ pretty (minus_node p) +:+ " 1.0 " +:+ dof_str d +:+ " = 0.".

(* ===================================================================== *)
(** ** Notions used in further statements *)
(* ===================================================================== *)

(** The node, the dof and the coefficient of a term. *)
Definition term_node (t : Term) : Z := snd (fst t).
Definition term_dof (t : Term) : Dof := snd t.
Definition term_coeff (t : Term) : float := fst (fst t).

(** [delta[j-1]] of a pairing. *)
Definition delta_at (p : Pairing) (j : Ix) : float := row_at (delta p) j.

(** A dummy term of the equation of pairing [p] and component [i]: its
    node and dof are the ones the map gives for some [(i, j)] whose strain
    component is not below the threshold and whose delta is not zero, and
    its coefficient is minus that delta. *)
Definition is_dummy_term (eps : Strain) (dummy_eps_map : DummyEpsMap)
    (eps_tol : float) (p : Pairing) (i : Ix) (t : Term) : Prop :=
  exists j drv,
    dmap_get dummy_eps_map (i, j) = Some (term_node t, drv, term_dof t)
    /\ term_coeff t = PrimFloat.opp (delta_at p j)
    /\ PrimFloat.ltb (PrimFloat.abs (eps_at eps i j)) eps_tol = false
    /\ PrimFloat.eqb (delta_at p j) 0 = false.





(** Node 1 zero-constrained in u. *)
Definition node1_u : FixedDofSet := {[ (1, u) ]}.


(** The character of a warning that follows "WARNING: ": it tells the
    three kinds of warnings apart. *)
Definition warning_tag (s : string) : option ascii := String.get 9 s.


(** Node 1 and the driver dof (200, u) zero-constrained, and a driver
    constraint on (200, u). *)
Definition zero_with_driver : FixedDofSet := {[ (1, u); (200, u); (300, w) ]}.
Definition driver_200u : DriverMap := [((200, u), 0.01%float)].


(** The pairing [p] joins the nodes [a] (minus) and [b] (plus) of the
    dictionary, and its delta is the difference of their coordinates. *)
Definition joins (nodes : Nodes) (p : Pairing) (a b : Node) : Prop :=
  nodes_get nodes (minus_node p) = Some a
  /\ nodes_get nodes (plus_node p) = Some b
  /\ delta p = (PrimFloat.sub (x b) (x a), PrimFloat.sub (y b) (y a),
                PrimFloat.sub (z b) (z a)).

(** Both labels of a body diagonal are on nodes of the dictionary. *)
Definition diagonal_present (nodes : Nodes) (vertex_ids : VertexIds)
    (d : VLabel * VLabel) : Prop :=
  is_Some (nodes_get nodes (vertex_ids (snd d)))
  /\ is_Some (nodes_get nodes (vertex_ids (fst d))).


(** The unit cube with zero strain and node 1 zero-constrained in u. *)
Definition cube_pinned : Parsed :=
  mkParsed 1 1 1 cube_vertex_ids zero_strain cube_nodes node1_u [].

(** Every component of the strain is below the threshold. *)
Definition negligible_strain (eps : Strain) (eps_tol : float) : Prop :=
  forall i j, PrimFloat.ltb (PrimFloat.abs (eps_at eps i j)) eps_tol = true.

(** The pairings of all groups that pass the guards of their group. *)
Definition passing_pairings (gs : list (list Pairing * option Kind))
    (nodes : Nodes) : list Pairing :=
  flat_map (fun g => List.filter (pair_passes nodes (snd g)) (fst g)) gs.


(** The lower and the upper face of an axis. *)
Definition minus_face_of (a : Axis) : Face :=
  match a with AX => Xm | AY => Ym | AZ => Zm end.

Definition plus_face_of (a : Axis) : Face :=
  match a with AX => Xp | AY => Yp | AZ => Zp end.

(** The float is a number: it is equal to itself under [==]. *)
Definition is_number (c : float) : Prop := PrimFloat.eqb c c = true.


(** The characters of a string. *)
Definition chars (s : string) : list ascii := list_ascii_of_string s.

(** The token closed by a separator: the run [cur] read so far, if any. *)
Definition flush_run (cur : list ascii) : list string :=
  match cur with
  | [] => []
  | _ => [string_of_list_ascii (rev cur)]
  end.

(** A token: not empty, and without white space, comma or "#". *)
Definition is_token (t : string) : Prop :=
  t <> EmptyString
  /\ forall c, In c (chars t) ->
       is_space c = false /\ c <> ","%char /\ c <> "#"%char.


(* ===================================================================== *)
(** ** Parsing of the model definition *)
(* ===================================================================== *)

(** The errors of [parse_model_def] (all are ValueError in the source);
    [Raised] carries the errors of the node block and of the built-ins
    [int] and [float]. *)
Inductive ParseErr :=
| TooFewDataLines (n : nat)
| BadLine1 (line : string) (tokens : list string)
| BadLine2 (line : string) (tokens : list string)
| BadLine3 (line : string) (v : list Z)
| BadStrainRow (line_no : Z) (line : string) (tokens : list string)
| BadAbsHeader (line : string)
| AbsTruncated
| BadAbsEntry (line : string)
| UnknownAbsDof (dch : string)
| MapMissing
| MapExpected (line : string)
| BadMapHeader (line : string)
| MapTruncated
| BadMapEntry (line : string) (tokens : list string)
| InvalidMapIndex (i j : Z)
| InvalidMapDof (dof : string)
| Raised (e : Err).

(** Code that may raise: the error monad on [ParseErr]. *)
#[global] Instance parse_ret : MRet (sum ParseErr) := fun A a => inr a.

#[global] Instance parse_bind : MBind (sum ParseErr) :=
  fun A B k m => match m with inl e => inl e | inr a => k a end.

(** [d in ("u", "v", "w")], with the dof it names. *)
Definition dof_of_string (s : string) : option Dof :=
  if bool_decide (s = "u") then Some u
  else if bool_decide (s = "v") then Some v
  else if bool_decide (s = "w") then Some w
  else None.

(** [i in (1, 2, 3)], with the index it names. *)
Definition ix_of_Z (n : Z) : option Ix :=
  if n =? 1 then Some I1 else if n =? 2 then Some I2
  else if n =? 3 then Some I3 else None.

(** [dummy_eps_map[key] = val]: a key already stored keeps its place and
    takes the new value, a new key is appended. *)
Fixpoint dmap_set (m : DummyEpsMap) (key : Ix * Ix) (val : Z * Z * Dof)
    : DummyEpsMap :=
  match m with
  | [] => [(key, val)]
  | (k', v') :: m' =>
      if bool_decide (k' = key) then (k', val) :: m'
      else (k', v') :: dmap_set m' key val
  end.

(** The line feed. *)
Definition newline : ascii := ascii_of_nat 10.

(** A raw line is kept when, once stripped, it is not empty and does not
    start with "#". *)
Definition is_data_line (line : string) : bool :=
  match strip line with
  | EmptyString => false
  | String c _ => negb (Ascii.eqb c "#")
  end.

(** The list [lines]: the raw lines kept, each without its line feeds at
    the end. *)
Definition data_lines (raw_lines : list string) : list string :=
  map (Py.rstrip newline) (List.filter is_data_line raw_lines).

(** [{"A": v[0], ..., "H": v[7]}]. *)
Definition vertex_ids_of (a b c d e f g h : Z) : VertexIds :=
  fun l => match l with
           | vA => a | vB => b | vC => c | vD => d
           | vE => e | vF => f | vG => g | vH => h
           end.

Section ParseModel.
(** The built-ins [int] and [float] on a token ([None] stands for the
ValueError they raise) and the methods [upper] and [lower] of a string. *)
Variable py_int : string -> option Z.
Variable py_float : string -> option float.
Variable py_upper : string -> string.
Variable py_lower : string -> string.

Definition int_of (tok : string) : ParseErr + Z :=
match py_int tok with
| Some n => inr n
| None => inl (Raised (BadIntLiteral tok))
end.

Definition float_of (tok : string) : ParseErr + float :=
match py_float tok with
| Some c => inr c
| None => inl (Raised (BadFloatLiteral tok))
end.

(** [[int(p) for p in tokens]]. *)
Fixpoint ints_of (tokens : list string) : ParseErr + list Z :=
match tokens with
| [] => inr []
| t :: rest => n ← int_of t; ns ← ints_of rest; mret (n :: ns)
end.

(** Line 1: [n_nodes n_elems]; the second number is read and dropped. *)
Definition parse_line1 (line : string) : ParseErr + Z :=
match data_tokens line with
| [t0; t1] => n_nodes ← int_of t0; _ ← int_of t1; mret n_nodes
| parts => inl (BadLine1 line parts)
end.

(** Line 2: [Lx Ly Lz]. *)
Definition parse_line2 (line : string) : ParseErr + (float * float * float) :=
match data_tokens line with
| [t0; t1; t2] =>
lx ← float_of t0; ly ← float_of t1; lz ← float_of t2; mret (lx, ly, lz)
| parts => inl (BadLine2 line parts)
end.

(** Line 3: the ids of the vertices A..H. Every token is converted
before the tokens are counted. *)
Definition parse_line3 (line : string) : ParseErr + VertexIds :=
ids ← ints_of (data_tokens line);
match ids with
| [a; b; c; d; e; f; g; h] => mret (vertex_ids_of a b c d e f g h)
| _ => inl (BadLine3 line ids)
end.

(** A row of the strain tensor, on line [line_no] of the data lines. *)
Definition parse_row (line_no : Z) (line : string) : ParseErr + Row :=
match data_tokens line with
| [t0; t1; t2] =>
a ← float_of t0; b ← float_of t1; c ← float_of t2; mret (a, b, c)
| parts => inl (BadStrainRow line_no line parts)
end.

(** [for dch in parts[1:]] of an entry of ABS_CONSTRAINTS. *)
Fixpoint abs_dofs (node : Z) (dchs : list string) (fixed_dofs : FixedDofSet)
: ParseErr + FixedDofSet :=
match dchs with
| [] => inr fixed_dofs
| dch :: rest =>
match dof_of_string (py_lower dch) with
| None => inl (UnknownAbsDof dch)
| Some d => abs_dofs node rest (fixed_dofs ∪ {[ (node, d) ]})
end
end.

(** [for _ in range(n_fix)], with [n] rounds left; it returns the index
reached and the set filled. *)
Fixpoint abs_entries (n : nat) (lines : list string) (idx : nat)
(fixed_dofs : FixedDofSet) : ParseErr + (nat * FixedDofSet) :=
match n with
| O => inr (idx, fixed_dofs)
| S n' =>
match lines !! idx with
| None => inl AbsTruncated
| Some line =>
  match data_tokens line with
  | t0 :: t1 :: ts =>
      node ← int_of t0;
      fixed_dofs' ← abs_dofs node (t1 :: ts) fixed_dofs;
      abs_entries n' lines (S idx) fixed_dofs'
  | _ => inl (BadAbsEntry line)
  end
end
end.

(** The optional block ABS_CONSTRAINTS at the index [idx]. *)
Definition parse_abs (lines : list string) (idx : nat)
: ParseErr + (nat * FixedDofSet) :=
match lines !! idx with
| None => inr (idx, ∅)
| Some line =>
match data_tokens line with
| t0 :: ts =>
  if bool_decide (py_upper t0 = "ABS_CONSTRAINTS")
  then
    match ts with
    | [t1] =>
        n_fix ← int_of t1;
        abs_entries (Z.to_nat n_fix) lines (S idx) ∅
    | _ => inl (BadAbsHeader line)
    end
  else inr (idx, ∅)
| [] => inr (idx, ∅)
end
end.

(** [for _ in range(n_map)], with [n] rounds left. *)
Fixpoint map_entries (n : nat) (lines : list string) (idx : nat)
(dummy_eps_map : DummyEpsMap) : ParseErr + (nat * DummyEpsMap) :=
match n with
| O => inr (idx, dummy_eps_map)
| S n' =>
match lines !! idx with
| None => inl MapTruncated
| Some line =>
  match data_tokens line with
  | [t0; t1; t2; t3; t4] =>
      i ← int_of t0; j ← int_of t1;
      dn ← int_of t2; drv ← int_of t3;
      let dof := py_lower t4 in
      match ix_of_Z i, ix_of_Z j with
      | Some i', Some j' =>
          match dof_of_string dof with
          | Some d =>
              map_entries n' lines (S idx)
                (dmap_set dummy_eps_map (i', j') (dn, drv, d))
          | None => inl (InvalidMapDof dof)
          end
      | _, _ => inl (InvalidMapIndex i j)
      end
  | parts => inl (BadMapEntry line parts)
  end
end
end.

(** The required block DUMMY_EPS_MAP at the index [idx]. *)
Definition parse_map (lines : list string) (idx : nat)
: ParseErr + (nat * DummyEpsMap) :=
match lines !! idx with
| None => inl MapMissing
| Some line =>
match data_tokens line with
| t0 :: ts =>
  if bool_decide (py_upper t0 = "DUMMY_EPS_MAP")
  then
    match ts with
    | [t1] =>
        n_map ← int_of t1;
        map_entries (Z.to_nat n_map) lines (S idx) []
    | _ => inl (BadMapHeader line)
    end
  else inl (MapExpected line)
| [] => inl (MapExpected line)
end
end.

(** The node block, with its errors. *)
Definition parse_node_block (lines : list string) (idx : nat) (n_nodes : Z)
: ParseErr + Nodes :=
match parse_nodes py_int py_float lines idx n_nodes with
| inl e => inl (Raised e)
| inr nodes => inr nodes
end.

(** [parse_model_def] on the lines [f.readlines()] returns. *)
Definition parse_model_def (raw_lines : list string) : ParseErr + Parsed :=
let lines := data_lines raw_lines in
match lines with
| l1 :: l2 :: l3 :: l4 :: l5 :: l6 :: _ =>
n_nodes ← parse_line1 l1;
'(lx, ly, lz) ← parse_line2 l2;
vertex_ids ← parse_line3 l3;
r1 ← parse_row 4 l4;
r2 ← parse_row 5 l5;
r3 ← parse_row 6 l6;
'(idx, fixed_dofs) ← parse_abs lines 6;
'(idx, dummy_eps_map) ← parse_map lines idx;
nodes ← parse_node_block lines idx n_nodes;
mret (mkParsed lx ly lz vertex_ids (r1, r2, r3) nodes fixed_dofs dummy_eps_map)
| _ => inl (TooFewDataLines (List.length lines))
end.

(** The program from the three answers on: the parse, then [main] on
what was parsed. *)
Definition run (raw_lines : list string) (in_name : string)
(emit_symbolic : bool) (file : FileState)
: FileState * (ParseErr + unit) :=
match parse_model_def raw_lines with
| inl e => (file, inl e)
| inr P =>
match main in_name emit_symbolic P file with
| (file', inl e) => (file', inl (Raised e))
| (file', inr _) => (file', inr tt)
end
end.
End ParseModel.


(** Instances of [upper] and [lower] for examples: on strings of ASCII
    characters, where they change the 26 letters only. *)
Definition upper_char (c : ascii) : ascii :=
  let n := nat_of_ascii c in
  if ((97 <=? n) && (n <=? 122))%nat then ascii_of_nat (n - 32) else c.

Definition lower_char (c : ascii) : ascii :=
  let n := nat_of_ascii c in
  if ((65 <=? n) && (n <=? 90))%nat then ascii_of_nat (n + 32) else c.

Fixpoint map_chars (f : ascii -> ascii) (s : string) : string :=
  match s with
  | EmptyString => EmptyString
  | String c s' => String (f c) (map_chars f s')
  end.

Definition ascii_upper (s : string) : string := map_chars upper_char s.
Definition ascii_lower (s : string) : string := map_chars lower_char s.

(** A model definition: two nodes, a comment line, a blank line, commas,
    an inline comment, one fixed dof and a map with a repeated key. *)
Definition sample_input : list string :=
  [ "# two nodes"; "2 0"; "1, 1, 1"; ""; "1 2 1 2 1 2 1 2";
    "0 0 0"; "0 0 0"; "0 0 0";
    "abs_constraints 1"; "1 U";
    "DUMMY_EPS_MAP 2"; "1 1 10 20 u"; "1 1 11 21 v   # again";
    "1 0 0 0"; "2 1 1 1" ].

(** A model definition that declares no node. *)
Definition no_node_input : list string :=
  [ "0 0"; "1 1 1"; "1 2 3 4 5 6 7 8"; "0 0 0"; "0 0 0"; "0 0 0";
    "DUMMY_EPS_MAP 0"; "1 2 3 4" ].


(** What a call returns when it raises nothing. *)
Definition ok_of {E A : Type} (r : E + A) : option A :=
  match r with
  | inr a => Some a
  | inl _ => None
  end.

(** The sample with other blanks, commas and comments, and the same
    tokens on every line. *)
Definition sample_reformatted : list string :=
  [ "2,0  # nodes, elements"; "   "; "1 1 1"; "1,2,1,2,1,2,1,2";
    "0 0 0"; "0, 0, 0"; "# strain done"; "0 0 0";
    "abs_constraints 1"; " 1  U "; "DUMMY_EPS_MAP 2  # map";
    "1 1 10 20 u"; "1 1 11 21 v"; "1 0 0 0"; "2 1 1 1" ].


Section ParseNotions.
Variable py_int : string -> option Z.
Variable py_lower : string -> string.

(** The entry an entry line of DUMMY_EPS_MAP stands for: five tokens, four
read by [int], the first two among 1, 2, 3, the last a dof once in lower
case. *)
Definition map_entry_of (line : string)
: option ((Ix * Ix) * (Z * Z * Dof)) :=
match data_tokens line with
| [t0; t1; t2; t3; t4] =>
match py_int t0, py_int t1, py_int t2, py_int t3 with
| Some i, Some j, Some dn, Some drv =>
  match ix_of_Z i, ix_of_Z j, dof_of_string (py_lower t4) with
  | Some i', Some j', Some d => Some ((i', j'), (dn, drv, d))
  | _, _, _ => None
  end
| _, _, _, _ => None
end
| _ => None
end.
End ParseNotions.

(** The value of the last entry of [entries] under the key [key]. *)
Definition last_entry (entries : list ((Ix * Ix) * (Z * Z * Dof)))
    (key : Ix * Ix) : option (Z * Z * Dof) :=
  snd <$> List.find (fun e => bool_decide (fst e = key)) (rev entries).


Section AbsNotions.
Variable py_int : string -> option Z.
Variable py_lower : string -> string.

(** The dofs named by the tokens [dchs], when each is a dof once in lower
case. *)
Fixpoint dofs_of (dchs : list string) : option (list Dof) :=
match dchs with
| [] => Some []
| dch :: rest =>
match dof_of_string (py_lower dch), dofs_of rest with
| Some d, Some ds => Some (d :: ds)
| _, _ => None
end
end.

(** The entry an entry line of ABS_CONSTRAINTS stands for: a node id read
by [int], then one dof or more. *)
Definition abs_entry_of (line : string) : option (Z * list Dof) :=
match data_tokens line with
| t0 :: t1 :: ts =>
match py_int t0, dofs_of (t1 :: ts) with
| Some node, Some ds => Some (node, ds)
| _, _ => None
end
| _ => None
end.
End AbsNotions.

(** The pairs (node, dof) listed by the entries. *)
Definition listed (entries : list (Z * list Dof)) (key : Z * Dof) : Prop :=
  exists e, In e entries /\ fst e = fst key /\ In (snd key) (snd e).

(** The lines of the file that are not comments. *)
Definition effective_lines (out : list string) : list string :=
  List.filter (fun s => negb (is_comment s)) out.


(** The term is on a dof outside the set [fixed]. *)
Definition term_free (fixed : FixedDofSet) (t : Term) : bool :=
  bool_decide ((term_node t, term_dof t) ∉ fixed).

(* ===================================================================== *)
(** * Properties *)
(* ===================================================================== *)

(** ** The results of the generator *)

Lemma gen_lines_app (a b : Gen) : gen_lines (gen_app a b) = gen_lines a ++ gen_lines b.
Proof. by destruct a as [[??]?], b as [[??]?]. Qed.

Lemma gen_implied_app (a b : Gen) :
  gen_implied (gen_app a b) = gen_implied a ∪ gen_implied b.
Proof. by destruct a as [[??]?], b as [[??]?]. Qed.

Lemma gen_warnings_app (a b : Gen) :
  gen_warnings (gen_app a b) = gen_warnings a ++ gen_warnings b.
Proof. by destruct a as [[??]?], b as [[??]?]. Qed.

Lemma gen_lines_concat (l : list Gen) :
  gen_lines (gen_concat l) = concat (map gen_lines l).
Proof.
  induction l as [|a l IH]; first done.
  simpl. by rewrite gen_lines_app, IH.
Qed.

Lemma gen_implied_concat (l : list Gen) (k : Z * Dof) :
  k ∈ gen_implied (gen_concat l) <-> exists g, In g l /\ k ∈ gen_implied g.
Proof.
  induction l as [|a l IH]; simpl.
  - split; [set_solver | by intros (? & [] & _)].
  - rewrite gen_implied_app, elem_of_union, IH. split.
    + intros [H | (g & Hg & H)]; [by exists a; auto | by exists g; auto].
    + intros (g & [<- | Hg] & H); [by left | right; by exists g].
Qed.

Lemma gen_warnings_concat (l : list Gen) :
  gen_warnings (gen_concat l) = concat (map gen_warnings l).
Proof.
  induction l as [|a l IH]; first done.
  simpl. by rewrite gen_warnings_app, IH.
Qed.

Lemma gen_app_warnings_only (ws : list string) (g : Gen) :
  gen_app ([], ∅, ws) g = (gen_lines g, gen_implied g, ws ++ gen_warnings g).
Proof. destruct g as [[l s] w0]. simpl. by rewrite (left_id_L ∅ (∪)). Qed.

Lemma gen_app_assoc (a b c : Gen) : gen_app (gen_app a b) c = gen_app a (gen_app b c).
Proof.
  destruct a as [[??]?], b as [[??]?], c as [[??]?]. simpl.
  by rewrite <- !app_assoc, (assoc_L (∪)).
Qed.

Lemma gen_app_empty_l (a : Gen) : gen_app gen_empty a = a.
Proof. destruct a as [[??]?]. simpl. by rewrite (left_id_L ∅ (∪)). Qed.

Lemma gen_app_empty_r (a : Gen) : gen_app a gen_empty = a.
Proof.
  destruct a as [[??]?]. simpl. by rewrite !app_nil_r, (right_id_L ∅ (∪)).
Qed.

Lemma gen_concat_app (l1 l2 : list Gen) :
  gen_concat (l1 ++ l2) = gen_app (gen_concat l1) (gen_concat l2).
Proof.
  induction l1 as [|a l1 IH].
  - change (gen_concat []) with gen_empty. by rewrite gen_app_empty_l.
  - change (gen_concat ((a :: l1) ++ l2)) with (gen_app a (gen_concat (l1 ++ l2))).
    change (gen_concat (a :: l1)) with (gen_app a (gen_concat l1)).
    by rewrite IH, gen_app_assoc.
Qed.

(** The result of a call of the generator is the results of the rounds
    for the pairings that pass the guards and the three components,
    accumulated in order. *)
Lemma generate_rounds (pair_list : list Pairing) (nodes : Nodes) (eps : Strain)
    (dummy_eps_map : DummyEpsMap) (fixed_dofs : FixedDofSet)
    (required_kind : option Kind) (eps_tol one_term_tol : float) :
  generate_dummy_mpcs_for_pairs pair_list nodes eps dummy_eps_map fixed_dofs
    required_kind eps_tol one_term_tol
  = gen_concat
      (flat_map (fun p => map (gen_dof nodes eps dummy_eps_map fixed_dofs
                                 eps_tol one_term_tol p) [I1; I2; I3])
         (List.filter (pair_passes nodes required_kind) pair_list)).
Proof.
  unfold generate_dummy_mpcs_for_pairs.
  induction pair_list as [|p pl IH]; first done.
  change (gen_concat (map ?f (p :: pl)))
    with (gen_app (f p) (gen_concat (map f pl))).
  rewrite IH. unfold gen_pair. cbn [List.filter].
  destruct (pair_passes nodes required_kind p).
  - cbn [flat_map]. by rewrite gen_concat_app.
  - by rewrite gen_app_empty_l.
Qed.

(** C1: for a pairing [p] and a component [i], with [terms] the list
    assembled under the current set of fixed dofs and [ws] the warnings of
    the assembly, the round of the generator for [(p, i)] yields:
    no line and no implied constraint when [terms] is empty; the implied
    constraint [(n, d)] and nothing else when [terms] is one term on a
    physical node whose coefficient has magnitude within the tolerance of 1;
    only the residual warning when [terms] is one other term; and exactly
    one line, the rendering of [terms] in their order of assembly as a sum
    equal to zero, when there are two terms or more. A call of the
    generator returns the results of these rounds, for the pairings that
    pass its two guards and the components 1, 2, 3, accumulated in order. *)
Theorem C1_resolution_of_terms (nodes : Nodes) (eps : Strain)
    (dummy_eps_map : DummyEpsMap) (fixed_dofs : FixedDofSet)
    (eps_tol one_term_tol : float) (p : Pairing) (i : Ix) :
  let terms := fst (assemble_terms eps dummy_eps_map fixed_dofs eps_tol p i) in
  let ws := snd (assemble_terms eps dummy_eps_map fixed_dofs eps_tol p i) in
  let g := gen_dof nodes eps dummy_eps_map fixed_dofs eps_tol one_term_tol p i in
  (terms = [] -> g = ([], ∅, ws))
  /\ (forall coeff n d,
        terms = [(coeff, n, d)] ->
        is_physical nodes n = true ->
        is_close (PrimFloat.abs coeff) 1 one_term_tol = true ->
        g = ([], {[ (n, d) ]}, ws))
  /\ (forall coeff n d,
        terms = [(coeff, n, d)] ->
        is_physical nodes n = false
        \/ is_close (PrimFloat.abs coeff) 1 one_term_tol = false ->
        g = ([], ∅, ws ++ [residual_warning (coeff, n, d)]))
  /\ ((2 <= List.length terms)%nat ->
        g = ([render_line terms], ∅, ws)
        /\ render_line terms
           = "  " +:+ Py.join "  " (line_parts terms) +:+ " = 0."
        /\ List.length (line_parts terms) = List.length terms
        /\ (forall k t, (0 < k)%nat -> terms !! k = Some t ->
              line_parts terms !! k = Some (later_part t))
        /\ (forall t, terms !! 0%nat = Some t ->
              line_parts terms !! 0%nat = Some (first_part t)))
  /\ (forall pair_list required_kind,
        generate_dummy_mpcs_for_pairs pair_list nodes eps dummy_eps_map
          fixed_dofs required_kind eps_tol one_term_tol
        = gen_concat
            (flat_map (fun q => map (gen_dof nodes eps dummy_eps_map fixed_dofs
                                       eps_tol one_term_tol q) [I1; I2; I3])
               (List.filter (pair_passes nodes required_kind) pair_list))).
Proof.
  intros terms ws g. subst terms ws g.
  split; [|split; [|split; [|split]]]; [| | | |intros; apply generate_rounds].
  all: unfold gen_dof;
    destruct (assemble_terms _ _ _ _ _ _) as [terms ws]; cbn [fst snd];
    rewrite gen_app_warnings_only.
  4: intros Hlen; repeat split.
  - intros ->. simpl. by rewrite app_nil_r.
  - intros coeff n d -> Hp Hc. simpl. rewrite Hp, Hc. simpl.
    by rewrite app_nil_r.
  - intros coeff n d -> H. simpl.
    assert (is_physical nodes n && is_close (PrimFloat.abs coeff) 1 one_term_tol
            = false) as ->.
    { destruct H as [-> | ->]; [done | by rewrite andb_false_r]. }
    done.
  - destruct terms as [|t1 [|t2 ts]]; simpl in *; try lia.
    destruct t1 as [[??]?]. simpl. by rewrite app_nil_r.
  - destruct terms as [|t1 ts]; simpl; [done | by rewrite length_map].
  - intros k t Hk Ht. destruct terms as [|t1 ts]; first done.
    destruct k as [|k]; first lia. simpl in *.
    by rewrite list_lookup_fmap, Ht.
  - intros t Ht. destruct terms as [|t1 ts]; simpl in *; congruence.
Qed.

(** ** The closure *)

Section Closure.
Variable gs : list (list Pairing * option Kind).
Variable nodes : Nodes.
Variable eps : Strain.
Variable dummy_eps_map : DummyEpsMap.
Variable eps_tol : float.

Local Abbreviation step := (closure_step gs nodes eps dummy_eps_map eps_tol).
Local Abbreviation after k := (fixed_after k gs nodes eps dummy_eps_map eps_tol).
Local Abbreviation loop fuel := (closure_loop fuel gs nodes eps dummy_eps_map eps_tol).
Local Abbreviation is_closed := (closed gs nodes eps dummy_eps_map eps_tol).

Lemma closure_step_grows (F : FixedDofSet) : F ⊆ step F.
Proof. unfold closure_step. set_solver. Qed.

Lemma closure_step_closed (F : FixedDofSet) : is_closed F -> step F = F.
Proof. unfold closed, closure_step. set_solver. Qed.

Lemma fixed_after_succ (k : nat) (F : FixedDofSet) :
after (S k) F = step (after k F).
Proof.
revert F. induction k as [|k IH]; intros F; first done.
change (after (S (S k)) F) with (after (S k) (step F)).
rewrite IH. done.
Qed.

Lemma fixed_after_grows (k : nat) (F : FixedDofSet) : after k F ⊆ after (S k) F.
Proof. rewrite fixed_after_succ. apply closure_step_grows. Qed.

Lemma fixed_after_initial (k : nat) (F : FixedDofSet) : F ⊆ after k F.
Proof.
induction k as [|k IH]; first done.
etrans; [exact IH | apply fixed_after_grows].
Qed.

Lemma break_iff_closed (F : FixedDofSet) :
gen_implied (sweep gs nodes eps dummy_eps_map F eps_tol) ∖ F = ∅ <-> is_closed F.
Proof.
unfold closed. split.
- intros He k Hk. destruct (decide (k ∈ F)) as [|Hn]; first done.
exfalso. apply (not_elem_of_empty (C:=FixedDofSet) k).
rewrite <- He. by apply elem_of_difference.
- intros Hs. apply set_eq. intros k.
rewrite elem_of_difference, elem_of_empty. split; [|done].
intros [Hk Hn]. apply Hn, Hs, Hk.
Qed.

(** The loop stops at the start of some round [k <= fuel], on a closed
set or with the limit warning. *)
Lemma closure_loop_rounds (fuel : nat) (F : FixedDofSet) (ws : list string) :
exists k, (k <= fuel)%nat
/\ fst (loop fuel F ws) = after k F
/\ (is_closed (after k F) \/ In limit_warning (snd (loop fuel F ws))).
Proof.
revert F ws. induction fuel as [|fuel IH]; intros F ws.
- exists 0%nat. split; first lia. split; first done.
right. simpl. apply in_or_app. right. by left.
- simpl. case_bool_decide as Hb.
+ exists 0%nat. split; first lia. split; first done.
left. by apply break_iff_closed.
+ destruct (IH (F ∪ (gen_implied (sweep gs nodes eps dummy_eps_map F eps_tol) ∖ F))
 (ws ++ gen_warnings (sweep gs nodes eps dummy_eps_map F eps_tol)))
as (k & Hk & Hfst & Hor).
exists (S k). split; first lia. split; [exact Hfst | exact Hor].
Qed.

Lemma closure_loop_closed (fuel : nat) (F : FixedDofSet) (ws : list string) :
is_closed F -> fst (loop (S fuel) F ws) = F.
Proof.
intros Hc. simpl. apply break_iff_closed in Hc.
by rewrite bool_decide_eq_true_2.
Qed.
End Closure.

Lemma sorted_set_In (l : list string) (s : string) : In s (sorted_set l) <-> In s l.
Proof.
  unfold sorted_set. rewrite <- !list_elem_of_In.
  rewrite (merge_sort_Permutation str_le (remove_dups l)).
  apply elem_of_remove_dups.
Qed.

Lemma closure_fixed_eq (face_pairings : FacePairings) (edge_pairings : EdgePairings)
    (vertex_pairings : list Pairing) (nodes : Nodes) (eps : Strain)
    (dummy_eps_map : DummyEpsMap) (F : FixedDofSet) (eps_tol : float) :
  fst (fst (closure_generate_all_mpcs face_pairings edge_pairings vertex_pairings
              nodes eps dummy_eps_map F eps_tol))
  = fst (closure_loop 50 (groups face_pairings edge_pairings vertex_pairings)
           nodes eps dummy_eps_map eps_tol F []).
Proof.
  unfold closure_generate_all_mpcs.
  generalize 50%nat. intros fuel.
  destruct (closure_loop fuel _ nodes eps dummy_eps_map eps_tol F []).
  reflexivity.
Qed.

Lemma closure_limit_warning (face_pairings : FacePairings)
    (edge_pairings : EdgePairings) (vertex_pairings : list Pairing)
    (nodes : Nodes) (eps : Strain) (dummy_eps_map : DummyEpsMap)
    (F : FixedDofSet) (eps_tol : float) :
  In limit_warning
    (snd (closure_loop 50 (groups face_pairings edge_pairings vertex_pairings)
            nodes eps dummy_eps_map eps_tol F [])) ->
  In limit_warning
    (snd (closure_generate_all_mpcs face_pairings edge_pairings vertex_pairings
            nodes eps dummy_eps_map F eps_tol)).
Proof.
  unfold closure_generate_all_mpcs.
  generalize 50%nat. intros fuel.
  destruct (closure_loop fuel _ nodes eps dummy_eps_map eps_tol F []) as [R ws'].
  cbn [fst snd]. intros Hlim.
  apply sorted_set_In, in_or_app. by left.
Qed.

(** C2: the closure only grows the set of fixed dofs, and is idempotent.
    For every input of the closure: the set at the start of a round of the
    loop is included in the set at the start of the next round; the loop
    returns the set at the start of one of its rounds, which includes the
    initial set; adding a pair that is already present changes nothing; and
    the closure started from a closed set returns that set. A closure that
    did not hit the iteration limit returns a closed set, so running it again
    from its result returns the same set. *)
Theorem C2_closure_monotone_idempotent (face_pairings : FacePairings)
    (edge_pairings : EdgePairings) (vertex_pairings : list Pairing)
    (nodes : Nodes) (eps : Strain) (dummy_eps_map : DummyEpsMap)
    (eps_tol : float) (fixed_initial : FixedDofSet) :
  let gs := groups face_pairings edge_pairings vertex_pairings in
  let run F := closure_generate_all_mpcs face_pairings edge_pairings
                 vertex_pairings nodes eps dummy_eps_map F eps_tol in
  let fixed_of (r : FixedDofSet * list string * list string) := fst (fst r) in
  let warnings_of (r : FixedDofSet * list string * list string) := snd r in
  (forall k, fixed_after k gs nodes eps dummy_eps_map eps_tol fixed_initial
             ⊆ fixed_after (S k) gs nodes eps dummy_eps_map eps_tol fixed_initial)
  /\ (exists k, (k <= 50)%nat
        /\ fixed_of (run fixed_initial)
           = fixed_after k gs nodes eps dummy_eps_map eps_tol fixed_initial)
  /\ fixed_initial ⊆ fixed_of (run fixed_initial)
  /\ (forall (F : FixedDofSet) (key : Z * Dof), key ∈ F -> F ∪ {[ key ]} = F)
  /\ (closed gs nodes eps dummy_eps_map eps_tol fixed_initial ->
        fixed_of (run fixed_initial) = fixed_initial)
  /\ (~ In limit_warning (warnings_of (run fixed_initial)) ->
        closed gs nodes eps dummy_eps_map eps_tol (fixed_of (run fixed_initial))
        /\ fixed_of (run (fixed_of (run fixed_initial)))
           = fixed_of (run fixed_initial)).
Proof.
  intros gs run fixed_of warnings_of.
  assert (Hclosed : forall F, closed gs nodes eps dummy_eps_map eps_tol F ->
    fixed_of (run F) = F).
  { intros F HF. unfold fixed_of, run. rewrite closure_fixed_eq.
    apply (closure_loop_closed _ _ _ _ _ 49), HF. }
  destruct (closure_loop_rounds gs nodes eps dummy_eps_map eps_tol 50 fixed_initial [])
    as (k & Hk & Hfst & Hor).
  assert (Hres : fixed_of (run fixed_initial)
                 = fixed_after k gs nodes eps dummy_eps_map eps_tol fixed_initial).
  { unfold fixed_of, run. rewrite closure_fixed_eq. exact Hfst. }
  split; [|split; [|split; [|split; [|split]]]].
  - intros j. apply fixed_after_grows.
  - exists k. split; [exact Hk | exact Hres].
  - rewrite Hres. apply fixed_after_initial.
  - intros F key Hkey. apply set_eq. intros k'.
    rewrite elem_of_union, elem_of_singleton. split; [|by left].
    intros [H | ->]; done.
  - apply Hclosed.
  - intros Hno.
    assert (closed gs nodes eps dummy_eps_map eps_tol (fixed_of (run fixed_initial)))
      as Hc.
    { rewrite Hres. destruct Hor as [Hc | Hlim]; first exact Hc.
      exfalso. apply Hno. unfold warnings_of, run.
      apply closure_limit_warning, Hlim. }
    split; [exact Hc | apply Hclosed, Hc].
Qed.

(** ** The driver constraints *)

Lemma drv_get_app_None (drv : DriverMap) (key key' : Z * Dof) (val : float) :
  drv_get drv key = None ->
  drv_get (drv ++ [(key, val)]) key'
  = match drv_get drv key' with
    | Some o => Some o
    | None => if bool_decide (key = key') then Some val else None
    end.
Proof.
  unfold drv_get. intros Hnone.
  induction drv as [|[k0 v0] drv IH]; simpl in *.
  - by destruct (bool_decide (key = key')).
  - destruct (bool_decide (k0 = key)) eqn:E1; [done|].
    destruct (bool_decide (k0 = key')) eqn:E2; [done|]. by apply IH.
Qed.

Section Driver.
Variable eps : Strain.
Variable eps_tol : float.

Local Abbreviation lv := (live eps eps_tol).
Local Abbreviation fl := (first_live eps eps_tol).

Lemma first_live_cons (e : (Ix * Ix) * (Z * Z * Dof)) (items : DummyEpsMap)
(key : Z * Dof) :
fl (e :: items) key
= if lv e && bool_decide (entry_key e = key) then Some (entry_val eps e)
else fl items key.
Proof. unfold first_live. simpl. by destruct (lv e && _). Qed.

Lemma first_live_app (l1 l2 : DummyEpsMap) (key : Z * Dof) :
fl (l1 ++ l2) key
= match fl l1 key with Some o => Some o | None => fl l2 key end.
Proof.
induction l1 as [|e l1 IH]; first done.
change ((e :: l1) ++ l2) with (e :: (l1 ++ l2)).
rewrite !first_live_cons. by destruct (lv e && _).
Qed.

(** One step of the loop, on an entry [e]. *)
Lemma driver_loop_cons (e : (Ix * Ix) * (Z * Z * Dof)) (rest : DummyEpsMap)
(drv : DriverMap) :
driver_loop eps eps_tol (e :: rest) drv
= if lv e then
match drv_get drv (entry_key e) with
| Some old =>
if is_close old (entry_val eps e) tol12
then driver_loop eps eps_tol rest drv
else inl (DriverConflict (fst (entry_key e)) (snd (entry_key e)) old
(entry_val eps e) (fst (fst e)) (snd (fst e)))
| None => driver_loop eps eps_tol rest (drv ++ [(entry_key e, entry_val eps e)])
end
else driver_loop eps eps_tol rest drv.
Proof.
destruct e as [[i j] [[dn dr] d]]. unfold live, entry_key, entry_val. simpl.
by destruct (PrimFloat.ltb _ _).
Qed.

(** The dictionary returned holds, for each key, what it held at the
start, else the value of the first entry that counts. *)
Lemma driver_loop_ok (items : DummyEpsMap) (drv drv' : DriverMap) :
driver_loop eps eps_tol items drv = inr drv' ->
forall key,
drv_get drv' key
= match drv_get drv key with Some o => Some o | None => fl items key end.
Proof.
revert drv. induction items as [|e items IH]; intros drv Hloop key.
- simpl in Hloop. injection Hloop as <-. unfold first_live. simpl.
by destruct (drv_get drv key).
- rewrite driver_loop_cons in Hloop. rewrite first_live_cons.
destruct (lv e) eqn:Hlv; simpl.
+ destruct (drv_get drv (entry_key e)) as [old|] eqn:Hget.
* destruct (is_close old (entry_val eps e) tol12); [|done].
rewrite (IH _ Hloop key). case_bool_decide as Hk; [|done].
subst key. by rewrite Hget.
* rewrite (IH _ Hloop key), (drv_get_app_None _ _ _ _ Hget).
destruct (drv_get drv key) as [o|] eqn:Hk; first done.
by destruct (bool_decide (entry_key e = key)).
+ by rewrite (IH _ Hloop key).
Qed.

(** The loop raises exactly when some entry that counts meets, under its
key, a value that is not within the tolerance of its own: a value held
at the start, or the value of the first earlier entry that counts. *)
Lemma driver_loop_raises (items : DummyEpsMap) (drv : DriverMap) :
(exists err, driver_loop eps eps_tol items drv = inl err)
<-> exists l1 e l2 old,
items = l1 ++ e :: l2
/\ lv e = true
/\ match drv_get drv (entry_key e) with
 | Some o => Some o
 | None => fl l1 (entry_key e)
 end = Some old
/\ is_close old (entry_val eps e) tol12 = false.
Proof.
revert drv. induction items as [|e items IH]; intros drv.
- simpl. split; [by intros [? ?] | intros (l1 & ? & ? & ? & H & _)].
by destruct l1.
- rewrite driver_loop_cons.
destruct (lv e) eqn:Hlv.
+ destruct (drv_get drv (entry_key e)) as [old|] eqn:Hget.
* destruct (is_close old (entry_val eps e) tol12) eqn:Hc.
-- rewrite IH. split.
 ++ intros (l1 & e' & l2 & o & -> & Hl & Hm & Hcl).
exists (e :: l1), e', l2, o. repeat split; try done.
destruct (drv_get drv (entry_key e')) eqn:Hg'; first done.
rewrite first_live_cons. rewrite Hlv. simpl.
case_bool_decide as Hk; [|done]. congruence.
 ++ intros (l1 & e' & l2 & o & Heq & Hl & Hm & Hcl).
destruct l1 as [|e0 l1]; simpl in Heq.
** injection Heq as -> ->. rewrite Hget in Hm. congruence.
** injection Heq as -> ->.
 exists l1, e', l2, o. repeat split; try done.
 destruct (drv_get drv (entry_key e')) eqn:Hg'; first done.
 rewrite first_live_cons, Hlv in Hm. simpl in Hm.
 case_bool_decide as Hk; [congruence | done].
-- split; [intros _ | by eauto].
 exists [], e, items, old. by rewrite Hget.
* rewrite IH. split.
-- intros (l1 & e' & l2 & o & -> & Hl & Hm & Hcl).
 exists (e :: l1), e', l2, o. repeat split; try done.
 rewrite (drv_get_app_None _ _ _ _ Hget) in Hm.
 rewrite first_live_cons, Hlv. simpl.
 destruct (drv_get drv (entry_key e')); first done.
 by case_bool_decide.
-- intros (l1 & e' & l2 & o & Heq & Hl & Hm & Hcl).
 destruct l1 as [|e0 l1]; simpl in Heq.
 ** injection Heq as -> ->. rewrite Hget in Hm. done.
 ** injection Heq as -> ->.
exists l1, e', l2, o. repeat split; try done.
rewrite (drv_get_app_None _ _ _ _ Hget).
rewrite first_live_cons, Hlv in Hm. simpl in Hm.
destruct (drv_get drv (entry_key e')); first done.
by case_bool_decide.
+ rewrite IH. split.
* intros (l1 & e' & l2 & o & -> & Hl & Hm & Hcl).
exists (e :: l1), e', l2, o. repeat split; try done.
rewrite first_live_cons, Hlv. done.
* intros (l1 & e' & l2 & o & Heq & Hl & Hm & Hcl).
destruct l1 as [|e0 l1]; simpl in Heq.
-- injection Heq as -> ->. congruence.
-- injection Heq as -> ->.
 exists l1, e', l2, o. repeat split; try done.
 rewrite first_live_cons, Hlv in Hm. done.
Qed.
End Driver.

Lemma first_live_Some (eps : Strain) (eps_tol : float) (items : DummyEpsMap)
    (key : Z * Dof) (val : float) :
  first_live eps eps_tol items key = Some val ->
  exists e, In e items /\ live eps eps_tol e = true
            /\ entry_key e = key /\ entry_val eps e = val.
Proof.
  unfold first_live. intros H.
  destruct (List.find _ items) as [e|] eqn:Hf; [|done].
  apply find_some in Hf as [Hin Hp]. apply andb_true_iff in Hp as [Hl Hk].
  apply bool_decide_eq_true in Hk. injection H as <-. by exists e.
Qed.

Lemma first_live_In (eps : Strain) (eps_tol : float) (items : DummyEpsMap)
    (e : (Ix * Ix) * (Z * Z * Dof)) :
  In e items -> live eps eps_tol e = true ->
  exists l1 e1 l2,
    items = l1 ++ e1 :: l2
    /\ first_live eps eps_tol items (entry_key e) = Some (entry_val eps e1)
    /\ (e1 = e \/ exists l2a l2b,
          l2 = l2a ++ e :: l2b
          /\ first_live eps eps_tol l1 (entry_key e) = None
          /\ first_live eps eps_tol (l1 ++ e1 :: l2a) (entry_key e)
             = Some (entry_val eps e1)).
Proof.
  induction items as [|e0 items IH]; first done.
  intros Hin Hl. rewrite first_live_cons.
  destruct (live eps eps_tol e0 && bool_decide (entry_key e0 = entry_key e)) eqn:Hp.
  - exists [], e0, items. split; first done. split; first done.
    destruct Hin as [-> | Hin]; first by left.
    apply in_split in Hin as (l2a & l2b & ->).
    right. exists l2a, l2b. split; first done. split; first done.
    change ([] ++ e0 :: l2a) with (e0 :: l2a). by rewrite first_live_cons, Hp.
  - destruct Hin as [-> | Hin].
    { rewrite Hl, bool_decide_eq_true_2 in Hp; done. }
    destruct (IH Hin Hl) as (l1 & e1 & l2 & -> & Hf & Hor).
    exists (e0 :: l1), e1, l2. split; first done. split; first done.
    destruct Hor as [-> | (l2a & l2b & -> & Hn & Hs)]; first by left.
    right. exists l2a, l2b. split; first done.
    change ((e0 :: l1) ++ e1 :: l2a) with (e0 :: (l1 ++ e1 :: l2a)).
    by rewrite !first_live_cons, Hp.
Qed.

(** C6, as the code has it: when the builder returns, the value under a
    driver key is the strain value of the first entry of the map, in its
    order, that counts (magnitude not below the threshold) and has that key
    -- so only entries that count are recorded, every entry that counts has
    a value recorded under its key, and that value is its own or a value
    within 1e-12 of its own, recorded by an earlier entry. The builder
    raises exactly when some entry that counts follows an entry that counts,
    with the same key, and the value recorded by the first of these is not
    within 1e-12 of its own; the error is the conflict error. *)
Theorem C6_driver_constraints (eps : Strain) (dummy_eps_map : DummyEpsMap)
    (eps_tol : float) :
  (forall drv, build_driver_constraints eps dummy_eps_map eps_tol = inr drv ->
     (forall key, drv_get drv key = first_live eps eps_tol dummy_eps_map key)
     /\ (forall key val, drv_get drv key = Some val ->
           exists e, In e dummy_eps_map /\ live eps eps_tol e = true
                     /\ entry_key e = key /\ entry_val eps e = val)
     /\ (forall e, In e dummy_eps_map -> live eps eps_tol e = true ->
           exists val, drv_get drv (entry_key e) = Some val
                       /\ (val = entry_val eps e
                           \/ is_close val (entry_val eps e) tol12 = true)))
  /\ ((exists err, build_driver_constraints eps dummy_eps_map eps_tol = inl err)
      <-> driver_clash eps eps_tol dummy_eps_map)
  /\ (forall err, build_driver_constraints eps dummy_eps_map eps_tol = inl err ->
        exists n d old val i j, err = DriverConflict n d old val i j).
Proof.
  assert (Hraise : (exists err, build_driver_constraints eps dummy_eps_map eps_tol
                                = inl err)
                   <-> driver_clash eps eps_tol dummy_eps_map).
  { unfold build_driver_constraints, driver_clash.
    rewrite driver_loop_raises. by split; intros (l1 & e & l2 & old & H);
      exists l1, e, l2, old. }
  split; [|split; [exact Hraise|]].
  - intros drv Hb.
    assert (Hget : forall key, drv_get drv key
                               = first_live eps eps_tol dummy_eps_map key).
    { intros key. by rewrite (driver_loop_ok _ _ _ _ _ Hb key). }
    split; [exact Hget | split].
    + intros key val Hv. rewrite Hget in Hv. by apply first_live_Some in Hv.
    + intros e Hin Hl.
      destruct (first_live_In eps eps_tol _ e Hin Hl)
        as (l1 & e1 & l2 & Heq & Hf & Hor).
      exists (entry_val eps e1). split; [by rewrite Hget|].
      destruct Hor as [-> | (l2a & l2b & -> & Hn & Hs)]; first by left.
      right. destruct (is_close _ _ _) eqn:Hc; first done. exfalso.
      assert (exists err, build_driver_constraints eps dummy_eps_map eps_tol
                          = inl err) as [err Herr]; [|congruence].
      apply Hraise. exists (l1 ++ e1 :: l2a), e, l2b, (entry_val eps e1).
      split; [by rewrite Heq, <- app_assoc | by split; [|split]].
  - clear Hraise.
    unfold build_driver_constraints. generalize (@nil ((Z * Dof) * float)).
    induction dummy_eps_map as [|e items IH]; intros drv err; first done.
    rewrite driver_loop_cons.
    destruct (live eps eps_tol e); [|by apply IH].
    destruct (drv_get drv (entry_key e)); [|by apply IH].
    destruct (is_close _ _ _); [by apply IH|].
    intros [= <-]. by repeat eexists.
Qed.


(** Two floats are different when [==] tells them apart and one of them
    is not a NaN. *)
Lemma float_neq_by_eqb (a b : float) :
  PrimFloat.eqb a a = true -> PrimFloat.eqb a b = false -> a <> b.
Proof. intros H1 H2 ->. congruence. Qed.

(** C6, as it is written, fails: with eps11 = 1 and eps22 = 1.0000000000005
    both mapped to the driver dof (100, u), the builder returns, and the
    value recorded under (100, u) is eps11, not eps22. *)
Lemma C6_counterexample :
  build_driver_constraints eps_close_pair map_shared_driver eps_tol_default
  = inr [((100, u), 1%float)]
  /\ ~ records_every_entry eps_close_pair eps_tol_default map_shared_driver.
Proof.
  split; first by vm_compute.
  intros H.
  specialize (H [((100, u), 1%float)] eq_refl ((I2, I2), (11, 100, u))).
  assert (Hv : Some 1%float = Some 1.0000000000005%float).
  { apply H; [right; by left | by vm_compute]. }
  apply (f_equal (fun o => match o with Some t => t | None => 0%float end)) in Hv.
  revert Hv. by apply float_neq_by_eqb; vm_compute.
Qed.

(** ** The output file *)

Lemma emits_w (s : string) : Emits (w_ s) [s].
Proof. by intros o. Qed.

Lemma emits_ret : Emits (out_ret tt) [].
Proof. intros o. unfold out_ret. by rewrite app_nil_r. Qed.

Lemma emits_seq (c1 c2 : Out unit) (l1 l2 : list string) :
  Emits c1 l1 -> Emits c2 l2 -> Emits (c1 ;;; c2) (l1 ++ l2).
Proof.
  intros H1 H2 o. unfold out_bind. rewrite H1, H2. by rewrite app_assoc.
Qed.

Lemma emits_for {A} (l : list A) (body : A -> Out unit) (f : A -> list string) :
  (forall a, In a l -> Emits (body a) (f a)) ->
  Emits (out_for l body) (flat_map f l).
Proof.
  induction l as [|a l IH]; intros H; simpl.
  - apply emits_ret.
  - apply emits_seq; [apply H; by left | apply IH; intros; apply H; by right].
Qed.

Lemma comments_w (s : string) : is_comment s = true -> Comments (w_ s).
Proof. intros H. exists [s]. split; [apply emits_w | by constructor]. Qed.

Lemma comments_ret : Comments (out_ret tt).
Proof. exists []. split; [apply emits_ret | constructor]. Qed.

Lemma comments_seq (c1 c2 : Out unit) :
  Comments c1 -> Comments c2 -> Comments (c1 ;;; c2).
Proof.
  intros (l1 & H1 & F1) (l2 & H2 & F2). exists (l1 ++ l2).
  split; [by apply emits_seq | by apply Forall_app].
Qed.

Lemma comments_for {A} (l : list A) (body : A -> Out unit) :
  (forall a, Comments (body a)) -> Comments (out_for l body).
Proof.
  intros H. induction l as [|a l IH]; simpl.
  - apply comments_ret.
  - by apply comments_seq.
Qed.

Lemma comments_if (b : bool) (c1 c2 : Out unit) :
  Comments c1 -> Comments c2 -> Comments (if b then c1 else c2).
Proof. by destruct b. Qed.

Ltac comments :=
  repeat first
    [ apply comments_seq
    | apply comments_if
    | apply comments_ret
    | apply comments_for; intros
    | apply comments_w; reflexivity ].

Lemma comments_symbolic_pairs (label : string) (pair_list : list Pairing)
    (nodes : Nodes) (required_kind : option Kind) :
  Comments (emit_symbolic_mpcs_for_pairs label pair_list nodes required_kind).
Proof. unfold emit_symbolic_mpcs_for_pairs. comments. Qed.

Lemma comments_header (in_name : string) (P : Parsed) (R : Prepared) :
  Comments (write_header in_name P R).
Proof.
  unfold write_header. destruct (bounds R) as [[[[[??]?]?]?]?].
  comments. destruct a as [[??] [[??]?]]. comments.
Qed.

Lemma comments_symbolic (R : Prepared) : Comments (write_symbolic R).
Proof.
  unfold write_symbolic.
  repeat first [ apply comments_symbolic_pairs
               | apply comments_seq | apply comments_w; reflexivity
               | apply comments_ret | apply comments_for; intros ].
Qed.

Lemma emits_mpcs (R : Prepared) : Emits (write_mpcs R) (multipoint_lines R).
Proof.
  unfold write_mpcs, multipoint_lines.
  repeat (apply (emits_seq _ _ [_]); [apply emits_w|]).
  apply emits_seq.
  - replace (mpc_lines R) with (flat_map (fun s => [s]) (mpc_lines R)) at 2.
    + apply emits_for. intros. apply emits_w.
    + induction (mpc_lines R) as [|a l IH]; simpl; congruence.
  - repeat (apply (emits_seq _ _ [_]); [apply emits_w|]). apply emits_w.
Qed.

Lemma flat_map_singleton {A B} (f : A -> B) (l : list A) :
  flat_map (fun a => [f a]) l = map f l.
Proof. induction l as [|a l IH]; simpl; congruence. Qed.

(** Without a key both zero and driven, the constraints block is written
    whole and nothing is raised. *)
Lemma emits_constraints_block (zero_constraints : FixedDofSet)
    (driver_constraints : DriverMap) :
  (forall k, k ∈ zero_constraints -> drv_get driver_constraints k = None) ->
  Emits (emit_constraints_block zero_constraints driver_constraints)
        (constraints_lines zero_constraints driver_constraints).
Proof.
  intros Hdisj. unfold emit_constraints_block, constraints_lines.
  change [ "!"; ?s ] with ([ "!" ] ++ [ s ])%list. rewrite <- app_assoc.
  apply emits_seq; [apply emits_w|]. apply emits_seq; [apply emits_w|].
  destruct (bool_decide (zero_constraints = ∅) && is_empty driver_constraints).
  - apply emits_w.
  - apply (emits_seq _ _ [_]); [apply emits_w|]. apply emits_seq.
    + rewrite <- flat_map_singleton. apply emits_for. intros. apply emits_w.
    + rewrite <- flat_map_singleton. apply emits_for. intros k Hk.
      rewrite bool_decide_eq_false_2; first apply emits_w.
      rewrite Hdisj; first by intros [? ?].
      apply list_elem_of_In in Hk. unfold sorted_keys in Hk.
      rewrite (merge_sort_Permutation key_le) in Hk.
      by apply elem_of_elements in Hk.
Qed.

(** ** Where the lines of the generator come from *)

Lemma resolve_terms_lines (nodes : Nodes) (one_term_tol : float)
    (terms : list Term) (s : string) :
  In s (gen_lines (resolve_terms nodes one_term_tol terms)) ->
  s = render_line terms /\ (2 <= List.length terms)%nat.
Proof.
  destruct terms as [|[[c n] d] [|t2 ts]]; simpl.
  - done.
  - by destruct (_ && _).
  - intros [<- | []]. split; [done | lia].
Qed.

Lemma gen_dof_lines (nodes : Nodes) (eps : Strain) (dummy_eps_map : DummyEpsMap)
    (fixed_dofs : FixedDofSet) (eps_tol one_term_tol : float) (p : Pairing)
    (i : Ix) (s : string) :
  In s (gen_lines (gen_dof nodes eps dummy_eps_map fixed_dofs eps_tol
                     one_term_tol p i)) ->
  s = render_line (fst (assemble_terms eps dummy_eps_map fixed_dofs eps_tol p i))
  /\ (2 <= List.length
            (fst (assemble_terms eps dummy_eps_map fixed_dofs eps_tol p i)))%nat.
Proof.
  unfold gen_dof. destruct (assemble_terms _ _ _ _ _ _) as [terms ws].
  rewrite gen_app_warnings_only. cbn [gen_lines fst]. apply resolve_terms_lines.
Qed.

Lemma generate_lines (pair_list : list Pairing) (nodes : Nodes) (eps : Strain)
    (dummy_eps_map : DummyEpsMap) (fixed_dofs : FixedDofSet)
    (required_kind : option Kind) (eps_tol one_term_tol : float) (s : string) :
  In s (gen_lines (generate_dummy_mpcs_for_pairs pair_list nodes eps
                     dummy_eps_map fixed_dofs required_kind eps_tol one_term_tol)) ->
  exists p i,
    In p pair_list
    /\ pair_passes nodes required_kind p = true
    /\ s = render_line (fst (assemble_terms eps dummy_eps_map fixed_dofs eps_tol p i))
    /\ (2 <= List.length
              (fst (assemble_terms eps dummy_eps_map fixed_dofs eps_tol p i)))%nat.
Proof.
  rewrite generate_rounds, gen_lines_concat.
  intros H. apply in_concat in H as (l & Hl & Hs).
  apply in_map_iff in Hl as (g & <- & Hg).
  apply in_flat_map in Hg as (p & Hp & Hg).
  apply filter_In in Hp as [Hp Hadm].
  apply in_map_iff in Hg as (i & <- & _).
  exists p, i. split; [done | split; [done | by apply gen_dof_lines in Hs]].
Qed.

Lemma sweep_lines (gs : list (list Pairing * option Kind)) (nodes : Nodes)
    (eps : Strain) (dummy_eps_map : DummyEpsMap) (fixed : FixedDofSet)
    (eps_tol : float) (s : string) :
  In s (gen_lines (sweep gs nodes eps dummy_eps_map fixed eps_tol)) ->
  exists g p i,
    In g gs /\ In p (fst g)
    /\ pair_passes nodes (snd g) p = true
    /\ s = render_line (fst (assemble_terms eps dummy_eps_map fixed eps_tol p i))
    /\ (2 <= List.length
              (fst (assemble_terms eps dummy_eps_map fixed eps_tol p i)))%nat.
Proof.
  unfold sweep. rewrite gen_lines_concat.
  intros H. apply in_concat in H as (l & Hl & Hs).
  apply in_map_iff in Hl as (r & <- & Hr).
  apply in_map_iff in Hr as (g & <- & Hg).
  apply generate_lines in Hs as (p & i & Hp & Ha & Hs & Hlen).
  by exists g, p, i.
Qed.

(** The lines returned by the closure are lines of the sweep under the
    set it returns. *)
Lemma closure_lines (face_pairings : FacePairings) (edge_pairings : EdgePairings)
    (vertex_pairings : list Pairing) (nodes : Nodes) (eps : Strain)
    (dummy_eps_map : DummyEpsMap) (F : FixedDofSet) (eps_tol : float) :
  let r := closure_generate_all_mpcs face_pairings edge_pairings vertex_pairings
             nodes eps dummy_eps_map F eps_tol in
  snd (fst r)
  = gen_lines (sweep (groups face_pairings edge_pairings vertex_pairings)
                 nodes eps dummy_eps_map (fst (fst r)) eps_tol).
Proof.
  unfold closure_generate_all_mpcs. generalize 50%nat. intros fuel.
  by destruct (closure_loop fuel _ nodes eps dummy_eps_map eps_tol F []).
Qed.

Lemma render_line_blank (terms : list Term) :
  exists rest, render_line terms = String " " rest.
Proof. unfold render_line. simpl. by eexists. Qed.

(** What [main] has computed when [prepare] returns. *)
Lemma prepare_inr (P : Parsed) (R : Prepared) :
  prepare P = inr R ->
  detect_bounds (nodes P) = inr (bounds R)
  /\ classified R = classify_boundary_nodes (bounds R) (nodes P) tol_rel_default
  /\ face_pairings R = build_face_pairings (classified R)
  /\ edge_pairings R = build_edge_pairings (classified R)
  /\ build_vertex_pairings_from_vertices (classified R) (vertex_ids P)
     = inr (vertex_pairings R)
  /\ closure_generate_all_mpcs (face_pairings R) (edge_pairings R)
       (vertex_pairings R) (classified R) (eps P) (dummy_eps_map P)
       (fixed_dofs P) eps_tol_default
     = (fixed_final R, mpc_lines R, warnings R)
  /\ build_driver_constraints (eps P) (dummy_eps_map P) eps_tol_default
     = inr (driver_constraints R)
  /\ conflict_check (driver_constraints R) (fixed_final R) = inr tt.
Proof.
  unfold prepare.
  destruct (detect_bounds (nodes P)) as [?|b]; first done.
  destruct (build_vertex_pairings_from_vertices _ _) as [?|vp] eqn:Hv; first done.
  destruct (closure_generate_all_mpcs _ _ _ _ _ _ _ _) as [[ff ls] ws] eqn:Hc.
  destruct (build_driver_constraints _ _ _) as [?|drv] eqn:Hd; first done.
  destruct (conflict_check drv ff) as [?|[]] eqn:Hk; first done.
  intros [= <-].
  cbn [bounds classified face_pairings edge_pairings vertex_pairings
       fixed_final mpc_lines warnings driver_constraints].
  repeat split; first [reflexivity | assumption].
Qed.

Lemma conflict_check_ok (driver_constraints : DriverMap) (fixed_final : FixedDofSet) :
  conflict_check driver_constraints fixed_final = inr tt ->
  forall k, k ∈ fixed_final -> drv_get driver_constraints k = None.
Proof.
  unfold conflict_check, drv_get. intros H k Hk.
  destruct (List.find _ driver_constraints) as [[key val]|] eqn:Hf; first done.
  destruct (List.find (fun e => bool_decide (fst e = k)) driver_constraints)
    as [e|] eqn:Hg; [|done].
  apply find_some in Hg as [Hin He]. apply bool_decide_eq_true in He.
  apply (find_none _ _ Hf) in Hin. apply bool_decide_eq_false in Hin.
  by subst k.
Qed.

Lemma conflict_check_raises (driver_constraints : DriverMap)
    (fixed_final : FixedDofSet) (k : Z * Dof) :
  k ∈ fixed_final -> is_Some (drv_get driver_constraints k) ->
  exists n d val,
    conflict_check driver_constraints fixed_final
    = inl (ZeroDriverConflict n d val)
    /\ (n, d) ∈ fixed_final /\ In ((n, d), val) driver_constraints.
Proof.
  intros Hk [val Hv]. unfold conflict_check.
  destruct (List.find _ driver_constraints) as [[[n d] val']|] eqn:Hf.
  - apply find_some in Hf as [Hin He]. apply bool_decide_eq_true in He.
    by exists n, d, val'.
  - exfalso. unfold drv_get in Hv.
    destruct (List.find (fun e => bool_decide (fst e = k)) driver_constraints)
      as [e|] eqn:Hg; [|done].
    apply find_some in Hg as [Hin He]. apply bool_decide_eq_true in He.
    apply (find_none _ _ Hf) in Hin. apply bool_decide_eq_false in Hin.
    by subst k.
Qed.

(** Proves a decidable goal on closed terms by evaluating its decision. *)
Ltac by_evaluation :=
  match goal with
  | |- ?G =>
      let Hd := fresh in
      assert (Hd : bool_decide G = true) by (vm_compute; reflexivity);
      exact (proj1 (bool_decide_eq_true G) Hd)
  end.

(** C5: when the bounds, the pairings and the driver constraints are
    computed without error and some (node, dof) key is both in the final set
    of zero constraints and in the driver constraints, [main] raises the
    conflict error for such a key, and the output file is left as it was:
    the check comes before the file is opened. *)
Theorem C5_conflict_before_output (in_name : string) (emit_symbolic : bool)
    (P : Parsed) (file : FileState) (b : Bounds) (vp : list Pairing)
    (drv : DriverMap) (key : Z * Dof) :
  detect_bounds (nodes P) = inr b ->
  let classified := classify_boundary_nodes b (nodes P) tol_rel_default in
  build_vertex_pairings_from_vertices classified (vertex_ids P) = inr vp ->
  build_driver_constraints (eps P) (dummy_eps_map P) eps_tol_default = inr drv ->
  let fixed_final :=
    fst (fst (closure_generate_all_mpcs (build_face_pairings classified)
                (build_edge_pairings classified) vp classified (eps P)
                (dummy_eps_map P) (fixed_dofs P) eps_tol_default)) in
  key ∈ fixed_final ->
  is_Some (drv_get drv key) ->
  exists n d val,
    main in_name emit_symbolic P file = (file, inl (ZeroDriverConflict n d val))
    /\ (n, d) ∈ fixed_final
    /\ In ((n, d), val) drv.
Proof.
  intros Hb classified Hvp Hdrv fixed_final Hkey Hsome.
  destruct (conflict_check_raises drv fixed_final key Hkey Hsome)
    as (n & d & val & Hcheck & Hin & Hd).
  exists n, d, val. split; [|by split].
  unfold main, prepare. rewrite Hb. fold classified. rewrite Hvp.
  subst fixed_final.
  destruct (closure_generate_all_mpcs _ _ _ _ _ _ _ _) as [[ff ls] ws].
  rewrite Hdrv. cbn [fst] in Hcheck. by rewrite Hcheck.
Qed.

Lemma C5_witness :
  exists n d val,
    main "rve_code_input.txt" false cube_conflict (Some ["old content"])
    = (Some ["old content"], inl (ZeroDriverConflict n d val)).
Proof.
  destruct (C5_conflict_before_output "rve_code_input.txt" false cube_conflict
              (Some ["old content"])
              (0, 1, 0, 1, 0, 1)%float
              (match build_vertex_pairings_from_vertices
                       (classify_boundary_nodes (0, 1, 0, 1, 0, 1)%float
                          cube_nodes tol_rel_default) cube_vertex_ids with
               | inr vp => vp | inl _ => [] end)
              [((200, u), 0.01%float); ((201, v), 0.002%float)]
              (200, u))
    as (n & d & val & H & _).
  - vm_compute. reflexivity.
  - vm_compute. reflexivity.
  - vm_compute. reflexivity.
  - by_evaluation.
  - vm_compute. eauto.
  - exists n, d, val. exact H.
Defined.

Lemma dof_leb_total (a b : Dof) : dof_leb a b = true \/ dof_leb b a = true.
Proof. destruct a, b; simpl; auto. Qed.

Lemma dof_leb_trans (a b c : Dof) :
  dof_leb a b = true -> dof_leb b c = true -> dof_leb a c = true.
Proof. by destruct a, b, c. Qed.

Lemma key_leb_spec (a b : Z * Dof) :
  key_leb a b = true
  <-> fst a < fst b \/ (fst a = fst b /\ dof_leb (snd a) (snd b) = true).
Proof.
  unfold key_leb. rewrite orb_true_iff, andb_true_iff, Z.ltb_lt, Z.eqb_eq. tauto.
Qed.

#[global] Instance key_le_total : Total key_le.
Proof.
  intros a b. unfold key_le. rewrite !key_leb_spec.
  destruct (Z.lt_trichotomy (fst a) (fst b)) as [H | [H | H]]; [by auto | | by auto].
  destruct (dof_leb_total (snd a) (snd b)); auto.
Qed.

#[global] Instance key_le_trans : Transitive key_le.
Proof.
  intros a b c. unfold key_le. rewrite !key_leb_spec.
  intros [H1 | [H1 E1]] [H2 | [H2 E2]]; [left; lia | left; lia | left; lia |].
  right. split; [lia | by eapply dof_leb_trans].
Qed.

#[global] Instance item_le_total {V} : Total (@item_le V).
Proof. intros a b. apply (total key_le). Qed.

#[global] Instance item_le_trans {V} : Transitive (@item_le V).
Proof. intros a b c. apply (transitivity (R:=key_le)). Qed.

Lemma comment_not_keyword (s : string) :
  is_comment s = true -> s <> "constraints" /\ s <> "multipoint".
Proof. by split; intros ->. Qed.

Lemma Forall_comment_not_In (ls : list string) :
  Forall (fun s => is_comment s = true) ls ->
  ~ In "constraints" ls /\ ~ In "multipoint" ls.
Proof.
  intros H. rewrite Forall_forall in H.
  split; intros Hin; apply list_elem_of_In, H, comment_not_keyword in Hin; tauto.
Qed.

(** Every line of the multipoint section of a run is a comment, the
    keyword, or an equation, which starts with a blank. *)
Lemma mpc_lines_blank (P : Parsed) (R : Prepared) (s : string) :
  prepare P = inr R -> In s (mpc_lines R) -> exists rest, s = String " " rest.
Proof.
  intros HR Hs.
  destruct (prepare_inr P R HR) as (_ & _ & _ & _ & _ & Hc & _).
  pose proof (closure_lines (face_pairings R) (edge_pairings R)
                (vertex_pairings R) (classified R) (eps P) (dummy_eps_map P)
                (fixed_dofs P) eps_tol_default) as Hl.
  cbv zeta in Hl. rewrite Hc in Hl. cbn [fst snd] in Hl. rewrite Hl in Hs.
  apply sweep_lines in Hs as (g & p & i & _ & _ & _ & -> & _).
  apply render_line_blank.
Qed.

Lemma constraints_keyword_iff (zero_constraints : FixedDofSet)
    (driver_constraints : DriverMap) :
  In "constraints" (constraints_lines zero_constraints driver_constraints)
  <-> ~ (zero_constraints = ∅ /\ driver_constraints = []).
Proof.
  unfold constraints_lines.
  destruct (bool_decide (zero_constraints = ∅) && is_empty driver_constraints)
    eqn:Hb.
  - apply andb_true_iff in Hb as [Hz Hd]. apply bool_decide_eq_true in Hz.
    destruct driver_constraints; [|done].
    split; [|tauto]. simpl. intros [? | [? | [? | []]]]; done.
  - split; [|intros _; simpl; auto].
    intros _ [-> ->]. by rewrite bool_decide_eq_true_2 in Hb.
Qed.

Lemma constraints_lines_no_multipoint (zero_constraints : FixedDofSet)
    (driver_constraints : DriverMap) :
  ~ In "multipoint" (constraints_lines zero_constraints driver_constraints).
Proof.
  unfold constraints_lines. intros H.
  apply in_app_or in H as [H | H].
  { simpl in H. destruct H as [? | [? | []]]; done. }
  destruct (_ && _).
  { simpl in H. destruct H as [? | []]; done. }
  destruct H as [? | H]; first done.
  apply in_app_or in H as [H | H]; apply in_map_iff in H as (e & He & _); done.
Qed.

(** C9: in the file a successful run writes, the constraints block comes
    before the multipoint block: the file is comment lines, then the
    constraints block, then the multipoint section, and the keyword
    "multipoint" is in the last part only. The keyword "constraints" is in
    the file exactly when there is a zero or a driver constraint; it is then
    followed by the driver constraints sorted by (node, dof), each as
    "node dof value", and after them by the zero constraints sorted by
    (node, dof), each as "node dof 0.0". *)
Theorem C9_constraints_before_multipoint (in_name : string) (emit_symbolic : bool)
    (P : Parsed) (file : FileState) (R : Prepared) :
  prepare P = inr R ->
  let zero := fixed_final R in
  let drv := driver_constraints R in
  exists pre,
    main in_name emit_symbolic P file
    = (Some (pre ++ constraints_lines zero drv ++ multipoint_lines R), inr tt)
    /\ Forall (fun s => is_comment s = true) pre
    /\ ~ In "multipoint" (pre ++ constraints_lines zero drv)
    /\ In "multipoint" (multipoint_lines R)
    /\ (In "constraints" (pre ++ constraints_lines zero drv ++ multipoint_lines R)
        <-> ~ (zero = ∅ /\ drv = []))
    /\ (~ (zero = ∅ /\ drv = []) ->
        constraints_lines zero drv
        = [ "!"; "! --- ABSOLUTE CONSTRAINTS (must appear before 'multipoint') ---";
            "constraints" ]
          ++ map driver_line (sorted_items drv)
          ++ map zero_line (sorted_keys zero))
    /\ (StronglySorted item_le (sorted_items drv) /\ sorted_items drv ≡ₚ drv)
    /\ (StronglySorted key_le (sorted_keys zero)
        /\ forall k, In k (sorted_keys zero) <-> k ∈ zero)
    /\ (forall n d val,
          driver_line ((n, d), val)
          = "  " +:+ pretty n +:+ " " +:+ dof_str d +:+ " " +:+ float_to_str val)
    /\ (forall n d,
          zero_line (n, d) = "  " +:+ pretty n +:+ " " +:+ dof_str d +:+ " 0.0").
Proof.
  intros HR zero drv.
  destruct (prepare_inr P R HR) as (_ & _ & _ & _ & _ & _ & _ & Hcheck).
  assert (Hpre : Comments (write_header in_name P R ;;;
                           (if emit_symbolic then write_symbolic R else out_ret tt))).
  { apply comments_seq; [apply comments_header|].
    apply comments_if; [apply comments_symbolic | apply comments_ret]. }
  destruct Hpre as (pre & Hpre & Hcom).
  pose proof (Forall_comment_not_In pre Hcom) as [Hnc Hnm].
  exists pre.
  split; [|split; [exact Hcom|split; [|split; [|split; [|split; [|split; [|split; [|split]]]]]]]].
  - unfold main. rewrite HR. unfold write_output.
    assert (He : Emits
      (write_header in_name P R ;;;
       (if emit_symbolic then write_symbolic R else out_ret tt) ;;;
       emit_constraints_block (fixed_final R) (driver_constraints R) ;;;
       write_mpcs R)
      (pre ++ constraints_lines zero drv ++ multipoint_lines R)).
    { intros o. unfold out_bind at 1.
      destruct (write_header in_name P R o) as [o1 [e1|[]]] eqn:H1.
      - specialize (Hpre o). unfold out_bind in Hpre. rewrite H1 in Hpre. done.
      - unfold out_bind at 1.
        specialize (Hpre o). unfold out_bind in Hpre. rewrite H1 in Hpre.
        rewrite Hpre.
        rewrite (emits_seq _ _ _ _
                   (emits_constraints_block _ _ (conflict_check_ok _ _ Hcheck))
                   (emits_mpcs R)).
        by rewrite <- app_assoc. }
    by rewrite (He []).
  - intros H. apply in_app_or in H as [H | H]; [done|].
    by apply constraints_lines_no_multipoint in H.
  - unfold multipoint_lines. apply in_or_app. left. simpl. tauto.
  - rewrite <- constraints_keyword_iff. split; [|intros; apply in_or_app; right;
                                                  apply in_or_app; by left].
    intros H. apply in_app_or in H as [H | H]; [done|].
    apply in_app_or in H as [H | H]; [done|]. exfalso.
    unfold multipoint_lines in H.
    apply in_app_or in H as [H | H].
    { simpl in H. repeat destruct H as [H | H]; done. }
    apply in_app_or in H as [H | H].
    { by apply (mpc_lines_blank P R _ HR) in H as (rest & ?). }
    simpl in H. repeat destruct H as [H | H]; done.
  - intros Hne. unfold constraints_lines.
    destruct (bool_decide (zero = ∅) && is_empty drv) eqn:Hb; [|done].
    exfalso. apply Hne. apply andb_true_iff in Hb as [Hz Hd].
    apply bool_decide_eq_true in Hz. by destruct drv.
  - split; [apply (StronglySorted_merge_sort _) | apply merge_sort_Permutation].
  - split; [apply (StronglySorted_merge_sort _)|].
    intros k. unfold sorted_keys. rewrite <- list_elem_of_In.
    rewrite (merge_sort_Permutation key_le). apply elem_of_elements.
  - done.
  - done.
Qed.

Lemma C9_witness :
  exists out,
    main "rve_code_input.txt" false cube_driven None = (Some out, inr tt)
    /\ In "constraints" out.
Proof.
  destruct (prepare cube_driven) as [e|R] eqn:HR.
  - exfalso. vm_compute in HR. discriminate HR.
  - destruct (C9_constraints_before_multipoint "rve_code_input.txt" false
                cube_driven None R HR)
      as (pre & Hmain & _ & _ & _ & Hkw & _).
    eexists. split; [exact Hmain|]. apply Hkw.
    intros [_ Hd].
    assert (Hlen : List.length (driver_constraints R) = 2%nat).
    { apply (f_equal (fun r => match r with
                               | inr R' => List.length (driver_constraints R')
                               | inl _ => 0%nat end)) in HR.
      rewrite <- HR. vm_compute. reflexivity. }
    by rewrite Hd in Hlen.
Defined.

(** ** The node block *)

Section ParseNodesFacts.
Variable py_int : string -> option Z.
Variable py_float : string -> option float.

Local Abbreviation node_lines := (parse_node_lines py_int py_float).
Local Abbreviation has_id := (has_id py_int).
Local Abbreviation node_line_ok := (node_line_ok py_int py_float).

(** The dictionary filled so far does not bear on what the loop does with
the lines left. *)
Lemma node_lines_acc (ls : list string) (e : Z) (nodes0 : Nodes) :
node_lines ls e nodes0
= match node_lines ls e [] with
| inl err => inl err
| inr new => inr (nodes0 ++ new)
end.
Proof.
revert e nodes0. induction ls as [|line rest IH]; intros e nodes0.
- simpl. by rewrite app_nil_r.
- simpl. destruct (data_tokens line) as [|t0 [|t1 [|t2 [|t3 [|]]]]]; try done.
destruct (py_int t0) as [n|]; [|done].
destruct (bool_decide (n ≠ e)); first done.
destruct (py_float t1) as [cx|]; [|done].
destruct (py_float t2) as [cy|]; [|done].
destruct (py_float t3) as [cz|]; [|done].
rewrite (IH _ (nodes0 ++ _)), (IH _ [_]).
destruct (node_lines rest (e + 1) []); [done|].
by rewrite <- app_assoc.
Qed.

(** One accepted line. *)
Lemma node_lines_cons_inr (line : string) (rest : list string) (e : Z)
(nodes0 nodes' : Nodes) :
node_lines (line :: rest) e nodes0 = inr nodes' ->
exists nd, nid nd = e /\ node_line_ok line e
 /\ node_lines rest (e + 1) (nodes0 ++ [nd]) = inr nodes'.
Proof.
simpl. destruct (data_tokens line) as [|t0 [|t1 [|t2 [|t3 [|]]]]] eqn:Ht; try done.
destruct (py_int t0) as [n|] eqn:Hi; [|done].
case_bool_decide as Hn; first done.
assert (n = e) as -> by (destruct (decide (n = e)); done).
destruct (py_float t1) as [cx|] eqn:H1; [|done].
destruct (py_float t2) as [cy|] eqn:H2; [|done].
destruct (py_float t3) as [cz|] eqn:H3; [|done].
intros H. exists (mkNode e cx cy cz ∅ unset).
split; [done | split; [|done]]. by exists t0, t1, t2, t3, cx, cy, cz.
Qed.

Lemma node_lines_ids (ls : list string) (e : Z) (nodes0 nodes' : Nodes) :
node_lines ls e nodes0 = inr nodes' ->
exists new, nodes' = nodes0 ++ new
/\ map nid new = seqZ e (Z.of_nat (List.length ls)).
Proof.
revert e nodes0. induction ls as [|line rest IH]; intros e nodes0 H.
- injection H as <-. exists []. by rewrite app_nil_r.
- apply node_lines_cons_inr in H as (nd & Hnd & _ & H).
apply IH in H as (new & -> & Hnew).
exists (nd :: new). split; first by rewrite <- app_assoc.
cbn [List.length map]. rewrite Nat2Z.inj_succ, seqZ_cons by lia.
rewrite Hnd. f_equal. rewrite Hnew. f_equal; lia.
Qed.

Lemma node_lines_accepts (ls : list string) (e : Z) (nodes0 : Nodes) :
(forall k line, ls !! k = Some line -> node_line_ok line (e + Z.of_nat k)) ->
exists nodes', node_lines ls e nodes0 = inr nodes'.
Proof.
revert e nodes0. induction ls as [|line rest IH]; intros e nodes0 H.
- by eexists.
- destruct (H 0%nat line eq_refl)
as (t0 & t1 & t2 & t3 & cx & cy & cz & Ht & Hi & H1 & H2 & H3).
simpl. rewrite Ht, Hi. rewrite Z.add_0_r.
rewrite bool_decide_eq_false_2 by (intros Hne; by apply Hne).
rewrite H1, H2, H3. apply IH. intros k l Hk.
replace (e + 1 + Z.of_nat k) with (e + Z.of_nat (S k)) by lia.
by apply H.
Qed.

(** A line whose id is not its position makes the loop raise. *)
Lemma node_lines_rejects (ls : list string) (e : Z) (nodes0 : Nodes) (k : nat)
(line : string) (n : Z) :
ls !! k = Some line -> has_id line n -> n <> e + Z.of_nat k ->
exists err, node_lines ls e nodes0 = inl err.
Proof.
revert e nodes0 k. induction ls as [|l0 rest IH]; intros e nodes0 k Hk Hid Hne.
- done.
- destruct (node_lines (l0 :: rest) e nodes0) as [err|nodes'] eqn:Hr;
first by eexists.
exfalso. apply node_lines_cons_inr in Hr as (nd & _ & Hok & Hr).
destruct k as [|k]; simpl in Hk.
+ injection Hk as ->.
destruct Hid as (t0 & ts & Ht & Hi).
destruct Hok as (t0' & ? & ? & ? & ? & ? & ? & Ht' & Hi' & _).
rewrite Ht in Ht'. injection Ht' as <- _. rewrite Hi in Hi'.
injection Hi' as ->. apply Hne. lia.
+ destruct (IH (e + 1) (nodes0 ++ [nd]) k Hk Hid) as [err Herr]; first lia.
congruence.
Qed.

(** When the lines before it are accepted, the error raised at such a
line carries the line. *)
Lemma node_lines_error_line (ls : list string) (e : Z) (nodes0 : Nodes) (k : nat)
(line : string) (n : Z) :
ls !! k = Some line -> has_id line n -> n <> e + Z.of_nat k ->
(exists nodes1, node_lines (take k ls) e nodes0 = inr nodes1) ->
node_lines ls e nodes0 = inl (NotSequential (e + Z.of_nat k) n line)
\/ node_lines ls e nodes0 = inl (BadNodeLine line (data_tokens line)).
Proof.
revert e nodes0 k. induction ls as [|l0 rest IH];
intros e nodes0 k Hk Hid Hne [nodes1 Hpre]; first done.
destruct k as [|k]; simpl in Hk.
- injection Hk as ->. destruct Hid as (t0 & ts & Ht & Hi).
simpl. rewrite Ht. rewrite Z.add_0_r in *.
destruct ts as [|t1 [|t2 [|t3 [|]]]]; try (right; by rewrite <- Ht).
rewrite Hi, bool_decide_eq_true_2 by done. by left.
- change (take (S k) (l0 :: rest)) with (l0 :: take k rest) in Hpre.
apply node_lines_cons_inr in Hpre
as (nd & Hnd & (t0 & t1 & t2 & t3 & cx & cy & cz & Ht & Hi & H1 & H2 & H3) & Hpre).
simpl. rewrite Ht, Hi.
rewrite bool_decide_eq_false_2 by (intros Hx; by apply Hx).
rewrite H1, H2, H3.
replace (e + Z.of_nat (S k)) with (e + 1 + Z.of_nat k) by lia.
apply IH; [done | done | lia |].
rewrite node_lines_acc in Hpre. rewrite node_lines_acc.
destruct (node_lines (take k rest) (e + 1) []); [done | by eexists].
Qed.
End ParseNodesFacts.

(** C7: the node block is accepted only with the ids 1..n_nodes in file
    order. When the block is accepted the ids of the nodes, in order, are
    1, 2, ..., n_nodes. Whenever the k-th node line carries an id other than
    k, parsing raises an error; when the block is complete and the lines
    before the k-th are accepted, that error carries the k-th line (it is the
    numbering error with the expected id k and the id found, or the error for
    a line that has not four fields). And a block whose k-th line, for every
    k, is a node line with the id k is accepted. *)
Theorem C7_node_ids_sequential (py_int : string -> option Z)
    (py_float : string -> option float) (lines : list string) (idx : nat)
    (n_nodes : Z) :
  (forall nodes, parse_nodes py_int py_float lines idx n_nodes = inr nodes ->
     map nid nodes = seqZ 1 n_nodes)
  /\ (forall k line id,
        1 <= k <= n_nodes ->
        node_line_at lines idx k = Some line ->
        has_id py_int line id -> id <> k ->
        exists err, parse_nodes py_int py_float lines idx n_nodes = inl err)
  /\ (forall k line id,
        1 <= k <= n_nodes ->
        Z.of_nat idx + n_nodes <= Z.of_nat (List.length lines) ->
        node_line_at lines idx k = Some line ->
        has_id py_int line id -> id <> k ->
        (exists nodes1, parse_nodes py_int py_float lines idx (k - 1) = inr nodes1) ->
        parse_nodes py_int py_float lines idx n_nodes
          = inl (NotSequential k id line)
        \/ parse_nodes py_int py_float lines idx n_nodes
          = inl (BadNodeLine line (data_tokens line)))
  /\ ((idx <= List.length lines)%nat ->
      (forall k, 1 <= k <= n_nodes ->
         exists line, node_line_at lines idx k = Some line
                      /\ node_line_ok py_int py_float line k) ->
      exists nodes, parse_nodes py_int py_float lines idx n_nodes = inr nodes).
Proof.
  assert (Hat : forall k line, 1 <= k <= n_nodes ->
            node_line_at lines idx k = Some line ->
            take (Z.to_nat n_nodes) (drop idx lines) !! Z.to_nat (k - 1) = Some line).
  { intros k line Hk Hl. unfold node_line_at in Hl.
    rewrite (proj2 (Z.leb_le 1 k)) in Hl by lia.
    rewrite lookup_take_lt by lia. by rewrite lookup_drop. }
  unfold parse_nodes.
  replace (Z.of_nat idx + n_nodes - Z.of_nat idx) with n_nodes by lia.
  split; [|split; [|split]].
  - intros nodes. destruct (_ <? _) eqn:Hlen; first done.
    apply Z.ltb_ge in Hlen. intros H.
    apply node_lines_ids in H as (new & -> & Hnew). simpl. rewrite Hnew.
    rewrite length_take, length_drop.
    destruct (Z.le_gt_cases n_nodes 0); [by rewrite !seqZ_nil by lia|].
    f_equal. lia.
  - intros k line id Hk Hl Hid Hne.
    destruct (_ <? _); first by eexists.
    apply (node_lines_rejects _ _ _ 1 [] (Z.to_nat (k - 1)) line id);
      [by apply Hat | done | lia].
  - intros k line id Hk Hlen Hl Hid Hne [nodes1 Hpre].
    rewrite (proj2 (Z.ltb_ge _ _)) by lia.
    replace (Z.of_nat idx + (k - 1) - Z.of_nat idx) with (k - 1) in Hpre by lia.
    rewrite (proj2 (Z.ltb_ge _ _)) in Hpre by lia.
    pose proof (node_lines_error_line py_int py_float
                  (take (Z.to_nat n_nodes) (drop idx lines)) 1 []
                  (Z.to_nat (k - 1)) line id (Hat k line Hk Hl) Hid) as He.
    replace (1 + Z.of_nat (Z.to_nat (k - 1))) with k in He by lia.
    apply He; first done.
    exists nodes1. rewrite take_take.
    replace (Nat.min (Z.to_nat (k - 1)) (Z.to_nat n_nodes))
      with (Z.to_nat (k - 1)) by lia.
    exact Hpre.
  - intros Hidx Hall.
    assert (Hlen : (Z.of_nat (List.length lines) <? Z.of_nat idx + n_nodes) = false).
    { apply Z.ltb_ge. destruct (Z.le_gt_cases n_nodes 0) as [|Hpos]; first lia.
      destruct (Hall n_nodes) as (line & Hl & _); first lia.
      unfold node_line_at in Hl. rewrite (proj2 (Z.leb_le 1 n_nodes)) in Hl by lia.
      apply lookup_lt_Some in Hl. lia. }
    rewrite Hlen. apply node_lines_accepts. intros j line Hj.
    pose proof (lookup_lt_Some _ _ _ Hj) as Hlt. rewrite length_take in Hlt.
    destruct (Hall (1 + Z.of_nat j)) as (line' & Hl' & Hok); first lia.
    apply Hat in Hl'; [|lia].
    replace (Z.to_nat (1 + Z.of_nat j - 1)) with j in Hl' by lia.
    congruence.
Qed.

(** ** The classifier *)

Lemma elem_of_add_if (b : bool) (g f : Face) (s : gset Face) :
  f ∈ add_if b g s <-> f ∈ s \/ (b = true /\ f = g).
Proof.
  unfold add_if. destruct b.
  - rewrite elem_of_union, elem_of_singleton. intuition.
  - intuition. discriminate.
Qed.

Lemma node_faces_spec (bounds : Bounds) (tol : float) (nd : Node) (f : Face) :
  f ∈ node_faces bounds tol nd
  <-> on_plane (_axis_coord nd (face_axis f)) (plane_of bounds f) tol = true.
Proof.
  destruct bounds as [[[[[xmin xmax] ymin] ymax] zmin] zmax].
  unfold node_faces. rewrite !elem_of_add_if, elem_of_empty.
  destruct f; simpl; intuition congruence.
Qed.

(** ** The equations behind the lines *)

Lemma gen_dof_lines_eq (nodes : Nodes) (eps : Strain) (dummy_eps_map : DummyEpsMap)
    (fixed_dofs : FixedDofSet) (eps_tol one_term_tol : float) (p : Pairing) (i : Ix) :
  gen_lines (gen_dof nodes eps dummy_eps_map fixed_dofs eps_tol one_term_tol p i)
  = map render_line
      (List.filter (fun ts => (2 <=? List.length ts)%nat)
         [fst (assemble_terms eps dummy_eps_map fixed_dofs eps_tol p i)]).
Proof.
  unfold gen_dof. destruct (assemble_terms _ _ _ _ _ _) as [terms ws].
  rewrite gen_app_warnings_only. cbn [gen_lines fst].
  destruct terms as [|[[c n] d] [|t2 ts]]; simpl; try done.
  by destruct (_ && _).
Qed.

Lemma generate_lines_eq (pair_list : list Pairing) (nodes : Nodes) (eps : Strain)
    (dummy_eps_map : DummyEpsMap) (fixed_dofs : FixedDofSet)
    (required_kind : option Kind) (eps_tol one_term_tol : float) :
  gen_lines (generate_dummy_mpcs_for_pairs pair_list nodes eps dummy_eps_map
               fixed_dofs required_kind eps_tol one_term_tol)
  = map render_line (gen_equations pair_list nodes eps dummy_eps_map fixed_dofs
                       required_kind eps_tol).
Proof.
  rewrite generate_rounds, gen_lines_concat. unfold gen_equations.
  induction (List.filter (pair_passes nodes required_kind) pair_list)
    as [|p pl IH]; first done.
  cbn [flat_map]. rewrite !map_app, concat_app, List.filter_app, map_app, IH.
  f_equal. cbn [map concat]. rewrite !gen_dof_lines_eq.
  generalize (fst (assemble_terms eps dummy_eps_map fixed_dofs eps_tol p I1)).
  generalize (fst (assemble_terms eps dummy_eps_map fixed_dofs eps_tol p I2)).
  generalize (fst (assemble_terms eps dummy_eps_map fixed_dofs eps_tol p I3)).
  intros t3 t2 t1. cbn [List.filter].
  destruct (2 <=? List.length t1)%nat, (2 <=? List.length t2)%nat,
    (2 <=? List.length t3)%nat; reflexivity.
Qed.

Lemma sweep_lines_eq (gs : list (list Pairing * option Kind)) (nodes : Nodes)
    (eps : Strain) (dummy_eps_map : DummyEpsMap) (fixed : FixedDofSet)
    (eps_tol : float) :
  gen_lines (sweep gs nodes eps dummy_eps_map fixed eps_tol)
  = map render_line (sweep_equations gs nodes eps dummy_eps_map fixed eps_tol).
Proof.
  unfold sweep, sweep_equations. rewrite gen_lines_concat.
  induction gs as [|g gs IH]; first done.
  cbn [map concat flat_map]. by rewrite map_app, IH, generate_lines_eq.
Qed.

Lemma run_lines_eq (P : Parsed) (R : Prepared) :
  prepare P = inr R -> mpc_lines R = map render_line (run_equations P R).
Proof.
  intros HR. destruct (prepare_inr P R HR) as (_ & _ & _ & _ & _ & Hc & _).
  pose proof (closure_lines (face_pairings R) (edge_pairings R)
                (vertex_pairings R) (classified R) (eps P) (dummy_eps_map P)
                (fixed_dofs P) eps_tol_default) as Hl.
  cbv zeta in Hl. rewrite Hc in Hl. cbn [fst snd] in Hl.
  rewrite Hl. apply sweep_lines_eq.
Qed.

Lemma physical_terms_nodes (fixed_dofs : FixedDofSet) (p : Pairing) (dof : Dof)
    (t : Term) :
  In t (physical_terms fixed_dofs p dof) ->
  t = (1%float, plus_node p, dof) \/ t = ((-1)%float, minus_node p, dof).
Proof.
  unfold physical_terms. intros H. apply in_app_or in H as [H | H].
  - destruct (bool_decide _); [done|]. destruct H as [<- | []]. by left.
  - destruct (bool_decide _); [done|]. destruct H as [<- | []]. by right.
Qed.

Lemma dummy_terms_nodes (row : Row) (dummy_eps_map : DummyEpsMap)
    (fixed_dofs : FixedDofSet) (eps_tol : float) (i : Ix)
    (deltas : list (Ix * float)) (t : Term) :
  In t (fst (dummy_terms row dummy_eps_map fixed_dofs eps_tol i deltas)) ->
  exists j dv drv,
    In (j, dv) deltas
    /\ dmap_get dummy_eps_map (i, j) = Some (snd (fst t), drv, snd t)
    /\ fst (fst t) = PrimFloat.opp dv.
Proof.
  induction deltas as [|[j dv] rest IH]; first done.
  simpl. destruct (dummy_terms _ _ _ _ _ rest) as [ts ws]. simpl in IH.
  assert (Hrest : In t ts -> exists j0 dv0 drv,
             In (j0, dv0) ((j, dv) :: rest)
             /\ dmap_get dummy_eps_map (i, j0) = Some (snd (fst t), drv, snd t)
             /\ fst (fst t) = PrimFloat.opp dv0).
  { intros H. destruct (IH H) as (j0 & dv0 & drv & Hin & Hm & Hc).
    exists j0, dv0, drv. split; [by right | done]. }
  destruct (_ || _); first done.
  destruct (dmap_get dummy_eps_map (i, j)) as [[[dn drv] ddof]|] eqn:Hm; [|done].
  destruct (bool_decide _); first done.
  intros [<- | H]; [|by apply Hrest].
  exists j, dv, drv. split; [by left | done].
Qed.

(** The terms of an equation are on the two nodes of its pairing, for the
    component of the equation, or on dummy nodes of the map. *)
Lemma assemble_terms_nodes (eps : Strain) (dummy_eps_map : DummyEpsMap)
    (fixed_dofs : FixedDofSet) (eps_tol : float) (p : Pairing) (i : Ix) (t : Term) :
  In t (fst (assemble_terms eps dummy_eps_map fixed_dofs eps_tol p i)) ->
  (t = (1%float, plus_node p, comp i) \/ t = ((-1)%float, minus_node p, comp i))
  \/ exists j drv, dmap_get dummy_eps_map (i, j) = Some (snd (fst t), drv, snd t).
Proof.
  unfold assemble_terms. destruct (delta p) as [[dx dy] dz].
  destruct (dummy_terms _ _ _ _ _ _) as [ds ws] eqn:Hd. simpl.
  intros H. apply in_app_or in H as [H | H].
  - left. by apply physical_terms_nodes in H.
  - right. replace ds with (fst (dummy_terms (eps_row eps i) dummy_eps_map
                                   fixed_dofs eps_tol i
                                   [(I1, dx); (I2, dy); (I3, dz)]))
      in H by (by rewrite Hd).
    apply dummy_terms_nodes in H as (j & dv & drv & _ & Hm & _). by exists j, drv.
Qed.

Lemma pair_passes_kind (nodes : Nodes) (k : Kind) (p : Pairing) :
  pair_passes nodes (Some k) p = true ->
  exists a b, nodes_get nodes (minus_node p) = Some a
              /\ nodes_get nodes (plus_node p) = Some b
              /\ kind a = k /\ kind b = k.
Proof.
  unfold pair_passes.
  destruct (nodes_get nodes (minus_node p)) as [a|]; [|done].
  destruct (nodes_get nodes (plus_node p)) as [b|]; [|done].
  intros H. apply andb_true_iff in H as [Ha Hb].
  apply bool_decide_eq_true in Ha, Hb. by exists a, b.
Qed.

Lemma gen_equations_In (pair_list : list Pairing) (nodes : Nodes) (eps : Strain)
    (dummy_eps_map : DummyEpsMap) (fixed_dofs : FixedDofSet)
    (required_kind : option Kind) (eps_tol : float) (ts : list Term) :
  In ts (gen_equations pair_list nodes eps dummy_eps_map fixed_dofs
           required_kind eps_tol) ->
  exists p i, In p pair_list
              /\ pair_passes nodes required_kind p = true
              /\ ts = fst (assemble_terms eps dummy_eps_map fixed_dofs eps_tol p i).
Proof.
  unfold gen_equations. intros H. apply filter_In in H as [H _].
  apply in_flat_map in H as (p & Hp & H). apply filter_In in Hp as [Hp Ha].
  apply in_map_iff in H as (i & <- & _). by exists p, i.
Qed.

Lemma groups_In (fp : FacePairings) (ep : EdgePairings) (vp : list Pairing)
    (g : list Pairing * option Kind) :
  In g (groups fp ep vp) ->
  snd g = Some face \/ snd g = Some edge \/ g = (vp, None).
Proof.
  unfold groups. intros H. apply in_app_or in H as [H | H].
  - apply in_map_iff in H as (d & <- & _). by left.
  - apply in_app_or in H as [H | H].
    + apply in_map_iff in H as (e & <- & _). right. by left.
    + destruct H as [<- | []]. right. by right.
Qed.

(** C8, as the code has it. The tolerance is [tol_rel] times the largest
    extent of the box, or [tol_rel] itself when that extent is not above
    zero; the classifier returns every node, with the same id, tagged with a
    face exactly when its coordinate is within the tolerance of that plane,
    and with the kind given by the number of tags: 0 interior, 1 face,
    2 edge, 3 vertex, more than 3 degenerate; it raises nothing. In a run,
    every equation written comes either from a face or an edge pairing whose
    two nodes both have the kind face, respectively edge -- so no degenerate
    node is paired in an equation of the face and edge groups -- or from one
    of the vertex pairings, whose nodes are the ones the caller named,
    whatever their kind. *)
Theorem C8_classifier (bounds : Bounds) (nodes : Nodes) (tol_rel : float) :
  let tol := classify_tol bounds tol_rel in
  let out := classify_boundary_nodes bounds nodes tol_rel in
  (PrimFloat.ltb 0 (box_extent bounds) = true ->
     tol = PrimFloat.mul tol_rel (box_extent bounds))
  /\ (PrimFloat.ltb 0 (box_extent bounds) = false -> tol = tol_rel)
  /\ map nid out = map nid nodes
  /\ Forall2 (fun nd0 nd =>
                nid nd = nid nd0 /\ x nd = x nd0 /\ y nd = y nd0 /\ z nd = z nd0
                /\ (forall f, f ∈ faces nd
                      <-> on_plane (_axis_coord nd0 (face_axis f))
                                   (plane_of bounds f) tol = true)
                /\ kind nd = kind_of_count (size (faces nd)))
             nodes out
  /\ (kind_of_count 0 = interior /\ kind_of_count 1 = face
      /\ kind_of_count 2 = edge /\ kind_of_count 3 = vertex
      /\ forall n, (3 < n)%nat -> kind_of_count n = degenerate)
  /\ (forall P R, prepare P = inr R ->
        mpc_lines R = map render_line (run_equations P R)
        /\ forall ts, In ts (run_equations P R) ->
             In ts (gen_equations (vertex_pairings R) (classified R) (eps P)
                      (dummy_eps_map P) (fixed_final R) None eps_tol_default)
             \/ exists k p i a b,
                  (k = face \/ k = edge)
                  /\ nodes_get (classified R) (minus_node p) = Some a
                  /\ nodes_get (classified R) (plus_node p) = Some b
                  /\ kind a = k /\ kind b = k
                  /\ ts = fst (assemble_terms (eps P) (dummy_eps_map P)
                                 (fixed_final R) eps_tol_default p i)
                  /\ forall t, In t ts ->
                       (t = (1%float, plus_node p, comp i)
                        \/ t = ((-1)%float, minus_node p, comp i))
                       \/ exists j drv,
                            dmap_get (dummy_eps_map P) (i, j)
                            = Some (snd (fst t), drv, snd t)).
Proof.
  intros tol out. subst tol out.
  split; [|split; [|split; [|split; [|split]]]].
  - destruct bounds as [[[[[xmin xmax] ymin] ymax] zmin] zmax].
    unfold classify_tol, box_extent. by intros ->.
  - destruct bounds as [[[[[xmin xmax] ymin] ymax] zmin] zmax].
    unfold classify_tol, box_extent. by intros ->.
  - unfold classify_boundary_nodes. rewrite map_map. by apply map_ext.
  - unfold classify_boundary_nodes.
    induction nodes as [|nd0 nodes IH]; simpl; constructor; [|exact IH].
    repeat split; try done; by apply node_faces_spec.
  - repeat split; try done. intros n Hn.
    do 4 (destruct n as [|n]; first lia). done.
  - intros P R HR. split; first by apply run_lines_eq.
    intros ts Hts. unfold run_equations, sweep_equations in Hts.
    apply in_flat_map in Hts as (g & Hg & Hts).
    apply groups_In in Hg as [Hk | [Hk | ->]]; [| |by left].
    all: right; rewrite Hk in Hts;
      apply gen_equations_In in Hts as (p & i & _ & Ha & ->);
      apply pair_passes_kind in Ha as (a & b & Hma & Hpb & Hka & Hkb).
    + exists face, p, i, a, b. repeat split; try done; [by left|].
      intros t. apply assemble_terms_nodes.
    + exists edge, p, i, a, b. repeat split; try done; [by right|].
      intros t. apply assemble_terms_nodes.
Qed.

(** C8, as it is written, fails in its last part: on the flat square every
    node is degenerate, the caller names these nodes as vertices, and the
    equations of the vertex pairings are written with terms on them. *)
Lemma C8_counterexample : ~ degenerate_free flat_square.
Proof.
  intros Hfree.
  destruct (prepare flat_square) as [e|R] eqn:HR.
  { vm_compute in HR. discriminate HR. }
  assert (Hex : existsb (fun ts => existsb (term_on_degenerate (classified R)) ts)
                  (run_equations flat_square R) = true).
  { assert (H : match prepare flat_square with
                | inr R' => existsb
                    (fun ts => existsb (term_on_degenerate (classified R')) ts)
                    (run_equations flat_square R')
                | inl _ => false
                end = true) by (vm_compute; reflexivity).
    by rewrite HR in H. }
  apply existsb_exists in Hex as (ts & Hts & Hex).
  apply existsb_exists in Hex as (t & Ht & Hdeg).
  rewrite (Hfree R HR ts t Hts Ht) in Hdeg. discriminate Hdeg.
Qed.

(** ** Equality of keys *)

Lemma SFeqb_class (a b : spec_float) :
  SFeqb a b = true <-> exists c, sf_class a = Some c /\ sf_class b = Some c.
Proof.
  unfold SFeqb, SFcompare.
  destruct a as [sa|sa| |sa ma ea], b as [sb|sb| |sb mb eb]; simpl;
    try (split; [done | by intros (c & ? & ?)]);
    try (split; [intros _; by eexists | done]).
  - destruct sb; (split; [done | intros (c & [= <-] & [=])]).
  - destruct sb; (split; [done | intros (c & [= <-] & [=])]).
  - destruct sa; (split; [done | intros (c & [= <-] & [=])]).
  - destruct sa, sb; (split; [try done; intros _; by eexists
                             | try done; intros (c & [= <-] & [=])]).
  - destruct sa; (split; [done | intros (c & [= <-] & [=])]).
  - destruct sa; (split; [done | intros (c & [= <-] & [=])]).
  - destruct sb; (split; [done | intros (c & [= <-] & [=])]).
  - destruct sa, sb; try (split; [done | intros (c & [= <-] & [=])]).
    + destruct (Z.compare_spec ea eb) as [-> | Hlt | Hgt].
      * change (PosDef.Pos.compare_cont Eq ma mb) with (ma ?= mb)%positive.
        destruct (Pos.compare_spec ma mb) as [-> | Hl | Hg]; simpl.
        -- split; [intros _; by eexists | done].
        -- split; [done | intros (c & [= <-] & [= ?]); lia].
        -- split; [done | intros (c & [= <-] & [= ?]); lia].
      * split; [done | intros (c & [= <-] & [= ? ?]); lia].
      * split; [done | intros (c & [= <-] & [= ? ?]); lia].
    + destruct (Z.compare_spec ea eb) as [-> | Hlt | Hgt].
      * change (PosDef.Pos.compare_cont Eq ma mb) with (ma ?= mb)%positive.
        destruct (Pos.compare_spec ma mb) as [-> | Hl | Hg]; simpl.
        -- split; [intros _; by eexists | done].
        -- split; [done | intros (c & [= <-] & [= ?]); lia].
        -- split; [done | intros (c & [= <-] & [= ?]); lia].
      * split; [done | intros (c & [= <-] & [= ? ?]); lia].
      * split; [done | intros (c & [= <-] & [= ? ?]); lia].
Qed.

Lemma float_eqb_class (a b : float) :
  PrimFloat.eqb a b = true
  <-> exists c, sf_class (Prim2SF a) = Some c /\ sf_class (Prim2SF b) = Some c.
Proof. rewrite FloatAxioms.eqb_spec. apply SFeqb_class. Qed.

Lemma float_eqb_sym (a b : float) : PrimFloat.eqb a b = PrimFloat.eqb b a.
Proof.
  apply eq_true_iff_eq. rewrite !float_eqb_class.
  split; intros (c & ? & ?); by exists c.
Qed.

Lemma float_eqb_trans (a b c : float) :
  PrimFloat.eqb a b = true -> PrimFloat.eqb b c = true -> PrimFloat.eqb a c = true.
Proof.
  rewrite !float_eqb_class. intros (c1 & H1 & H2) (c2 & H3 & H4).
  exists c1. split; [done | congruence].
Qed.

Lemma key1_eqb_sym (a b : float) : key1_eqb a b = key1_eqb b a.
Proof. apply float_eqb_sym. Qed.

Lemma key1_eqb_trans (a b c : float) :
  key1_eqb a b = true -> key1_eqb b c = true -> key1_eqb a c = true.
Proof. apply float_eqb_trans. Qed.

Lemma key2_eqb_sym (a b : float * float) : key2_eqb a b = key2_eqb b a.
Proof. unfold key2_eqb. by rewrite (float_eqb_sym (fst a)), (float_eqb_sym (snd a)). Qed.

Lemma key2_eqb_trans (a b c : float * float) :
  key2_eqb a b = true -> key2_eqb b c = true -> key2_eqb a c = true.
Proof.
  unfold key2_eqb. rewrite !andb_true_iff. intros [H1 H2] [H3 H4].
  split; by eapply float_eqb_trans.
Qed.

(** ** The matching dictionaries *)

Lemma nodes_get_In (nodes : Nodes) (nd : Node) :
  NoDup (map nid nodes) -> In nd nodes -> nodes_get nodes (nid nd) = Some nd.
Proof.
  unfold nodes_get. induction nodes as [|n0 nodes IH]; first done.
  intros Hnd Hin. apply NoDup_cons in Hnd as [Hn0 Hnd]. simpl.
  case_bool_decide as Heq.
  - destruct Hin as [-> | Hin]; first done.
    exfalso. apply Hn0. rewrite Heq. apply list_elem_of_In, in_map, Hin.
  - destruct Hin as [-> | Hin]; first done. by apply IH.
Qed.

Lemma nodes_get_Some (nodes : Nodes) (k : Z) (nd : Node) :
  nodes_get nodes k = Some nd -> In nd nodes /\ nid nd = k.
Proof.
  unfold nodes_get. intros H. apply find_some in H as [Hin Hk].
  by apply bool_decide_eq_true in Hk.
Qed.

Section KeyDictFacts.
Context {K : Type} (keq : K -> K -> bool) (key : Node -> K).
Hypothesis keq_sym : forall a b, keq a b = keq b a.
Hypothesis keq_trans : forall a b c, keq a b = true -> keq b c = true -> keq a c = true.

Local Abbreviation holds_last := (holds_last keq key).

Lemma kd_set_keys (P : K -> Prop) (d : list (K * Z)) (k : K) (val : Z) :
Forall (fun e => P (fst e)) d -> P k ->
Forall (fun e => P (fst e)) (kd_set keq d k val).
Proof.
induction d as [|[k' v'] d IH]; intros Hd Hk; simpl.
- by constructor.
- apply Forall_cons in Hd as [Hk' Hd].
destruct (keq k' k); constructor; auto.
Qed.

Lemma kd_set_inv (d : list (K * Z)) (l : list Node) (nd : Node) :
distinct_keys keq d -> Forall (holds_last l) d ->
distinct_keys keq (kd_set keq d (key nd) (nid nd))
/\ Forall (holds_last (l ++ [nd])) (kd_set keq d (key nd) (nid nd)).
Proof.
assert (Hext : forall e, holds_last l e -> keq (fst e) (key nd) = false ->
       holds_last (l ++ [nd]) e).
{ intros e (l1 & n0 & l2 & -> & Hv & Hk & Hl2) Hne.
exists l1, n0, (l2 ++ [nd]). split; first by rewrite <- app_assoc.
split; [done | split; [done|]]. apply Forall_app. split; [done|].
by constructor. }
induction d as [|[k' v'] d IH]; intros Hdist Hlast; simpl.
- split; [by split|]. constructor; [|constructor].
exists l, nd, []. split; [done | split; [done | split; [by left | constructor]]].
- destruct Hdist as [Hhd Hdist]. apply Forall_cons in Hlast as [Hl0 Hlast].
destruct (keq k' (key nd)) eqn:Hk.
+ split; [by split|]. constructor.
* exists l, nd, []. split; [done | split; [done | split; [by right | constructor]]].
* rewrite Forall_forall in Hhd, Hlast |- *. intros e He.
apply Hext; [by apply Hlast|]. simpl in Hhd.
destruct (keq (fst e) (key nd)) eqn:Hek; [|done].
rewrite <- (Hhd e He). symmetry. apply (keq_trans _ (key nd)); [done|].
by rewrite keq_sym.
+ destruct (IH Hdist Hlast) as [IH1 IH2]. split.
* split; [|exact IH1]. simpl.
by apply (kd_set_keys (fun k => keq k' k = false)).
* constructor; [by apply Hext | exact IH2].
Qed.

Lemma kd_build_snoc (l : list Node) (nd : Node) :
kd_build keq key (l ++ [nd])
= kd_set keq (kd_build keq key l) (key nd) (nid nd).
Proof. unfold kd_build. by rewrite fold_left_app. Qed.

Lemma kd_build_inv (l : list Node) :
distinct_keys keq (kd_build keq key l)
/\ Forall (holds_last l) (kd_build keq key l).
Proof.
induction l as [|nd l IH] using rev_ind.
- split; [done | constructor].
- rewrite kd_build_snoc. destruct IH as [IH1 IH2]. by apply kd_set_inv.
Qed.

(** The node behind an entry is the last of its key in the list. *)
Lemma holds_last_of_key (l : list Node) (e : K * Z) :
holds_last l e ->
exists nd, nid nd = snd e /\ last_of_key keq key l nd
 /\ (fst e = key nd \/ keq (fst e) (key nd) = true).
Proof.
intros (l1 & nd & l2 & -> & Hv & Hk & Hl2).
exists nd. split; [done | split; [|done]].
exists l1, l2. split; [done|].
destruct Hk as [<- | Hk]; first done.
rewrite Forall_forall in Hl2 |- *. intros nd' Hin.
destruct (keq (key nd) (key nd')) eqn:Hq; [|done].
rewrite <- (Hl2 nd' Hin). symmetry. by apply (keq_trans _ (key nd)).
Qed.

Lemma kd_get_Some (d : list (K * Z)) (k : K) (val : Z) :
kd_get keq d k = Some val ->
exists k', In (k', val) d /\ keq k' k = true.
Proof.
unfold kd_get. intros H.
destruct (List.find _ d) as [[k' v']|] eqn:Hf; [|done].
apply find_some in Hf as [Hin Hk]. injection H as <-. by exists k'.
Qed.
End KeyDictFacts.

Lemma NoDup_map_filter {A B} (f : A -> B) (g : A -> bool) (l : list A) :
  NoDup (map f l) -> NoDup (map f (List.filter g l)).
Proof.
  induction l as [|a l IH]; first done.
  simpl. intros H. apply NoDup_cons in H as [Ha H].
  destruct (g a); [|by apply IH]. simpl. apply NoDup_cons. split; [|by apply IH].
  intros Hin. apply Ha. apply list_elem_of_In in Hin. apply list_elem_of_In.
  apply in_map_iff in Hin as (a' & <- & Hin). apply filter_In in Hin as [Hin _].
  by apply in_map.
Qed.

(** With distinct ids, a node stands at one place of the list. *)
Lemma split_unique {A B} (f : A -> B) (l1 l1' l2 l2' : list A) (a : A) :
  NoDup (map f (l1 ++ a :: l2)) -> l1 ++ a :: l2 = l1' ++ a :: l2' ->
  l1 = l1' /\ l2 = l2'.
Proof.
  revert l1'. induction l1 as [|b l1 IH]; intros l1' Hnd Heq.
  - destruct l1' as [|b' l1']; simpl in *.
    + by injection Heq as ->.
    + injection Heq as <- ->. apply NoDup_cons in Hnd as [Hn _].
      exfalso. apply Hn. rewrite map_app. apply list_elem_of_In, in_or_app.
      right. by left.
  - destruct l1' as [|b' l1']; simpl in *.
    + injection Heq as -> <-. apply NoDup_cons in Hnd as [Hn _].
      exfalso. apply Hn. rewrite map_app. apply list_elem_of_In, in_or_app.
      right. by left.
    + injection Heq as <- Heq. apply NoDup_cons in Hnd as [_ Hnd].
      destruct (IH l1' Hnd Heq) as [-> ->]. done.
Qed.

Lemma pairing_of_In (nodes : Nodes) (mid pid : Z) (p : Pairing) :
  In p (pairing_of nodes mid pid) ->
  exists a b,
    nodes_get nodes mid = Some a /\ nodes_get nodes pid = Some b
    /\ p = mkPairing mid pid (PrimFloat.sub (x b) (x a),
                              PrimFloat.sub (y b) (y a),
                              PrimFloat.sub (z b) (z a)).
Proof.
  unfold pairing_of.
  destruct (nodes_get nodes mid) as [a|]; [|done].
  destruct (nodes_get nodes pid) as [b|]; [|done].
  intros [<- | []]. by exists a, b.
Qed.

Section PairByKey.
Context {K : Type} (keq : K -> K -> bool) (key : Node -> K).
Hypothesis keq_sym : forall a b, keq a b = keq b a.
Hypothesis keq_trans : forall a b c, keq a b = true -> keq b c = true -> keq a c = true.
Variable nodes : Nodes.
Variables lm lp : list Node.
Hypothesis nodes_nodup : NoDup (map nid nodes).
Hypothesis lm_incl : forall nd, In nd lm -> In nd nodes.
Hypothesis lp_incl : forall nd, In nd lp -> In nd nodes.
Hypothesis lm_nodup : NoDup (map nid lm).
Hypothesis lp_nodup : NoDup (map nid lp).

Local Abbreviation out := (pair_by_key keq key nodes lm lp).

Lemma last_of_key_In (l : list Node) (nd : Node) :
last_of_key keq key l nd -> In nd l.
Proof. intros (l1 & l2 & -> & _). apply in_or_app. right. by left. Qed.

(** The entry of the first dictionary and the nodes behind a pairing. *)
Lemma pair_by_key_entry (p : Pairing) :
In p out ->
exists k a b,
In (k, minus_node p) (kd_build keq key lm)
/\ nodes_get nodes (minus_node p) = Some a
/\ nodes_get nodes (plus_node p) = Some b
/\ last_of_key keq key lm a /\ last_of_key keq key lp b
/\ (k = key a \/ keq k (key a) = true)
/\ keq (key a) (key b) = true
/\ delta p = (PrimFloat.sub (x b) (x a), PrimFloat.sub (y b) (y a),
  PrimFloat.sub (z b) (z a)).
Proof.
unfold pair_by_key, match_keys. intros Hp.
apply in_flat_map in Hp as ([k mid] & He & Hp). simpl in Hp.
destruct (kd_get keq (kd_build keq key lp) k) as [pid|] eqn:Hg; [|done].
apply pairing_of_In in Hp as (a & b & Ha & Hb & ->). simpl.
destruct (kd_build_inv keq key keq_sym keq_trans lm) as [_ Hlm].
destruct (kd_build_inv keq key keq_sym keq_trans lp) as [_ Hlp].
rewrite Forall_forall in Hlm, Hlp.
apply list_elem_of_In in He. pose proof (Hlm _ He) as Hm.
apply (holds_last_of_key keq key keq_trans) in Hm as (na & Hna & Hla & Hka).
apply kd_get_Some in Hg as (k' & Hin' & Hkk).
apply list_elem_of_In in Hin'. pose proof (Hlp _ Hin') as Hq.
apply (holds_last_of_key keq key keq_trans) in Hq as (nb & Hnb & Hlb & Hkb).
simpl in *.
assert (a = na) as ->.
{ pose proof (nodes_get_In nodes na nodes_nodup
  (lm_incl _ (last_of_key_In _ _ Hla))) as H.
rewrite Hna, Ha in H. by injection H. }
assert (b = nb) as ->.
{ pose proof (nodes_get_In nodes nb nodes_nodup
  (lp_incl _ (last_of_key_In _ _ Hlb))) as H.
rewrite Hnb, Hb in H. by injection H. }
exists k, na, nb. apply list_elem_of_In in He.
repeat split; try done.
assert (Hk'a : keq k' (key na) = true).
{ destruct Hka as [<- | Hka]; [done | by apply (keq_trans _ k)]. }
rewrite keq_sym. destruct Hkb as [<- | Hkb]; first done.
apply (keq_trans _ k'); [by rewrite keq_sym | done].
Qed.

(** Two pairings of the list have minus nodes with different keys. *)
Lemma pair_by_key_distinct :
ForallOrdPairs
(fun p q => forall a b,
 nodes_get nodes (minus_node p) = Some a ->
 nodes_get nodes (minus_node q) = Some b ->
 keq (key a) (key b) = false)
out.
Proof.
destruct (kd_build_inv keq key keq_sym keq_trans lm) as [Hdist Hlm].
unfold pair_by_key, match_keys.
set (pd := kd_build keq key lp).
induction (kd_build keq key lm) as [|[k mid] m IH]; first constructor.
destruct Hdist as [Hhd Hdist]. apply Forall_cons in Hlm as [Hl0 Hlm].
specialize (IH Hdist Hlm). cbn [flat_map fst snd].
destruct (kd_get keq pd k) as [pid|]; [|exact IH].
unfold pairing_of.
destruct (nodes_get nodes mid) as [a|] eqn:Ha; [|exact IH].
destruct (nodes_get nodes pid) as [b|]; [|exact IH].
cbn [app]. constructor; [|exact IH].
apply Forall_forall. intros q Hq a' b' Ha' Hb'.
apply list_elem_of_In, in_flat_map in Hq as ([k2 mid2] & He2 & Hq).
simpl in Hq. destruct (kd_get keq pd k2) as [pid2|]; [|done].
apply pairing_of_In in Hq as (a2 & b2 & Ha2 & _ & ->).
simpl in Ha', Hb'. rewrite Ha in Ha'. injection Ha' as <-.
rewrite Ha2 in Hb'. injection Hb' as <-.
apply (holds_last_of_key keq key keq_trans) in Hl0 as (na & Hna & Hla & Hka).
rewrite Forall_forall in Hlm. apply list_elem_of_In in He2.
pose proof (Hlm _ He2) as Hl2.
apply (holds_last_of_key keq key keq_trans) in Hl2 as (n2 & Hn2 & Hl2 & Hk2).
simpl in *.
assert (a = na) as ->.
{ pose proof (nodes_get_In nodes na nodes_nodup
  (lm_incl _ (last_of_key_In _ _ Hla))) as H.
rewrite Hna, Ha in H. by injection H. }
assert (a2 = n2) as ->.
{ pose proof (nodes_get_In nodes n2 nodes_nodup
  (lm_incl _ (last_of_key_In _ _ Hl2))) as H.
rewrite Hn2, Ha2 in H. by injection H. }
rewrite Forall_forall in Hhd. specialize (Hhd _ He2). simpl in Hhd.
destruct (keq (key na) (key n2)) eqn:Hq; [|done].
rewrite <- Hhd. symmetry.
assert (Hkn2 : keq k (key n2) = true).
{ destruct Hka as [-> | Hka]; [done | by apply (keq_trans _ (key na))]. }
destruct Hk2 as [-> | Hk2]; first done.
apply (keq_trans _ (key n2)); [done | by rewrite keq_sym].
Qed.

Lemma last_not_shadowed (l : list Node) (nd : Node) :
NoDup (map nid l) -> last_of_key keq key l nd -> ~ shadowed keq key l nd.
Proof.
intros Hnd (l1 & l2 & Hl & Hall) (l1' & l2' & nd' & l3 & Hl' & Hk).
rewrite Hl in Hnd, Hl'.
destruct (split_unique nid _ _ _ _ _ Hnd Hl') as [_ ->].
rewrite Forall_forall in Hall. rewrite Hall in Hk; first done.
apply list_elem_of_In, in_or_app. right. by left.
Qed.

(** A node that comes before a node with an equal key is in no pairing. *)
Lemma pair_by_key_shadowed (p : Pairing) :
In p out ->
(forall nd, In nd lm -> shadowed keq key lm nd -> minus_node p <> nid nd)
/\ (forall nd, In nd lp -> shadowed keq key lp nd -> plus_node p <> nid nd).
Proof.
intros Hp.
apply pair_by_key_entry in Hp as (k & a & b & _ & Ha & Hb & Hla & Hlb & _).
split; intros nd Hin Hsh Heq.
- rewrite Heq, (nodes_get_In nodes nd nodes_nodup (lm_incl _ Hin)) in Ha.
injection Ha as ->. revert Hsh. by apply last_not_shadowed.
- rewrite Heq, (nodes_get_In nodes nd nodes_nodup (lp_incl _ Hin)) in Hb.
injection Hb as ->. revert Hsh. by apply last_not_shadowed.
Qed.
End PairByKey.

Lemma pair_face_nodes_by_key (nodes : Nodes) (minus_face plus_face : Face) :
  _pair_face_nodes nodes minus_face plus_face
  = pair_by_key key2_eqb (face_key (face_axis minus_face)) nodes
      (nodes_on_face nodes minus_face) (nodes_on_face nodes plus_face).
Proof. reflexivity. Qed.

Lemma edge_pairings_by_key (nodes : Nodes) (minus_faces plus_faces : Face * Face) :
  edge_pairings_for nodes minus_faces plus_faces
  = pair_by_key key1_eqb (edge_key minus_faces) nodes
      (nodes_on_edge nodes minus_faces) (nodes_on_edge nodes plus_faces).
Proof.
  unfold edge_pairings_for, pair_by_key, nodes_on_edge.
  destruct (List.filter _ nodes) as [|m0 lm] eqn:Hm; first done.
  destruct (List.filter (fun nd => _ && bool_decide (faces nd = face_set plus_faces))
              nodes) as [|p0 lp] eqn:Hp; [|done].
  unfold match_keys. generalize (kd_build key1_eqb (edge_key minus_faces) (m0 :: lm)).
  intros d. by induction d as [|e d IH].
Qed.

Lemma pair_by_key_facts {K : Type} (keq : K -> K -> bool) (key : Node -> K)
    (nodes : Nodes) (g h : Node -> bool) :
  (forall a b, keq a b = keq b a) ->
  (forall a b c, keq a b = true -> keq b c = true -> keq a c = true) ->
  NoDup (map nid nodes) ->
  one_pairing_per_key keq key nodes (List.filter g nodes) (List.filter h nodes)
    (pair_by_key keq key nodes (List.filter g nodes) (List.filter h nodes)).
Proof.
  intros Hsym Htrans Hnd.
  assert (Hg : forall nd, In nd (List.filter g nodes) -> In nd nodes)
    by (intros nd H; by apply filter_In in H as [? _]).
  assert (Hh : forall nd, In nd (List.filter h nodes) -> In nd nodes)
    by (intros nd H; by apply filter_In in H as [? _]).
  pose proof (NoDup_map_filter nid g nodes Hnd) as Hng.
  pose proof (NoDup_map_filter nid h nodes Hnd) as Hnh.
  split; [|split].
  - by apply pair_by_key_distinct.
  - intros p Hp.
    destruct (pair_by_key_entry keq key Hsym Htrans nodes _ _ Hnd Hg Hh p Hp)
      as (k & a & b & _ & Ha & Hb & Hla & Hlb & _ & Hk & _).
    by exists a, b.
  - intros p Hp. by apply (pair_by_key_shadowed keq key Hsym Htrans nodes _ _).
Qed.

Lemma StronglySorted_list_filter {A} (R : A -> A -> Prop) (f : A -> bool)
    (l : list A) :
  StronglySorted R l -> StronglySorted R (List.filter f l).
Proof.
  induction 1 as [|a l Hs IH Hall]; first constructor.
  simpl. destruct (f a); [|exact IH]. constructor; [exact IH|].
  rewrite Forall_forall in Hall |- *. intros b Hb.
  apply Hall. apply list_elem_of_In in Hb. apply list_elem_of_In.
  by apply filter_In in Hb as [? _].
Qed.

(** In a list in ascending order of ids, the last node of a key has the
    highest id among the nodes with an equal key. *)
Lemma last_of_key_highest {K : Type} (keq : K -> K -> bool) (key : Node -> K)
    (l : list Node) (a nd : Node) :
  StronglySorted (fun n1 n2 => nid n1 < nid n2) l ->
  last_of_key keq key l a -> In nd l -> keq (key a) (key nd) = true ->
  nid nd <= nid a.
Proof.
  intros Hs (l1 & l2 & -> & Hall) Hin Hk.
  apply in_app_or in Hin as [Hin | [<- | Hin]].
  - apply Z.lt_le_incl.
    apply (StronglySorted_app_1_elem_of _ l1 (a :: l2) nd a Hs);
      [by apply list_elem_of_In | by left].
  - lia.
  - rewrite Forall_forall in Hall.
    rewrite (Hall nd) in Hk; [done | by apply list_elem_of_In].
Qed.

Lemma faces_one_pairing_per_key (nodes : Nodes) :
  NoDup (map nid nodes) ->
  forall minus_face plus_face,
    one_pairing_per_key key2_eqb (face_key (face_axis minus_face)) nodes
      (nodes_on_face nodes minus_face) (nodes_on_face nodes plus_face)
      (_pair_face_nodes nodes minus_face plus_face).
Proof.
  intros Hnd mf pf. rewrite pair_face_nodes_by_key.
  apply pair_by_key_facts; [apply key2_eqb_sym | apply key2_eqb_trans | done].
Qed.

Lemma edges_one_pairing_per_key (nodes : Nodes) :
  NoDup (map nid nodes) ->
  forall minus_faces plus_faces,
    one_pairing_per_key key1_eqb (edge_key minus_faces) nodes
      (nodes_on_edge nodes minus_faces) (nodes_on_edge nodes plus_faces)
      (edge_pairings_for nodes minus_faces plus_faces).
Proof.
  intros Hnd mfs pfs. rewrite edge_pairings_by_key.
  apply pair_by_key_facts; [apply key1_eqb_sym | apply key1_eqb_trans | done].
Qed.

(** C10: in face and in edge pairing a key gives at most one pairing. With
    the nodes of the minus side and of the plus side taken in the iteration
    order of the node dictionary: no two pairings of a list have minus nodes
    with equal keys; the two nodes of a pairing have equal keys and each is
    the last node of its side with that key; and a node that comes before a
    node of its side with an equal key is in no pairing of the list. The
    pairing functions return the list only: nothing is raised and no
    warning is recorded for such a node. When the dictionary is in
    ascending order of ids, as the parser fills it, the last node of a key
    is the one with the highest id. *)
Theorem C10_one_pairing_per_key (nodes : Nodes) :
  NoDup (map nid nodes) ->
  (forall minus_face plus_face,
     one_pairing_per_key key2_eqb (face_key (face_axis minus_face)) nodes
       (nodes_on_face nodes minus_face) (nodes_on_face nodes plus_face)
       (_pair_face_nodes nodes minus_face plus_face))
  /\ (forall minus_faces plus_faces,
        one_pairing_per_key key1_eqb (edge_key minus_faces) nodes
          (nodes_on_edge nodes minus_faces) (nodes_on_edge nodes plus_faces)
          (edge_pairings_for nodes minus_faces plus_faces))
  /\ (forall label plist,
        In (label, plist) (build_edge_pairings nodes) ->
        exists minus_faces plus_faces,
          In (label, minus_faces, plus_faces) edge_specs
          /\ plist = edge_pairings_for nodes minus_faces plus_faces)
  /\ (StronglySorted (fun n1 n2 => nid n1 < nid n2) nodes ->
      (forall f a nd,
         last_of_key key2_eqb (face_key (face_axis f)) (nodes_on_face nodes f) a ->
         In nd (nodes_on_face nodes f) ->
         key2_eqb (face_key (face_axis f) a) (face_key (face_axis f) nd) = true ->
         nid nd <= nid a)
      /\ (forall fs key_faces a nd,
            last_of_key key1_eqb (edge_key key_faces) (nodes_on_edge nodes fs) a ->
            In nd (nodes_on_edge nodes fs) ->
            key1_eqb (edge_key key_faces a) (edge_key key_faces nd) = true ->
            nid nd <= nid a)).
Proof.
  intros Hnd. split; [|split; [|split]].
  - by apply faces_one_pairing_per_key.
  - by apply edges_one_pairing_per_key.
  - intros label plist H. unfold build_edge_pairings in H.
    apply in_map_iff in H as ([[l mfs] pfs] & [= <- <-] & Hin).
    by exists mfs, pfs.
  - intros Hs. split.
    + intros f a nd. apply last_of_key_highest.
      by apply StronglySorted_list_filter.
    + intros fs kf a nd. apply last_of_key_highest.
      by apply StronglySorted_list_filter.
Qed.

Lemma C10_witness :
  NoDup (map nid shadow_nodes)
  /\ map pairing_ids (_pair_face_nodes shadow_nodes Xm Xp)
     = [(1, 2); (4, 3); (5, 6); (8, 7); (10, 11)]
  /\ one_pairing_per_key key2_eqb (face_key AX) shadow_nodes
       (nodes_on_face shadow_nodes Xm) (nodes_on_face shadow_nodes Xp)
       (_pair_face_nodes shadow_nodes Xm Xp).
Proof.
  assert (Hnd : NoDup (map nid shadow_nodes)) by by_evaluation.
  split; [exact Hnd | split; [by vm_compute|]].
  exact (proj1 (C10_one_pairing_per_key shadow_nodes Hnd) Xm Xp).
Defined.

Lemma vertex_pairings_ids (nodes : Nodes) (vertex_ids : VertexIds)
    (defs : list (VLabel * VLabel)) (vp : list Pairing) :
  vertex_pairings_loop nodes vertex_ids defs = inr vp ->
  map pairing_ids vp
  = map (fun d => (vertex_ids (snd d), vertex_ids (fst d))) defs
  /\ Forall (fun p => is_Some (nodes_get nodes (minus_node p))
                      /\ is_Some (nodes_get nodes (plus_node p))) vp.
Proof.
  revert vp. induction defs as [|[pl ml] defs IH]; intros vp; simpl.
  - intros [= <-]. by split.
  - destruct (nodes_get nodes (vertex_ids ml)) as [a|] eqn:Ha; [|done].
    destruct (nodes_get nodes (vertex_ids pl)) as [b|] eqn:Hb; [|done].
    destruct (vertex_pairings_loop nodes vertex_ids defs) as [?|out]; [done|].
    intros [= <-]. destruct (IH out eq_refl) as [IH1 IH2].
    split; [simpl; by rewrite IH1|].
    constructor; [|exact IH2]. simpl. by rewrite Ha, Hb.
Qed.

Lemma filter_filter_same {A} (f : A -> bool) (l : list A) :
  List.filter f (List.filter f l) = List.filter f l.
Proof.
  induction l as [|a l IH]; first done.
  simpl. destruct (f a) eqn:Hf; [|done]. simpl. by rewrite Hf, IH.
Qed.

(** C3, as the code has it, for a node dictionary with distinct ids. A
    face pairing joins a node tagged with the minus face and a node tagged
    with the plus face, whatever their kinds: the kind is tested when the
    equations are generated, where a call with a required kind works on the
    pairings whose two nodes both have that kind, and on no other. An edge
    pairing joins two nodes of kind edge, with the two faces of its minus
    side and of its plus side. The vertex pairings join the named vertex
    nodes: A with G, D with F, B with H and E with C. *)
Theorem C3_pairing_kinds (nodes : Nodes) :
  NoDup (map nid nodes) ->
  (forall minus_face plus_face p,
     In p (_pair_face_nodes nodes minus_face plus_face) ->
     exists a b,
       nodes_get nodes (minus_node p) = Some a
       /\ nodes_get nodes (plus_node p) = Some b
       /\ minus_face ∈ faces a /\ plus_face ∈ faces b)
  /\ (forall pair_list eps dummy_eps_map fixed_dofs k eps_tol one_term_tol,
        generate_dummy_mpcs_for_pairs pair_list nodes eps dummy_eps_map
          fixed_dofs (Some k) eps_tol one_term_tol
        = generate_dummy_mpcs_for_pairs
            (List.filter (pair_passes nodes (Some k)) pair_list)
            nodes eps dummy_eps_map fixed_dofs (Some k) eps_tol one_term_tol
        /\ forall p, pair_passes nodes (Some k) p = true ->
             exists a b,
               nodes_get nodes (minus_node p) = Some a
               /\ nodes_get nodes (plus_node p) = Some b
               /\ kind a = k /\ kind b = k)
  /\ (forall minus_faces plus_faces p,
        In p (edge_pairings_for nodes minus_faces plus_faces) ->
        exists a b,
          nodes_get nodes (minus_node p) = Some a
          /\ nodes_get nodes (plus_node p) = Some b
          /\ kind a = edge /\ kind b = edge
          /\ faces a = face_set minus_faces /\ faces b = face_set plus_faces)
  /\ (forall vertex_ids vp,
        build_vertex_pairings_from_vertices nodes vertex_ids = inr vp ->
        map pairing_ids vp
        = [ (vertex_ids vA, vertex_ids vG); (vertex_ids vD, vertex_ids vF);
            (vertex_ids vB, vertex_ids vH); (vertex_ids vE, vertex_ids vC) ]).
Proof.
  intros Hnd. split; [|split; [|split]].
  - intros mf pf p Hp.
    destruct (faces_one_pairing_per_key nodes Hnd mf pf) as (_ & Hlast & _).
    destruct (Hlast p Hp) as (a & b & Ha & Hb & Hla & Hlb & _).
    exists a, b. split; [done | split; [done|]].
    apply last_of_key_In, filter_In in Hla as [_ Hfa].
    apply last_of_key_In, filter_In in Hlb as [_ Hfb].
    by apply bool_decide_eq_true in Hfa, Hfb.
  - intros pl eps0 dmap fixed k tol tol1. split.
    + by rewrite !generate_rounds, filter_filter_same.
    + intros p. apply pair_passes_kind.
  - intros mfs pfs p Hp.
    destruct (edges_one_pairing_per_key nodes Hnd mfs pfs) as (_ & Hlast & _).
    destruct (Hlast p Hp) as (a & b & Ha & Hb & Hla & Hlb & _).
    exists a, b. split; [done | split; [done|]].
    apply last_of_key_In, filter_In in Hla as [_ Hfa].
    apply last_of_key_In, filter_In in Hlb as [_ Hfb].
    apply andb_true_iff in Hfa as [Hka Hfa], Hfb as [Hkb Hfb].
    by apply bool_decide_eq_true in Hka, Hfa, Hkb, Hfb.
  - intros vids vp Hvp. by apply vertex_pairings_ids in Hvp as [-> _].
Qed.

(** C3, as it is written, fails for the face pairings: on the unit cube
    the face pairings join the corner nodes, whose kind is vertex. *)
Lemma C3_counterexample : ~ face_pairings_join_faces cube_free.
Proof.
  intros Hclaim.
  assert (H : match prepare cube_free with
              | inr R =>
                  existsb (fun p =>
                    match nodes_get (classified R) (minus_node p),
                          nodes_get (classified R) (plus_node p) with
                    | Some a, Some b => negb (bool_decide (kind a = face))
                    | _, _ => false
                    end) (face_pairings_at (face_pairings R) AX)
              | inl _ => false
              end = true) by (vm_compute; reflexivity).
  destruct (prepare cube_free) as [e|R] eqn:HR; first discriminate H.
  apply existsb_exists in H as (p & Hp & H).
  destruct (nodes_get (classified R) (minus_node p)) as [a|] eqn:Ha; [|done].
  destruct (nodes_get (classified R) (plus_node p)) as [b|] eqn:Hb; [|done].
  destruct (Hclaim R HR AX p Hp a b Ha Hb) as [Hka _].
  by rewrite bool_decide_eq_true_2 in H.
Qed.

Lemma C3_witness :
  NoDup (map nid shadow_nodes)
  /\ map pairing_ids
       (match build_vertex_pairings_from_vertices shadow_nodes cube_vertex_ids with
        | inr vp => vp
        | inl _ => []
        end)
     = [(1, 7); (4, 6); (2, 8); (5, 3)].
Proof.
  assert (Hnd : NoDup (map nid shadow_nodes)) by by_evaluation.
  split; [exact Hnd|].
  destruct (build_vertex_pairings_from_vertices shadow_nodes cube_vertex_ids)
    as [e|vp] eqn:Hvp.
  - exfalso. vm_compute in Hvp. discriminate Hvp.
  - exact (proj2 (proj2 (proj2 (C3_pairing_kinds shadow_nodes Hnd)))
             cube_vertex_ids vp Hvp).
Defined.

(** ** Without fixed dofs *)

Lemma physical_terms_none (p : Pairing) (dof : Dof) :
  physical_terms ∅ p dof
  = [(1%float, plus_node p, dof); ((-1)%float, minus_node p, dof)].
Proof. reflexivity. Qed.

(** With no dof fixed every list of terms has its two physical terms: the
    round writes one line and implies nothing. *)
Lemma gen_dof_no_fixed (nodes : Nodes) (eps : Strain) (dummy_eps_map : DummyEpsMap)
    (eps_tol one_term_tol : float) (p : Pairing) (i : Ix) :
  gen_implied (gen_dof nodes eps dummy_eps_map ∅ eps_tol one_term_tol p i) = ∅
  /\ List.length (gen_lines (gen_dof nodes eps dummy_eps_map ∅ eps_tol
                               one_term_tol p i)) = 1%nat.
Proof.
  unfold gen_dof, assemble_terms. destruct (delta p) as [[dx dy] dz].
  destruct (dummy_terms _ _ _ _ _ _) as [ds ws].
  rewrite physical_terms_none, gen_app_warnings_only. done.
Qed.

Lemma generate_no_fixed (pair_list : list Pairing) (nodes : Nodes) (eps : Strain)
    (dummy_eps_map : DummyEpsMap) (required_kind : option Kind)
    (eps_tol one_term_tol : float) :
  gen_implied (generate_dummy_mpcs_for_pairs pair_list nodes eps dummy_eps_map ∅
                 required_kind eps_tol one_term_tol) = ∅
  /\ List.length (gen_lines (generate_dummy_mpcs_for_pairs pair_list nodes eps
                               dummy_eps_map ∅ required_kind eps_tol one_term_tol))
     = (3 * List.length (List.filter (pair_passes nodes required_kind) pair_list))%nat.
Proof.
  rewrite generate_rounds.
  induction (List.filter (pair_passes nodes required_kind) pair_list)
    as [|p pl [IH1 IH2]]; first done.
  cbn [flat_map]. rewrite gen_concat_app, gen_implied_app, gen_lines_app.
  rewrite length_app, IH1, IH2. cbn [map gen_concat fold_right].
  rewrite !gen_implied_app, !gen_lines_app, !length_app.
  destruct (gen_dof_no_fixed nodes eps dummy_eps_map eps_tol one_term_tol p I1)
    as [-> ->].
  destruct (gen_dof_no_fixed nodes eps dummy_eps_map eps_tol one_term_tol p I2)
    as [-> ->].
  destruct (gen_dof_no_fixed nodes eps dummy_eps_map eps_tol one_term_tol p I3)
    as [-> ->].
  split; [set_solver | simpl; lia].
Qed.

Lemma sweep_no_fixed (gs : list (list Pairing * option Kind)) (nodes : Nodes)
    (eps : Strain) (dummy_eps_map : DummyEpsMap) (eps_tol : float) :
  gen_implied (sweep gs nodes eps dummy_eps_map ∅ eps_tol) = ∅
  /\ List.length (gen_lines (sweep gs nodes eps dummy_eps_map ∅ eps_tol))
     = (3 * List.length
              (flat_map (fun g => List.filter (pair_passes nodes (snd g)) (fst g))
                 gs))%nat.
Proof.
  unfold sweep. induction gs as [|g gs [IH1 IH2]]; first done.
  cbn [map gen_concat fold_right flat_map].
  rewrite gen_implied_app, gen_lines_app, !length_app.
  fold (gen_concat (map (fun g0 => generate_dummy_mpcs_for_pairs (fst g0) nodes eps
                                     dummy_eps_map ∅ (snd g0) eps_tol
                                     one_term_tol_default) gs)).
  rewrite IH1, IH2.
  destruct (generate_no_fixed (fst g) nodes eps dummy_eps_map (snd g) eps_tol
              one_term_tol_default) as [-> ->].
  split; [set_solver | lia].
Qed.

(** With no dof fixed by the caller the closure fixes none. *)
Lemma closure_no_fixed (face_pairings : FacePairings) (edge_pairings : EdgePairings)
    (vertex_pairings : list Pairing) (nodes : Nodes) (eps : Strain)
    (dummy_eps_map : DummyEpsMap) (eps_tol : float) :
  fst (fst (closure_generate_all_mpcs face_pairings edge_pairings vertex_pairings
              nodes eps dummy_eps_map ∅ eps_tol)) = ∅.
Proof.
  rewrite closure_fixed_eq. apply (closure_loop_closed _ _ _ _ _ 49).
  unfold closed. by rewrite (proj1 (sweep_no_fixed _ _ _ _ _)).
Qed.

(** ** The unit cube *)

Lemma inr_inj {A B} (a b : B) : @inr A B a = inr b -> a = b.
Proof. intros H. by injection H. Qed.

Lemma cube_detect_bounds : detect_bounds cube_nodes = inr cube_bounds.
Proof. by vm_compute. Qed.

Lemma cube_kinds : Forall (fun nd => kind nd = vertex) cube_classified.
Proof. by_evaluation. Qed.

Lemma cube_none_passes (k : Kind) (p : Pairing) :
  k <> vertex -> pair_passes cube_classified (Some k) p = false.
Proof.
  intros Hk. destruct (pair_passes cube_classified (Some k) p) eqn:Hp; [|done].
  apply pair_passes_kind in Hp as (a & b & Ha & _ & Hka & _).
  apply nodes_get_Some in Ha as [Hin _].
  pose proof cube_kinds as Hall. rewrite Forall_forall in Hall.
  apply list_elem_of_In, Hall in Hin. congruence.
Qed.

Lemma generate_none_passes (pair_list : list Pairing) (nodes : Nodes) (eps : Strain)
    (dummy_eps_map : DummyEpsMap) (fixed_dofs : FixedDofSet)
    (required_kind : option Kind) (eps_tol one_term_tol : float) :
  (forall p, pair_passes nodes required_kind p = false) ->
  generate_dummy_mpcs_for_pairs pair_list nodes eps dummy_eps_map fixed_dofs
    required_kind eps_tol one_term_tol = gen_empty.
Proof.
  intros H. rewrite generate_rounds.
  replace (List.filter (pair_passes nodes required_kind) pair_list) with (@nil Pairing);
    first done.
  induction pair_list as [|p pl IH]; first done.
  simpl. by rewrite H.
Qed.

Lemma dummy_terms_zero_row (dummy_eps_map : DummyEpsMap) (fixed_dofs : FixedDofSet)
    (i : Ix) (deltas : list (Ix * float)) :
  dummy_terms zero_row dummy_eps_map fixed_dofs eps_tol_default i deltas = ([], []).
Proof.
  induction deltas as [|[j dv] rest IH]; first done.
  cbn [dummy_terms]. rewrite IH.
  assert (PrimFloat.ltb (PrimFloat.abs (row_at zero_row j)) eps_tol_default = true)
    as -> by (destruct j; by vm_compute).
  done.
Qed.

Lemma float_to_str_one : float_to_str 1 = "1.0" /\ float_to_str (PrimFloat.abs (-1)) = "1.0".
Proof. split; by vm_compute. Qed.

Lemma append_assoc (a b c : string) : (a +:+ b) +:+ c = a +:+ (b +:+ c).
Proof.
  induction a as [|ch a IH]; first reflexivity.
  change (String ch ((a +:+ b) +:+ c) = String ch (a +:+ (b +:+ c))).
  by rewrite IH.
Qed.

(** The round of the generator for a vertex pairing of the cube. *)
Lemma cube_gen_dof (nodes : Nodes) (p : Pairing) (i : Ix) :
  gen_dof nodes zero_strain [] ∅ eps_tol_default one_term_tol_default p i
  = ([cube_line p (comp i)], ∅, []).
Proof.
  unfold gen_dof, assemble_terms. destruct (delta p) as [[dx dy] dz].
  replace (eps_row zero_strain i) with zero_row by (by destruct i).
  rewrite dummy_terms_zero_row, physical_terms_none, gen_app_warnings_only.
  cbn [app resolve_terms gen_lines gen_implied gen_warnings fst snd].
  unfold render_line, line_parts, first_part, later_part, cube_line.
  cbn [map Py.join].
  destruct float_to_str_one as [-> ->].
  assert (PrimFloat.leb 0 (-1) = false) as -> by by vm_compute.
  f_equal. f_equal. f_equal.
  rewrite !append_assoc. reflexivity.
Qed.

Lemma cube_generate_vertices (vp : list Pairing) :
  Forall (fun p => is_Some (nodes_get cube_classified (minus_node p))
                   /\ is_Some (nodes_get cube_classified (plus_node p))) vp ->
  generate_dummy_mpcs_for_pairs vp cube_classified zero_strain [] ∅ None
    eps_tol_default one_term_tol_default
  = (flat_map (fun p => [cube_line p u; cube_line p v; cube_line p w]) vp, ∅, []).
Proof.
  unfold generate_dummy_mpcs_for_pairs.
  induction vp as [|p vp IH]; intros Hall; first done.
  apply Forall_cons in Hall as [[[a Ha] [b Hb]] Hall].
  cbn [map gen_concat fold_right flat_map].
  fold (gen_concat (map (gen_pair cube_classified zero_strain [] ∅ None
                           eps_tol_default one_term_tol_default) vp)).
  rewrite (IH Hall). unfold gen_pair, pair_passes. rewrite Ha, Hb.
  cbn [map gen_concat fold_right]. rewrite !cube_gen_dof.
  cbn [gen_app gen_empty app comp].
  by rewrite !(left_id_L ∅ (∪)).
Qed.

(** C4, as the code has it. On the unit cube with zero strain, an empty
    map and no constraint from the caller, wherever the caller puts the
    labels A..H on the eight corners: no zero constraint is implied, the
    final set of fixed dofs is empty and there is no driver constraint; the
    run writes 12 equations, one for each of the four vertex pairings (A-G,
    D-F, B-H, E-C) and each dof, tying the plus node to the minus node. *)
Theorem C4_unit_cube (labels : VertexIds) (L : float * float * float)
    (R : Prepared) :
  prepare (cube_labelled labels L) = inr R ->
  fixed_final R = ∅
  /\ driver_constraints R = []
  /\ map pairing_ids (vertex_pairings R)
     = [ (labels vA, labels vG); (labels vD, labels vF);
         (labels vB, labels vH); (labels vE, labels vC) ]
  /\ mpc_lines R
     = flat_map (fun p => [cube_line p u; cube_line p v; cube_line p w])
         (vertex_pairings R)
  /\ List.length (mpc_lines R) = 12%nat.
Proof.
  intros HR.
  destruct (prepare_inr _ R HR) as (Hb & Hcl & Hfp & Hep & Hvp & Hc & Hd & _).
  cbn [nodes eps dummy_eps_map fixed_dofs vertex_ids cube_labelled] in *.
  rewrite cube_detect_bounds in Hb. apply inr_inj in Hb. rewrite <- Hb in Hcl.
  fold cube_classified in Hcl. rewrite Hcl in *.
  assert (Hff : fixed_final R = ∅).
  { pose proof (closure_no_fixed (face_pairings R) (edge_pairings R)
                  (vertex_pairings R) cube_classified zero_strain []
                  eps_tol_default) as H.
    by rewrite Hc in H. }
  apply vertex_pairings_ids in Hvp as [Hids Hsome].
  assert (Hlines : mpc_lines R
                   = flat_map (fun p => [cube_line p u; cube_line p v; cube_line p w])
                       (vertex_pairings R)).
  { pose proof (closure_lines (face_pairings R) (edge_pairings R)
                  (vertex_pairings R) cube_classified zero_strain [] ∅
                  eps_tol_default) as Hl.
    cbv zeta in Hl. rewrite Hc in Hl. cbn [fst snd] in Hl. rewrite Hl, Hff.
    unfold sweep, groups. rewrite !map_app, !gen_concat_app.
    rewrite !map_map.
    assert (Hnone : forall (A : Type) (l : list A) (f : A -> list Pairing) k,
              k <> vertex ->
              gen_concat (map (fun a => generate_dummy_mpcs_for_pairs (f a)
                                 cube_classified zero_strain [] ∅ (Some k)
                                 eps_tol_default one_term_tol_default) l)
              = gen_empty).
    { intros A l f k Hk. induction l as [|a l IH]; first done.
      cbn [map gen_concat fold_right].
      rewrite generate_none_passes by (intros; by apply cube_none_passes).
      rewrite gen_app_empty_l. exact IH. }
    cbn [fst snd].
    rewrite (Hnone _ _ (fun d => face_pairings_at (face_pairings R) d) face) by done.
    rewrite (Hnone _ _ (fun e : string * list Pairing => snd e) edge) by done.
    rewrite !gen_app_empty_l. cbn [map gen_concat fold_right fst snd].
    rewrite gen_app_empty_r. by rewrite (cube_generate_vertices _ Hsome). }
  split; [exact Hff | split; [|split; [exact Hids | split; [exact Hlines|]]]].
  - unfold build_driver_constraints in Hd. simpl in Hd. by apply inr_inj in Hd.
  - rewrite Hlines.
    assert (Hlen : List.length (vertex_pairings R) = 4%nat).
    { by rewrite <- (length_map pairing_ids), Hids. }
    destruct (vertex_pairings R) as [|p1 [|p2 [|p3 [|p4 [|]]]]]; done.
Qed.

Lemma C4_witness :
  exists R,
    prepare cube_free = inr R
    /\ fixed_final R = ∅
    /\ mpc_lines R
       = [ "  7 1.0 u  - 1 1.0 u = 0."; "  7 1.0 v  - 1 1.0 v = 0.";
           "  7 1.0 w  - 1 1.0 w = 0."; "  6 1.0 u  - 4 1.0 u = 0.";
           "  6 1.0 v  - 4 1.0 v = 0."; "  6 1.0 w  - 4 1.0 w = 0.";
           "  8 1.0 u  - 2 1.0 u = 0."; "  8 1.0 v  - 2 1.0 v = 0.";
           "  8 1.0 w  - 2 1.0 w = 0."; "  3 1.0 u  - 5 1.0 u = 0.";
           "  3 1.0 v  - 5 1.0 v = 0."; "  3 1.0 w  - 5 1.0 w = 0." ].
Proof.
  destruct (prepare cube_free) as [e|R] eqn:HR.
  - exfalso. vm_compute in HR. discriminate HR.
  - exists R. split; [reflexivity|].
    destruct (C4_unit_cube cube_vertex_ids (1, 1, 1)%float R HR)
      as (Hff & _ & _ & _ & _).
    split; [exact Hff|].
    apply (f_equal (fun r => match r with
                             | inr R' => mpc_lines R'
                             | inl _ => []
                             end)) in HR.
    rewrite <- HR. vm_compute. reflexivity.
Defined.

(** C4, as it is written, fails: on the unit cube the run writes 12
    equations, not none. *)
Lemma C4_counterexample : ~ cube_claim cube_free.
Proof.
  intros Hclaim.
  destruct (prepare cube_free) as [e|R] eqn:HR.
  - vm_compute in HR. discriminate HR.
  - destruct (Hclaim R HR) as [Hnone _].
    apply (f_equal (fun r => match r with
                             | inr R' => List.length (mpc_lines R')
                             | inl _ => 0%nat
                             end)) in HR.
    rewrite Hnone in HR. vm_compute in HR. discriminate HR.
Qed.

(** ** Examples *)

(** The second node line carries the id 3: the numbering error, with the
    line. *)
Lemma C7_witness :
  parse_nodes dec_int dec_float
    [ "DUMMY_EPS_MAP 0"; "1 0 0 0"; "3 1 0 0  # third"; "3, 1, 1, 0"; "1 2 3 4" ]
    1 3
  = inl (NotSequential 2 3 "3 1 0 0  # third").
Proof.
  destruct (proj1 (proj2 (proj2
              (C7_node_ids_sequential dec_int dec_float
                 [ "DUMMY_EPS_MAP 0"; "1 0 0 0"; "3 1 0 0  # third";
                   "3, 1, 1, 0"; "1 2 3 4" ] 1 3)))
              2 "3 1 0 0  # third" 3) as [H | H].
  - lia.
  - simpl. lia.
  - reflexivity.
  - exists "3", ["1"; "0"; "0"]. by vm_compute.
  - lia.
  - eexists. by vm_compute.
  - exact H.
  - exfalso. vm_compute in H. discriminate H.
Defined.

(** A pairing whose plus node is fixed in u, under a strain with eps11:
    for u the minus term and one dummy term are left, and make one line;
    with the minus node fixed too, the dummy term alone is left, and is
    reported; with the dummy dof fixed as well, nothing is left. *)
Example resolution_examples :
  let p := mkPairing 1 7 (1, 1, 1)%float in
  let strain := ((0.01, 0, 0), zero_row, zero_row)%float in
  let dmap := [((I1, I1), (100, 200, u))] in
  let run fixed := gen_dof cube_classified strain dmap fixed eps_tol_default
                     one_term_tol_default p I1 in
  run {[ (7, u) ]} = (["  1 -1.0 u  - 100 1.0 u = 0."], ∅, [])
  /\ run {[ (7, u); (100, u) ]} = ([], {[ (1, u) ]}, [])
  /\ run {[ (7, u); (1, u) ]}
     = ([], ∅, ["WARNING: single-term residual not auto-converted: (node 100, dof u, coeff -1.0)"])
  /\ run {[ (7, u); (1, u); (100, u) ]} = ([], ∅, []).
Proof. repeat split; by vm_compute. Qed.

(** ** The dictionaries the parser fills *)

Lemma sequential_ids_sorted (nodes : Nodes) (m n : Z) :
  map nid nodes = seqZ m n ->
  NoDup (map nid nodes) /\ StronglySorted (fun n1 n2 => nid n1 < nid n2) nodes.
Proof.
  intros H. split; first (rewrite H; apply NoDup_seqZ).
  revert m n H. induction nodes as [|nd nodes IH]; intros m n H; first constructor.
  destruct (Z.le_gt_cases n 0) as [Hn | Hn].
  { by rewrite seqZ_nil in H by lia. }
  rewrite seqZ_cons in H by lia. simpl in H. injection H as Hnd Hrest.
  constructor; first by eapply IH.
  apply Forall_forall. intros nd' Hin.
  assert (Hid : nid nd' ∈ seqZ (Z.succ m) (Z.pred n)).
  { rewrite <- Hrest. by apply list_elem_of_fmap_2. }
  apply elem_of_seqZ in Hid. lia.
Qed.

Lemma classify_keeps_ids (bounds : Bounds) (nodes : Nodes) (tol_rel : float) :
  map nid (classify_boundary_nodes bounds nodes tol_rel) = map nid nodes.
Proof. unfold classify_boundary_nodes. rewrite map_map. by apply map_ext. Qed.

(** The dictionary of a parsed file, once classified, has distinct ids in
    ascending order: what the statements on the pairings assume. *)
Lemma parsed_nodes_sorted (py_int : string -> option Z)
    (py_float : string -> option float) (lines : list string) (idx : nat)
    (n_nodes : Z) (nodes : Nodes) (bounds : Bounds) (tol_rel : float) :
  parse_nodes py_int py_float lines idx n_nodes = inr nodes ->
  NoDup (map nid (classify_boundary_nodes bounds nodes tol_rel))
  /\ StronglySorted (fun n1 n2 => nid n1 < nid n2)
       (classify_boundary_nodes bounds nodes tol_rel).
Proof.
  intros H. apply (sequential_ids_sorted _ 1 n_nodes).
  rewrite classify_keeps_ids. revert H. unfold parse_nodes.
  replace (Z.of_nat idx + n_nodes - Z.of_nat idx) with n_nodes by lia.
  destruct (_ <? _) eqn:Hlen; first done. apply Z.ltb_ge in Hlen.
  intros H. apply node_lines_ids in H as (new & -> & Hnew). simpl. rewrite Hnew.
  rewrite length_take, length_drop.
  destruct (Z.le_gt_cases n_nodes 0); [by rewrite !seqZ_nil by lia|].
  f_equal. lia.
Qed.

(* ===================================================================== *)
(** * Further properties *)
(* ===================================================================== *)

(** ** The terms of an equation *)

Lemma physical_terms_free (fixed_dofs : FixedDofSet) (p : Pairing) (dof : Dof)
    (t : Term) :
  In t (physical_terms fixed_dofs p dof) -> (term_node t, term_dof t) ∉ fixed_dofs.
Proof.
  unfold physical_terms. intros H. apply in_app_or in H as [H | H].
  - case_bool_decide as Hf; [done|]. by destruct H as [<- | []].
  - case_bool_decide as Hf; [done|]. by destruct H as [<- | []].
Qed.

(** What the loop over the deltas appends: at most one term for each
    delta, each a dummy term that is not on a fixed dof. *)
Lemma dummy_terms_spec (eps : Strain) (dummy_eps_map : DummyEpsMap)
    (fixed_dofs : FixedDofSet) (eps_tol : float) (p : Pairing) (i : Ix)
    (js : list Ix) :
  let ds := fst (dummy_terms (eps_row eps i) dummy_eps_map fixed_dofs eps_tol i
                   (map (fun j => (j, delta_at p j)) js)) in
  (List.length ds <= List.length js)%nat
  /\ Forall (fun t => is_dummy_term eps dummy_eps_map eps_tol p i t
                      /\ (term_node t, term_dof t) ∉ fixed_dofs) ds.
Proof.
  induction js as [|j js IH]; first (split; [done | constructor]).
  cbn [map dummy_terms].
  destruct (dummy_terms _ _ _ _ _ (map _ js)) as [ts ws]. cbn [fst] in IH |- *.
  destruct IH as [IHlen IHall].
  destruct (PrimFloat.ltb (PrimFloat.abs (row_at (eps_row eps i) j)) eps_tol) eqn:Hlt;
    [cbn [orb fst]; split; [simpl; lia | done]|].
  destruct (PrimFloat.eqb (delta_at p j) 0) eqn:Hz;
    [cbn [orb fst]; split; [simpl; lia | done]|].
  cbn [orb].
  destruct (dmap_get dummy_eps_map (i, j)) as [[[dn drv] ddof]|] eqn:Hm;
    [|cbn [fst]; split; [simpl; lia | done]].
  case_bool_decide as Hf; [cbn [fst]; split; [simpl; lia | done]|].
  cbn [fst]. split; [simpl; lia|]. constructor; [|done].
  split; [|done]. by exists j, drv.
Qed.

Lemma assemble_terms_split (eps : Strain) (dummy_eps_map : DummyEpsMap)
    (fixed_dofs : FixedDofSet) (eps_tol : float) (p : Pairing) (i : Ix) :
  fst (assemble_terms eps dummy_eps_map fixed_dofs eps_tol p i)
  = physical_terms fixed_dofs p (comp i)
    ++ fst (dummy_terms (eps_row eps i) dummy_eps_map fixed_dofs eps_tol i
              (map (fun j => (j, delta_at p j)) [I1; I2; I3])).
Proof.
  unfold assemble_terms, delta_at. destruct (delta p) as [[dx dy] dz].
  cbn [map row_at]. by destruct (dummy_terms _ _ _ _ _ _).
Qed.

Lemma terms_shape (eps : Strain) (dummy_eps_map : DummyEpsMap)
    (fixed_dofs : FixedDofSet) (eps_tol : float) (p : Pairing) (i : Ix) :
  exists phys ds,
    fst (assemble_terms eps dummy_eps_map fixed_dofs eps_tol p i) = phys ++ ds
    /\ phys = (if bool_decide ((plus_node p, comp i) ∈ fixed_dofs) then []
               else [(1%float, plus_node p, comp i)])
              ++ (if bool_decide ((minus_node p, comp i) ∈ fixed_dofs) then []
                  else [((-1)%float, minus_node p, comp i)])
    /\ (List.length ds <= 3)%nat
    /\ Forall (is_dummy_term eps dummy_eps_map eps_tol p i) ds
    /\ Forall (fun t => (term_node t, term_dof t) ∉ fixed_dofs) (phys ++ ds).
Proof.
  eexists _, _. split; [apply assemble_terms_split|].
  split; [reflexivity|].
  destruct (dummy_terms_spec eps dummy_eps_map fixed_dofs eps_tol p i [I1; I2; I3])
    as [Hlen Hall].
  split; [exact Hlen|]. split.
  - eapply Forall_impl; [exact Hall|]. by intros t [? _].
  - apply Forall_app. split.
    + apply Forall_forall. intros t Ht. apply list_elem_of_In in Ht.
      by apply physical_terms_free in Ht.
    + eapply Forall_impl; [exact Hall|]. by intros t [_ ?].
Qed.

(** X1: the list of terms assembled for a pairing and a component is the
    physical terms that are left (the plus term with coefficient 1, then the
    minus term with coefficient -1), followed by at most three dummy terms;
    a dummy term has the node and dof the map gives for a strain component
    that is not negligible, with minus the delta of the pairing, not zero,
    as coefficient; and no term is on a fixed dof. *)
Theorem X1_terms_of_an_equation (eps : Strain) (dummy_eps_map : DummyEpsMap)
    (fixed_dofs : FixedDofSet) (eps_tol : float) (p : Pairing) (i : Ix) :
  exists phys ds,
    fst (assemble_terms eps dummy_eps_map fixed_dofs eps_tol p i) = phys ++ ds
    /\ phys = (if bool_decide ((plus_node p, comp i) ∈ fixed_dofs) then []
               else [(1%float, plus_node p, comp i)])
              ++ (if bool_decide ((minus_node p, comp i) ∈ fixed_dofs) then []
                  else [((-1)%float, minus_node p, comp i)])
    /\ (List.length ds <= 3)%nat
    /\ Forall (is_dummy_term eps dummy_eps_map eps_tol p i) ds
    /\ Forall (fun t => (term_node t, term_dof t) ∉ fixed_dofs) (phys ++ ds).
Proof. apply terms_shape. Qed.

Lemma sweep_equations_In (gs : list (list Pairing * option Kind)) (nodes : Nodes)
    (eps : Strain) (dummy_eps_map : DummyEpsMap) (fixed : FixedDofSet)
    (eps_tol : float) (ts : list Term) :
  In ts (sweep_equations gs nodes eps dummy_eps_map fixed eps_tol) ->
  exists g p i,
    In g gs /\ In p (fst g) /\ pair_passes nodes (snd g) p = true
    /\ ts = fst (assemble_terms eps dummy_eps_map fixed eps_tol p i)
    /\ (2 <= List.length ts)%nat.
Proof.
  unfold sweep_equations. intros H. apply in_flat_map in H as (g & Hg & H).
  pose proof H as H'. unfold gen_equations in H'. apply filter_In in H' as [_ Hlen].
  apply Nat.leb_le in Hlen.
  apply gen_equations_In in H as (p & i & Hp & Ha & ->). by exists g, p, i.
Qed.

(** X2: in a successful run, every equation written has between two and
    five terms, none of them on a dof of the final set of zero constraints;
    the lines of the multipoint block are the renderings of these equations,
    one line for each. *)
Theorem X2_equations_of_a_run (P : Parsed) (R : Prepared) :
  prepare P = inr R ->
  mpc_lines R = map render_line (run_equations P R)
  /\ forall ts, In ts (run_equations P R) ->
       (2 <= List.length ts <= 5)%nat
       /\ forall t, In t ts -> (term_node t, term_dof t) ∉ fixed_final R.
Proof.
  intros HR. split; first by apply run_lines_eq.
  intros ts Hts. unfold run_equations in Hts.
  apply sweep_equations_In in Hts as (g & p & i & _ & _ & _ & -> & Hlen).
  destruct (terms_shape (eps P) (dummy_eps_map P) (fixed_final R)
              eps_tol_default p i) as (phys & ds & Heq & Hphys & Hds & _ & Hfree).
  rewrite Heq in *. split.
  - split; [exact Hlen|]. rewrite length_app, Hphys, length_app.
    repeat case_bool_decide; simpl; lia.
  - intros t Ht. rewrite Forall_forall in Hfree.
    by apply Hfree, list_elem_of_In.
Qed.

Lemma X2_witness :
  exists R, prepare cube_driven = inr R
            /\ forall ts, In ts (run_equations cube_driven R) ->
                 (2 <= List.length ts <= 5)%nat.
Proof.
  destruct (prepare cube_driven) as [e|R] eqn:HR.
  - exfalso. vm_compute in HR. discriminate HR.
  - exists R. split; [reflexivity|]. intros ts Hts.
    exact (proj1 (proj2 (X2_equations_of_a_run cube_driven R HR) ts Hts)).
Defined.


(** ** The outcomes of a run *)

Lemma detect_bounds_nil : detect_bounds [] = inl EmptySequence.
Proof. reflexivity. Qed.

Lemma detect_bounds_cons (nd : Node) (nodes : Nodes) :
  exists b, detect_bounds (nd :: nodes) = inr b.
Proof. unfold detect_bounds. simpl. by eexists. Qed.






(** The file of a successful run: comment lines, the constraints block,
    the multipoint section. *)
Lemma main_writes (in_name : string) (emit_symbolic : bool) (P : Parsed)
    (file : FileState) (R : Prepared) :
  prepare P = inr R ->
  exists pre,
    main in_name emit_symbolic P file
    = (Some (pre ++ constraints_lines (fixed_final R) (driver_constraints R)
                 ++ multipoint_lines R), inr tt)
    /\ Forall (fun s => is_comment s = true) pre.
Proof.
  intros HR.
  destruct (prepare_inr P R HR) as (_ & _ & _ & _ & _ & _ & _ & Hcheck).
  assert (Hpre : Comments (write_header in_name P R ;;;
                           (if emit_symbolic then write_symbolic R else out_ret tt))).
  { apply comments_seq; [apply comments_header|].
    apply comments_if; [apply comments_symbolic | apply comments_ret]. }
  destruct Hpre as (pre & Hpre & Hcom).
  exists pre. split; [|exact Hcom].
  unfold main. rewrite HR. unfold write_output.
  assert (He : Emits
    (write_header in_name P R ;;;
     (if emit_symbolic then write_symbolic R else out_ret tt) ;;;
     emit_constraints_block (fixed_final R) (driver_constraints R) ;;;
     write_mpcs R)
    (pre ++ constraints_lines (fixed_final R) (driver_constraints R)
         ++ multipoint_lines R)).
  { intros o. unfold out_bind at 1.
    destruct (write_header in_name P R o) as [o1 [e1|[]]] eqn:H1.
    - specialize (Hpre o). unfold out_bind in Hpre. rewrite H1 in Hpre. done.
    - unfold out_bind at 1.
      specialize (Hpre o). unfold out_bind in Hpre. rewrite H1 in Hpre.
      rewrite Hpre.
      rewrite (emits_seq _ _ _ _
                 (emits_constraints_block _ _ (conflict_check_ok _ _ Hcheck))
                 (emits_mpcs R)).
      by rewrite <- app_assoc. }
  by rewrite (He []).
Qed.




(** ** What the closure adds *)

Lemma resolve_terms_implied (nodes : Nodes) (one_term_tol : float)
    (terms : list Term) (k : Z * Dof) :
  k ∈ gen_implied (resolve_terms nodes one_term_tol terms) ->
  is_physical nodes (fst k) = true
  /\ exists c, terms = [(c, fst k, snd k)]
               /\ is_close (PrimFloat.abs c) 1 one_term_tol = true.
Proof.
  destruct terms as [|[[c n] d] [|t2 ts]]; cbn [resolve_terms].
  - unfold gen_implied, gen_empty. simpl. set_solver.
  - destruct (is_physical nodes n) eqn:Hp;
      destruct (is_close (PrimFloat.abs c) 1 one_term_tol) eqn:Hc;
      unfold gen_implied; simpl; [|set_solver..].
    intros Hk. apply elem_of_singleton in Hk as ->. simpl.
    split; [done | by exists c].
  - unfold gen_implied. simpl. set_solver.
Qed.

Lemma gen_dof_implied (nodes : Nodes) (eps : Strain) (dummy_eps_map : DummyEpsMap)
    (fixed_dofs : FixedDofSet) (eps_tol one_term_tol : float) (p : Pairing)
    (i : Ix) (k : Z * Dof) :
  k ∈ gen_implied (gen_dof nodes eps dummy_eps_map fixed_dofs eps_tol
                     one_term_tol p i) ->
  is_physical nodes (fst k) = true
  /\ exists c, fst (assemble_terms eps dummy_eps_map fixed_dofs eps_tol p i)
               = [(c, fst k, snd k)]
               /\ is_close (PrimFloat.abs c) 1 one_term_tol = true.
Proof.
  unfold gen_dof. destruct (assemble_terms _ _ _ _ _ _) as [terms ws].
  rewrite gen_app_warnings_only. cbn [gen_implied fst snd].
  apply resolve_terms_implied.
Qed.

Lemma generate_implied (pair_list : list Pairing) (nodes : Nodes) (eps : Strain)
    (dummy_eps_map : DummyEpsMap) (fixed_dofs : FixedDofSet)
    (required_kind : option Kind) (eps_tol one_term_tol : float) (k : Z * Dof) :
  k ∈ gen_implied (generate_dummy_mpcs_for_pairs pair_list nodes eps
                     dummy_eps_map fixed_dofs required_kind eps_tol one_term_tol)
  <-> exists p i,
        In p pair_list /\ pair_passes nodes required_kind p = true
        /\ k ∈ gen_implied (gen_dof nodes eps dummy_eps_map fixed_dofs eps_tol
                              one_term_tol p i).
Proof.
  rewrite generate_rounds, gen_implied_concat. split.
  - intros (g & Hg & Hk). apply in_flat_map in Hg as (p & Hp & Hg).
    apply filter_In in Hp as [Hp Hpass].
    apply in_map_iff in Hg as (i & <- & _). by exists p, i.
  - intros (p & i & Hp & Hpass & Hk). eexists. split; [|exact Hk].
    apply in_flat_map. exists p. split; [by apply filter_In|].
    apply in_map_iff. exists i. split; [done|]. destruct i; simpl; tauto.
Qed.

Lemma sweep_implied (gs : list (list Pairing * option Kind)) (nodes : Nodes)
    (eps : Strain) (dummy_eps_map : DummyEpsMap) (fixed : FixedDofSet)
    (eps_tol : float) (k : Z * Dof) :
  k ∈ gen_implied (sweep gs nodes eps dummy_eps_map fixed eps_tol)
  <-> exists g p i,
        In g gs /\ In p (fst g) /\ pair_passes nodes (snd g) p = true
        /\ k ∈ gen_implied (gen_dof nodes eps dummy_eps_map fixed eps_tol
                              one_term_tol_default p i).
Proof.
  unfold sweep. rewrite gen_implied_concat. split.
  - intros (r & Hr & Hk). apply in_map_iff in Hr as (g & <- & Hg).
    apply generate_implied in Hk as (p & i & Hp & Hpass & Hk). by exists g, p, i.
  - intros (g & p & i & Hg & Hp & Hpass & Hk). eexists. split.
    + apply in_map_iff. exists g. split; [reflexivity | exact Hg].
    + apply generate_implied. by exists p, i.
Qed.

(** A constraint implied in a sweep is on a node of the dictionary, and
    outside the set the sweep ran under. *)
Lemma sweep_implied_new (gs : list (list Pairing * option Kind)) (nodes : Nodes)
    (eps : Strain) (dummy_eps_map : DummyEpsMap) (fixed : FixedDofSet)
    (eps_tol : float) (k : Z * Dof) :
  k ∈ gen_implied (sweep gs nodes eps dummy_eps_map fixed eps_tol) ->
  is_physical nodes (fst k) = true /\ k ∉ fixed.
Proof.
  intros Hk. apply sweep_implied in Hk as (g & p & i & _ & _ & _ & Hk).
  apply gen_dof_implied in Hk as (Hp & c & Hterms & _). split; [exact Hp|].
  destruct (terms_shape eps dummy_eps_map fixed eps_tol p i)
    as (phys & ds & Heq & _ & _ & _ & Hfree).
  rewrite <- Heq, Hterms in Hfree. apply Forall_cons in Hfree as [Hfree _].
  by destruct k.
Qed.

Lemma fixed_after_physical (gs : list (list Pairing * option Kind)) (nodes : Nodes)
    (eps : Strain) (dummy_eps_map : DummyEpsMap) (eps_tol : float) (k : nat)
    (F : FixedDofSet) (key : Z * Dof) :
  key ∈ fixed_after k gs nodes eps dummy_eps_map eps_tol F ->
  key ∈ F \/ is_physical nodes (fst key) = true.
Proof.
  revert F. induction k as [|k IH]; intros F; first by left.
  intros H. apply IH in H as [H | H]; [|by right].
  unfold closure_step in H. apply elem_of_union in H as [H | H]; first by left.
  apply elem_of_difference in H as [H _].
  right. by apply sweep_implied_new in H as [? _].
Qed.

Lemma is_physical_In (nodes : Nodes) (n : Z) :
  is_physical nodes n = true <-> exists nd, In nd nodes /\ nid nd = n.
Proof.
  unfold is_physical, nodes_get. rewrite bool_decide_eq_true. split.
  - intros [nd Hf]. apply find_some in Hf as [Hin Heq].
    apply bool_decide_eq_true in Heq. by exists nd.
  - intros (nd & Hin & Heq).
    destruct (List.find _ nodes) as [nd'|] eqn:Hf; first by eexists.
    apply (find_none _ _ Hf) in Hin. apply bool_decide_eq_false in Hin. done.
Qed.

(** X4: the closure zero-constrains nodes of the node dictionary only. A
    pair (node, dof) of the set it returns is a pair of the initial set, or
    its node is a node of the dictionary: a dof of a dummy node or of a
    driver node that is not in the dictionary is never added, whatever the
    equations reduce to. *)
Theorem X4_closure_adds_physical_dofs (face_pairings : FacePairings)
    (edge_pairings : EdgePairings) (vertex_pairings : list Pairing)
    (nodes : Nodes) (eps : Strain) (dummy_eps_map : DummyEpsMap)
    (fixed_initial : FixedDofSet) (eps_tol : float) (n : Z) (d : Dof) :
  (n, d) ∈ fst (fst (closure_generate_all_mpcs face_pairings edge_pairings
                       vertex_pairings nodes eps dummy_eps_map fixed_initial
                       eps_tol)) ->
  (n, d) ∈ fixed_initial \/ exists nd, In nd nodes /\ nid nd = n.
Proof.
  rewrite closure_fixed_eq.
  destruct (closure_loop_rounds (groups face_pairings edge_pairings vertex_pairings)
              nodes eps dummy_eps_map eps_tol 50 fixed_initial [])
    as (k & _ & -> & _).
  intros H. apply fixed_after_physical in H as [H | H]; [by left | right].
  by apply is_physical_In in H.
Qed.

Lemma X4_witness :
  (7, u) ∈ fst (fst (closure_generate_all_mpcs
                       (build_face_pairings cube_classified)
                       (build_edge_pairings cube_classified)
                       (match build_vertex_pairings_from_vertices cube_classified
                                cube_vertex_ids with
                        | inr vp => vp | inl _ => [] end)
                       cube_classified zero_strain [] node1_u
                       eps_tol_default))
  /\ ((7, u) ∉ node1_u)
  /\ exists nd, In nd cube_classified /\ nid nd = 7.
Proof.
  assert (H : (7, u) ∈ fst (fst (closure_generate_all_mpcs
                       (build_face_pairings cube_classified)
                       (build_edge_pairings cube_classified)
                       (match build_vertex_pairings_from_vertices cube_classified
                                cube_vertex_ids with
                        | inr vp => vp | inl _ => [] end)
                       cube_classified zero_strain [] node1_u
                       eps_tol_default))) by by_evaluation.
  split; [exact H|]. split; [by_evaluation|].
  destruct (X4_closure_adds_physical_dofs _ _ _ _ _ _ _ _ _ _ H) as [Hin | Hnd];
    [|exact Hnd].
  exfalso. revert Hin. by_evaluation.
Defined.


(** ** The warnings and the iteration limit *)

Lemma missing_map_warning_tag (i j : Ix) :
  warning_tag (missing_map_warning i j) = Some "e"%char.
Proof. reflexivity. Qed.

Lemma residual_warning_tag (t : Term) :
  warning_tag (residual_warning t) = Some "s"%char.
Proof. by destruct t as [[c n] d]. Qed.

Lemma limit_warning_tag : warning_tag limit_warning = Some "i"%char.
Proof. reflexivity. Qed.

Lemma missing_map_warning_inj (i j i' j' : Ix) :
  missing_map_warning i j = missing_map_warning i' j' -> i = i' /\ j = j'.
Proof.
  intros H. apply (f_equal (fun s => (String.get 13 s, String.get 14 s))) in H.
  by destruct i, j, i', j'; vm_compute in H.
Qed.

(** The warnings of the loop over the deltas: one for each component that
    counts, has a nonzero delta and is missing from the map. *)
Lemma dummy_terms_warnings (row : Row) (dummy_eps_map : DummyEpsMap)
    (fixed_dofs : FixedDofSet) (eps_tol : float) (i : Ix)
    (deltas : list (Ix * float)) (s : string) :
  In s (snd (dummy_terms row dummy_eps_map fixed_dofs eps_tol i deltas))
  <-> exists j dv,
        In (j, dv) deltas /\ s = missing_map_warning i j
        /\ dmap_get dummy_eps_map (i, j) = None
        /\ PrimFloat.ltb (PrimFloat.abs (row_at row j)) eps_tol = false
        /\ PrimFloat.eqb dv 0 = false.
Proof.
  induction deltas as [|[j dv] rest IH].
  { simpl. split; [done | by intros (? & ? & [] & _)]. }
  cbn [dummy_terms].
  destruct (dummy_terms row dummy_eps_map fixed_dofs eps_tol i rest) as [ts ws].
  cbn [snd] in IH.
  assert (Hrest : In s ws <-> exists j0 dv0,
             In (j0, dv0) rest /\ s = missing_map_warning i j0
             /\ dmap_get dummy_eps_map (i, j0) = None
             /\ PrimFloat.ltb (PrimFloat.abs (row_at row j0)) eps_tol = false
             /\ PrimFloat.eqb dv0 0 = false) by exact IH.
  clear IH.
  assert (Hskip : (PrimFloat.ltb (PrimFloat.abs (row_at row j)) eps_tol
                   || PrimFloat.eqb dv 0 = true
                   \/ dmap_get dummy_eps_map (i, j) <> None) ->
            (In s ws <-> exists j0 dv0,
               In (j0, dv0) ((j, dv) :: rest) /\ s = missing_map_warning i j0
               /\ dmap_get dummy_eps_map (i, j0) = None
               /\ PrimFloat.ltb (PrimFloat.abs (row_at row j0)) eps_tol = false
               /\ PrimFloat.eqb dv0 0 = false)).
  { intros Hs. rewrite Hrest. split.
    - intros (j0 & dv0 & Hin & H). exists j0, dv0. split; [by right | done].
    - intros (j0 & dv0 & [Heq | Hin] & Hw & Hm & Hl & Hd); [|by exists j0, dv0].
      injection Heq as <- <-. exfalso. destruct Hs as [Hs | Hs]; [|done].
      by rewrite Hl, Hd in Hs. }
  destruct (PrimFloat.ltb (PrimFloat.abs (row_at row j)) eps_tol
            || PrimFloat.eqb dv 0) eqn:Hguard.
  { cbn [snd]. apply Hskip. by left. }
  destruct (dmap_get dummy_eps_map (i, j)) as [[[dn drv] ddof]|] eqn:Hm.
  { assert (In s (snd (if bool_decide ((dn, ddof) ∈ fixed_dofs) then (ts, ws)
                       else ((PrimFloat.opp dv, dn, ddof) :: ts, ws)))
            <-> In s ws) as -> by (by destruct (bool_decide _)).
    apply Hskip. by right. }
  cbn [snd]. apply orb_false_iff in Hguard as [Hl Hd]. split.
  - intros [<- | Hin].
    + exists j, dv. split; [by left | done].
    + apply Hrest in Hin as (j0 & dv0 & Hin & H).
      exists j0, dv0. split; [by right | done].
  - intros (j0 & dv0 & [Heq | Hin] & Hw & H).
    + injection Heq as <- <-. by left.
    + right. apply Hrest. by exists j0, dv0.
Qed.

Lemma assemble_terms_warnings (eps : Strain) (dummy_eps_map : DummyEpsMap)
    (fixed_dofs : FixedDofSet) (eps_tol : float) (p : Pairing) (i : Ix)
    (s : string) :
  In s (snd (assemble_terms eps dummy_eps_map fixed_dofs eps_tol p i))
  <-> exists j,
        s = missing_map_warning i j
        /\ dmap_get dummy_eps_map (i, j) = None
        /\ PrimFloat.ltb (PrimFloat.abs (eps_at eps i j)) eps_tol = false
        /\ PrimFloat.eqb (delta_at p j) 0 = false.
Proof.
  unfold assemble_terms, delta_at, eps_at. destruct (delta p) as [[dx dy] dz].
  pose proof (dummy_terms_warnings (eps_row eps i) dummy_eps_map fixed_dofs eps_tol
                i [(I1, dx); (I2, dy); (I3, dz)] s) as H.
  destruct (dummy_terms _ _ _ _ _ _) as [ds ws]. cbn [snd] in *.
  rewrite H. split.
  - intros (j & dv & Hin & Hw & Hm & Hl & Hd). exists j.
    repeat split; try done.
    destruct Hin as [[= <- <-] | [[= <- <-] | [[= <- <-] | []]]]; done.
  - intros (j & Hw & Hm & Hl & Hd). exists j, (row_at (dx, dy, dz) j).
    repeat split; try done. destruct j; simpl; tauto.
Qed.

Lemma resolve_terms_warnings (nodes : Nodes) (one_term_tol : float)
    (terms : list Term) (s : string) :
  In s (gen_warnings (resolve_terms nodes one_term_tol terms))
  <-> exists t, terms = [t] /\ s = residual_warning t
                /\ is_physical nodes (term_node t)
                   && is_close (PrimFloat.abs (term_coeff t)) 1 one_term_tol
                   = false.
Proof.
  destruct terms as [|[[c n] d] [|t2 ts]]; cbn [resolve_terms].
  - split; [done | by intros (t & ? & _)].
  - unfold term_node, term_coeff.
    destruct (is_physical nodes n && is_close (PrimFloat.abs c) 1 one_term_tol)
      eqn:Hb; cbn [gen_warnings snd].
    + split; [done|]. intros (t & [= <-] & _ & H). simpl in H. congruence.
    + split.
      * intros [<- | []]. by exists (c, n, d).
      * intros (t & [= <-] & -> & _). by left.
  - split; [done | by intros (t & ? & _)].
Qed.

(** The warnings of the round for a pairing and a component. *)
Lemma gen_dof_warnings (nodes : Nodes) (eps : Strain) (dummy_eps_map : DummyEpsMap)
    (fixed_dofs : FixedDofSet) (eps_tol one_term_tol : float) (p : Pairing)
    (i : Ix) (s : string) :
  In s (gen_warnings (gen_dof nodes eps dummy_eps_map fixed_dofs eps_tol
                        one_term_tol p i))
  <-> (exists j,
         s = missing_map_warning i j
         /\ dmap_get dummy_eps_map (i, j) = None
         /\ PrimFloat.ltb (PrimFloat.abs (eps_at eps i j)) eps_tol = false
         /\ PrimFloat.eqb (delta_at p j) 0 = false)
      \/ (exists t,
            fst (assemble_terms eps dummy_eps_map fixed_dofs eps_tol p i) = [t]
            /\ s = residual_warning t
            /\ is_physical nodes (term_node t)
               && is_close (PrimFloat.abs (term_coeff t)) 1 one_term_tol = false).
Proof.
  rewrite <- assemble_terms_warnings with (fixed_dofs := fixed_dofs).
  unfold gen_dof. destruct (assemble_terms _ _ _ _ _ _) as [terms ws].
  rewrite gen_app_warnings_only. cbn [gen_warnings fst snd].
  rewrite in_app_iff.
  by rewrite <- (resolve_terms_warnings nodes one_term_tol terms s).
Qed.

Lemma generate_warnings (pair_list : list Pairing) (nodes : Nodes) (eps : Strain)
    (dummy_eps_map : DummyEpsMap) (fixed_dofs : FixedDofSet)
    (required_kind : option Kind) (eps_tol one_term_tol : float) (s : string) :
  In s (gen_warnings (generate_dummy_mpcs_for_pairs pair_list nodes eps
                        dummy_eps_map fixed_dofs required_kind eps_tol
                        one_term_tol))
  <-> exists p i,
        In p pair_list /\ pair_passes nodes required_kind p = true
        /\ In s (gen_warnings (gen_dof nodes eps dummy_eps_map fixed_dofs eps_tol
                                 one_term_tol p i)).
Proof.
  rewrite generate_rounds, gen_warnings_concat, in_concat. split.
  - intros (l & Hl & Hs). apply in_map_iff in Hl as (g & <- & Hg).
    apply in_flat_map in Hg as (p & Hp & Hg).
    apply filter_In in Hp as [Hp Hpass].
    apply in_map_iff in Hg as (i & <- & _). by exists p, i.
  - intros (p & i & Hp & Hpass & Hs). eexists. split; [|exact Hs].
    apply in_map_iff. eexists. split; [reflexivity|].
    apply in_flat_map. exists p. split; [by apply filter_In|].
    apply in_map_iff. exists i. split; [done|]. destruct i; simpl; tauto.
Qed.

Lemma sweep_warnings (gs : list (list Pairing * option Kind)) (nodes : Nodes)
    (eps : Strain) (dummy_eps_map : DummyEpsMap) (fixed : FixedDofSet)
    (eps_tol : float) (s : string) :
  In s (gen_warnings (sweep gs nodes eps dummy_eps_map fixed eps_tol))
  <-> exists g p i,
        In g gs /\ In p (fst g) /\ pair_passes nodes (snd g) p = true
        /\ In s (gen_warnings (gen_dof nodes eps dummy_eps_map fixed eps_tol
                                 one_term_tol_default p i)).
Proof.
  unfold sweep. rewrite gen_warnings_concat, in_concat. split.
  - intros (l & Hl & Hs). apply in_map_iff in Hl as (r & <- & Hr).
    apply in_map_iff in Hr as (g & <- & Hg).
    apply generate_warnings in Hs as (p & i & Hp & Hpass & Hs). by exists g, p, i.
  - intros (g & p & i & Hg & Hp & Hpass & Hs). eexists. split.
    + apply in_map_iff. eexists. split; [reflexivity|].
      apply in_map_iff. exists g. split; [reflexivity | exact Hg].
    + apply generate_warnings. by exists p, i.
Qed.

Lemma sweep_warnings_tag (gs : list (list Pairing * option Kind)) (nodes : Nodes)
    (eps : Strain) (dummy_eps_map : DummyEpsMap) (fixed : FixedDofSet)
    (eps_tol : float) (s : string) :
  In s (gen_warnings (sweep gs nodes eps dummy_eps_map fixed eps_tol)) ->
  warning_tag s = Some "e"%char \/ warning_tag s = Some "s"%char.
Proof.
  intros H. apply sweep_warnings in H as (g & p & i & _ & _ & _ & H).
  apply gen_dof_warnings in H as [(j & -> & _) | (t & _ & -> & _)].
  - left. apply missing_map_warning_tag.
  - right. apply residual_warning_tag.
Qed.

Lemma sweep_no_limit_warning (gs : list (list Pairing * option Kind))
    (nodes : Nodes) (eps : Strain) (dummy_eps_map : DummyEpsMap)
    (fixed : FixedDofSet) (eps_tol : float) :
  ~ In limit_warning (gen_warnings (sweep gs nodes eps dummy_eps_map fixed eps_tol)).
Proof.
  intros H. apply sweep_warnings_tag in H. rewrite limit_warning_tag in H.
  by destruct H.
Qed.

(** The loop stops on a closed set without adding the limit warning, or
    has added a dof in each of its rounds. *)
Lemma closure_loop_cap (gs : list (list Pairing * option Kind)) (nodes : Nodes)
    (eps : Strain) (dummy_eps_map : DummyEpsMap) (eps_tol : float) (fuel : nat)
    (F : FixedDofSet) (ws : list string) :
  (closed gs nodes eps dummy_eps_map eps_tol
     (fst (closure_loop fuel gs nodes eps dummy_eps_map eps_tol F ws))
   /\ (In limit_warning
         (snd (closure_loop fuel gs nodes eps dummy_eps_map eps_tol F ws)) ->
       In limit_warning ws))
  \/ (size F + fuel
      <= size (fst (closure_loop fuel gs nodes eps dummy_eps_map eps_tol F ws)))%nat.
Proof.
  revert F ws. induction fuel as [|fuel IH]; intros F ws.
  { right. simpl. lia. }
  cbn [closure_loop]. cbv zeta.
  destruct (bool_decide (gen_implied (sweep gs nodes eps dummy_eps_map F eps_tol)
                         ∖ F = ∅)) eqn:Hb.
  - left. apply bool_decide_eq_true in Hb. cbn [fst snd].
    split; [by apply break_iff_closed|].
    intros H. apply in_app_or in H as [H | H]; first done.
    by apply sweep_no_limit_warning in H.
  - apply bool_decide_eq_false in Hb.
    set (new := gen_implied (sweep gs nodes eps dummy_eps_map F eps_tol) ∖ F) in *.
    destruct (IH (F ∪ new)
                (ws ++ gen_warnings (sweep gs nodes eps dummy_eps_map F eps_tol)))
      as [[Hc Hl] | Hsz].
    + left. split; [exact Hc|]. intros H. apply Hl, in_app_or in H as [H | H];
        first done.
      by apply sweep_no_limit_warning in H.
    + right. rewrite size_union in Hsz by set_solver.
      assert (size new <> 0%nat).
      { intros H0. apply size_empty_iff in H0. apply Hb. by apply leibniz_equiv. }
      lia.
Qed.

(** X5: the closure gives up only after 50 rounds that each added a zero
    constraint. When the set it returns has fewer than 50 pairs more than
    the initial set, that set is closed (a sweep under it implies nothing
    outside it) and the warning of the iteration limit is not among the
    warnings returned. *)
Theorem X5_closure_limit (face_pairings : FacePairings)
    (edge_pairings : EdgePairings) (vertex_pairings : list Pairing)
    (nodes : Nodes) (eps : Strain) (dummy_eps_map : DummyEpsMap)
    (fixed_initial : FixedDofSet) (eps_tol : float) :
  (size (fst (fst (closure_generate_all_mpcs face_pairings edge_pairings
                     vertex_pairings nodes eps dummy_eps_map fixed_initial
                     eps_tol)))
   < size fixed_initial + 50)%nat ->
  closed (groups face_pairings edge_pairings vertex_pairings) nodes eps
    dummy_eps_map eps_tol
    (fst (fst (closure_generate_all_mpcs face_pairings edge_pairings
                 vertex_pairings nodes eps dummy_eps_map fixed_initial eps_tol)))
  /\ ~ In limit_warning
         (snd (closure_generate_all_mpcs face_pairings edge_pairings
                 vertex_pairings nodes eps dummy_eps_map fixed_initial eps_tol)).
Proof.
  unfold closure_generate_all_mpcs. generalize 50%nat. intros fuel.
  pose proof (closure_loop_cap (groups face_pairings edge_pairings vertex_pairings)
                nodes eps dummy_eps_map eps_tol fuel fixed_initial []) as Hcap.
  destruct (closure_loop fuel _ nodes eps dummy_eps_map eps_tol fixed_initial [])
    as [fixed ws].
  cbn [fst snd] in *. intros Hsz.
  destruct Hcap as [[Hc Hl] | Hcap]; [|lia].
  split; [exact Hc|]. intros H. apply sorted_set_In, in_app_or in H as [H | H].
  - by apply Hl in H.
  - by apply sweep_no_limit_warning in H.
Qed.

Lemma X5_witness :
  ~ In limit_warning
      (snd (closure_generate_all_mpcs
              (build_face_pairings cube_classified)
              (build_edge_pairings cube_classified)
              (match build_vertex_pairings_from_vertices cube_classified
                       cube_vertex_ids with
               | inr vp => vp | inl _ => [] end)
              cube_classified zero_strain [] node1_u eps_tol_default)).
Proof.
  apply X5_closure_limit. vm_compute. lia.
Defined.


Lemma ascii_compare_spec (a b : ascii) :
  Ascii.compare a b = N.compare (N_of_ascii a) (N_of_ascii b).
Proof. reflexivity. Qed.

Lemma string_compare_trans (a b c : string) :
  String.compare a b <> Gt -> String.compare b c <> Gt -> String.compare a c <> Gt.
Proof.
  revert b c. induction a as [|ca a IH]; intros [|cb b] [|cc c]; simpl; try done.
  rewrite !ascii_compare_spec.
  destruct (N.compare_spec (N_of_ascii ca) (N_of_ascii cb)) as [E1 | L1 | G1];
    [| |done].
  - rewrite E1. destruct (N.compare_spec (N_of_ascii cb) (N_of_ascii cc)); try done.
    apply IH.
  - intros _.
    destruct (N.compare_spec (N_of_ascii cb) (N_of_ascii cc)) as [E2 | L2 | G2];
      [| |done]; intros _.
    + rewrite <- E2. by apply N.compare_lt_iff in L1 as ->.
    + assert (N_of_ascii ca < N_of_ascii cc)%N as L by lia.
      by apply N.compare_lt_iff in L as ->.
Qed.

Lemma string_leb_compare (a b : string) :
  String.leb a b = true <-> String.compare a b <> Gt.
Proof. unfold String.leb. by destruct (String.compare a b). Qed.

#[global] Instance str_le_total : Total str_le.
Proof. intros a b. apply String.leb_total. Qed.

#[global] Instance str_le_trans : Transitive str_le.
Proof.
  intros a b c. unfold str_le. rewrite !string_leb_compare.
  apply string_compare_trans.
Qed.

Lemma sorted_set_sorted (l : list string) :
  StronglySorted str_le (sorted_set l) /\ NoDup (sorted_set l).
Proof.
  unfold sorted_set. split; [apply (StronglySorted_merge_sort _)|].
  rewrite (merge_sort_Permutation str_le). apply NoDup_remove_dups.
Qed.

(** A warning collected by the loop was there at the start, is the warning
    of the limit, or is a warning of a sweep. *)
Lemma closure_loop_warnings (gs : list (list Pairing * option Kind)) (nodes : Nodes)
    (eps : Strain) (dummy_eps_map : DummyEpsMap) (eps_tol : float) (fuel : nat)
    (F : FixedDofSet) (ws : list string) (s : string) :
  In s (snd (closure_loop fuel gs nodes eps dummy_eps_map eps_tol F ws)) ->
  In s ws \/ s = limit_warning
  \/ exists F', In s (gen_warnings (sweep gs nodes eps dummy_eps_map F' eps_tol)).
Proof.
  revert F ws. induction fuel as [|fuel IH]; intros F ws.
  { simpl. intros H. apply in_app_or in H as [H | [<- | []]]; auto. }
  cbn [closure_loop]. cbv zeta.
  destruct (bool_decide _).
  - cbn [snd]. intros H. apply in_app_or in H as [H | H]; [by left|].
    right. right. by exists F.
  - intros H. apply IH in H as [H | H]; [|by right].
    apply in_app_or in H as [H | H]; [by left|]. right. right. by exists F.
Qed.

(** X6: the warnings the closure returns. They are in ascending order
    and without duplicates. Each is the warning of the iteration limit, a
    warning of a strain component missing from the map, or a warning of a
    single term that was not converted. The warning for the component
    (i, j) is among them exactly when (i, j) is not a key of the map, the
    magnitude of eps_ij is not below the threshold, and some pairing that
    passes the guards of its group has a nonzero delta along j -- whatever
    the zero constraints are. *)
Theorem X6_warnings (face_pairings : FacePairings)
    (edge_pairings : EdgePairings) (vertex_pairings : list Pairing)
    (nodes : Nodes) (eps : Strain) (dummy_eps_map : DummyEpsMap)
    (fixed_initial : FixedDofSet) (eps_tol : float) :
  let gs := groups face_pairings edge_pairings vertex_pairings in
  let warnings := snd (closure_generate_all_mpcs face_pairings edge_pairings
                         vertex_pairings nodes eps dummy_eps_map fixed_initial
                         eps_tol) in
  StronglySorted str_le warnings
  /\ NoDup warnings
  /\ (forall s, In s warnings ->
        s = limit_warning
        \/ (exists i j, s = missing_map_warning i j)
        \/ (exists t, s = residual_warning t))
  /\ (forall i j,
        In (missing_map_warning i j) warnings
        <-> dmap_get dummy_eps_map (i, j) = None
            /\ PrimFloat.ltb (PrimFloat.abs (eps_at eps i j)) eps_tol = false
            /\ exists g p, In g gs /\ In p (fst g)
                           /\ pair_passes nodes (snd g) p = true
                           /\ PrimFloat.eqb (delta_at p j) 0 = false).
Proof.
  intros gs warnings. subst warnings. unfold closure_generate_all_mpcs.
  fold gs. generalize 50%nat. intros fuel.
  pose proof (closure_loop_warnings gs nodes eps dummy_eps_map eps_tol fuel
                fixed_initial []) as Hloop.
  destruct (closure_loop fuel gs nodes eps dummy_eps_map eps_tol fixed_initial [])
    as [fixed ws].
  cbn [fst snd] in *.
  assert (Hall : forall s,
            In s (sorted_set (ws ++ gen_warnings
                                      (sweep gs nodes eps dummy_eps_map fixed eps_tol))) ->
            s = limit_warning
            \/ exists F', In s (gen_warnings
                                  (sweep gs nodes eps dummy_eps_map F' eps_tol))).
  { intros s H. apply sorted_set_In, in_app_or in H as [H | H].
    - apply Hloop in H as [[] | [H | H]]; auto.
    - right. by exists fixed. }
  split; [apply sorted_set_sorted | split; [apply sorted_set_sorted | split]].
  - intros s H. apply Hall in H as [H | [F' H]]; first by left.
    right. apply sweep_warnings in H as (g & p & i & _ & _ & _ & H).
    apply gen_dof_warnings in H as [(j & -> & _) | (t & _ & -> & _)].
    + left. by exists i, j.
    + right. by exists t.
  - intros i j. split.
    + intros H. apply Hall in H as [H | [F' H]].
      { apply (f_equal warning_tag) in H.
        by rewrite missing_map_warning_tag, limit_warning_tag in H. }
      apply sweep_warnings in H as (g & p & i' & Hg & Hp & Hpass & H).
      apply gen_dof_warnings in H as [(j' & Heq & Hm & Hl & Hd) | (t & _ & Heq & _)].
      * apply missing_map_warning_inj in Heq as [-> ->].
        split; [done | split; [done|]]. by exists g, p.
      * apply (f_equal warning_tag) in Heq.
        by rewrite missing_map_warning_tag, residual_warning_tag in Heq.
    + intros (Hm & Hl & g & p & Hg & Hp & Hpass & Hd).
      apply sorted_set_In, in_or_app. right.
      apply sweep_warnings. exists g, p, i. repeat split; try done.
      apply gen_dof_warnings. left. by exists j.
Qed.


(** ** The constraints block *)

Lemma drv_get_None (drv : DriverMap) (key : Z * Dof) :
  drv_get drv key = None <-> ~ In key (map fst drv).
Proof.
  unfold drv_get. induction drv as [|[k0 v0] drv IH]; simpl; first tauto.
  destruct (bool_decide (k0 = key)) eqn:Hk; simpl.
  - apply bool_decide_eq_true in Hk. split; [done | tauto].
  - apply bool_decide_eq_false in Hk. rewrite IH. tauto.
Qed.

(** The loop keeps the keys of the dictionary distinct, and adds only
    values of entries that count. *)
Lemma driver_loop_keys (eps : Strain) (eps_tol : float) (items : DummyEpsMap)
    (drv drv' : DriverMap) :
  driver_loop eps eps_tol items drv = inr drv' ->
  NoDup (map fst drv) ->
  NoDup (map fst drv')
  /\ forall e, In e drv' ->
       In e drv
       \/ exists it, In it items /\ live eps eps_tol it = true
                     /\ e = (entry_key it, entry_val eps it).
Proof.
  revert drv. induction items as [|it items IH]; intros drv.
  { simpl. intros [= <-] Hnd. split; [done | by left]. }
  rewrite driver_loop_cons.
  assert (Hskip : driver_loop eps eps_tol items drv = inr drv' ->
            NoDup (map fst drv) ->
            NoDup (map fst drv')
            /\ forall e, In e drv' ->
                 In e drv
                 \/ exists it0, In it0 (it :: items) /\ live eps eps_tol it0 = true
                                /\ e = (entry_key it0, entry_val eps it0)).
  { intros Hl Hnd. destruct (IH drv Hl Hnd) as [H1 H2]. split; [exact H1|].
    intros e He. destruct (H2 e He) as [H | (it0 & Hin & H)]; [by left|].
    right. exists it0. split; [by right | done]. }
  destruct (live eps eps_tol it) eqn:Hlive; [|exact Hskip].
  destruct (drv_get drv (entry_key it)) as [old|] eqn:Hget.
  { destruct (is_close old (entry_val eps it) tol12); [exact Hskip | done]. }
  intros Hl Hnd.
  destruct (IH _ Hl) as [H1 H2].
  { rewrite map_app. apply NoDup_app. split; [exact Hnd|]. split.
    - intros k Hk Hk'. apply list_elem_of_singleton in Hk'. subst k.
      apply drv_get_None in Hget. apply Hget. by apply list_elem_of_In.
    - simpl. apply NoDup_singleton. }
  split; [exact H1|]. intros e He.
  destruct (H2 e He) as [H | (it0 & Hin & H)].
  - apply in_app_or in H as [H | [<- | []]]; [by left|].
    right. exists it. split; [by left | done].
  - right. exists it0. split; [by right | done].
Qed.

(** X7: in a successful run no (node, dof) is constrained twice. The
    driver constraints have pairwise different keys, none of which is in
    the final set of zero constraints, so the keys of the lines of the
    constraints block -- the driver keys in sorted order, then the zero
    constraints in sorted order -- are pairwise different. Every driver
    value is a strain component whose magnitude is not below the threshold,
    taken from an entry of the map with that driver key. *)
Theorem X7_constraints_once (P : Parsed) (R : Prepared) :
  prepare P = inr R ->
  NoDup (map fst (sorted_items (driver_constraints R))
         ++ sorted_keys (fixed_final R))
  /\ (forall key val, In (key, val) (driver_constraints R) ->
        (key ∉ fixed_final R)
        /\ PrimFloat.ltb (PrimFloat.abs val) eps_tol_default = false
        /\ exists i j dn, In ((i, j), (dn, fst key, snd key)) (dummy_eps_map P)
                          /\ val = eps_at (eps P) i j).
Proof.
  intros HR.
  destruct (prepare_inr P R HR) as (_ & _ & _ & _ & _ & _ & Hd & Hcheck).
  unfold build_driver_constraints in Hd.
  destruct (driver_loop_keys _ _ _ _ _ Hd) as [Hnd Hval]; first constructor.
  pose proof (conflict_check_ok _ _ Hcheck) as Hdisj.
  split.
  - apply NoDup_app. split; [|split].
    + unfold sorted_items. by rewrite (merge_sort_Permutation item_le).
    + intros k Hk Hz. unfold sorted_items, sorted_keys in *.
      rewrite (merge_sort_Permutation item_le) in Hk.
      rewrite (merge_sort_Permutation key_le) in Hz.
      apply elem_of_elements, Hdisj, drv_get_None in Hz.
      by apply Hz, list_elem_of_In.
    + unfold sorted_keys. rewrite (merge_sort_Permutation key_le).
      apply NoDup_elements.
  - intros key val Hin. split; [|].
    + intros Hz. apply Hdisj, drv_get_None in Hz. apply Hz.
      apply in_map_iff. by exists (key, val).
    + destruct (Hval _ Hin) as [[] | (it & Hit & Hlive & Heq)].
      injection Heq as -> ->. split.
      * unfold live in Hlive. by apply negb_true_iff in Hlive.
      * destruct it as [[i j] [[dn dr] d]]. by exists i, j, dn.
Qed.

Lemma X7_witness :
  exists R, prepare cube_driven = inr R
            /\ NoDup (map fst (sorted_items (driver_constraints R))
                      ++ sorted_keys (fixed_final R)).
Proof.
  destruct (prepare cube_driven) as [e|R] eqn:HR.
  - exfalso. vm_compute in HR. discriminate HR.
  - exists R. split; [reflexivity|].
    exact (proj1 (X7_constraints_once cube_driven R HR)).
Defined.


(** A loop whose body raises on the elements [bad] and writes one line
    for the others stops at the first bad element, after the lines of the
    elements before it. *)
Lemma out_for_raises {A} (bad : A -> bool) (E : A -> Err) (f : A -> string)
    (before after : list A) (a : A) (o : list string) :
  Forall (fun b => bad b = false) before -> bad a = true ->
  out_for (before ++ a :: after)
    (fun b => if bad b then out_raise (E b) else w_ (f b)) o
  = (o ++ map f before, inl (E a)).
Proof.
  intros Hb Ha. revert o. induction Hb as [|b before Hb _ IH]; intros o.
  - simpl. unfold out_bind, out_raise. rewrite Ha. by rewrite app_nil_r.
  - simpl. unfold out_bind at 1. rewrite Hb. unfold w_ at 1.
    rewrite IH. by rewrite <- app_assoc.
Qed.

Lemma first_bad_split {A} (bad : A -> bool) (l : list A) (a : A) :
  In a l -> bad a = true ->
  exists before a0 after,
    l = before ++ a0 :: after
    /\ Forall (fun b => bad b = false) before /\ bad a0 = true.
Proof.
  induction l as [|b l IH]; first done.
  intros Hin Ha. destruct (bad b) eqn:Hb.
  - by exists [], b, l.
  - destruct Hin as [-> | Hin]; first congruence.
    destruct (IH Hin Ha) as (before & a0 & after & -> & Hall & Ha0).
    exists (b :: before), a0, after. split; [done | split; [|done]].
    by constructor.
Qed.

(** X8: the writer of the constraints block, called with a key that is
    both zero-constrained and driven, raises the conflict error for the
    least such key in the order of (node, dof) -- after it has written the
    header, the keyword, every driver line and the zero lines of the keys
    sorted before that key. The lines written stay in the file. *)
Theorem X8_constraints_block_conflict (zero_constraints : FixedDofSet)
    (driver_constraints : DriverMap) (o : list string) (key : Z * Dof) :
  key ∈ zero_constraints ->
  is_Some (drv_get driver_constraints key) ->
  exists k0 before after,
    emit_constraints_block zero_constraints driver_constraints o
    = (o ++ [ "!"; "! --- ABSOLUTE CONSTRAINTS (must appear before 'multipoint') ---";
              "constraints" ]
         ++ map driver_line (sorted_items driver_constraints)
         ++ map zero_line before,
       inl (EmitConflict (fst k0) (snd k0)))
    /\ sorted_keys zero_constraints = before ++ k0 :: after
    /\ k0 ∈ zero_constraints
    /\ is_Some (drv_get driver_constraints k0)
    /\ Forall (fun k => drv_get driver_constraints k = None) before
    /\ (forall k, k ∈ zero_constraints -> is_Some (drv_get driver_constraints k) ->
          key_le k0 k).
Proof.
  intros Hkey Hsome.
  set (bad := fun k : Z * Dof => bool_decide (is_Some (drv_get driver_constraints k))).
  assert (Hperm : forall k, In k (sorted_keys zero_constraints) <-> k ∈ zero_constraints).
  { intros k. unfold sorted_keys. rewrite <- list_elem_of_In.
    rewrite (merge_sort_Permutation key_le). apply elem_of_elements. }
  destruct (first_bad_split bad (sorted_keys zero_constraints) key)
    as (before & k0 & after & Hsplit & Hbefore & Hk0).
  { by apply Hperm. }
  { by apply bool_decide_eq_true. }
  exists k0, before, after.
  assert (Hin0 : k0 ∈ zero_constraints).
  { apply Hperm. rewrite Hsplit. apply in_or_app. right. by left. }
  apply bool_decide_eq_true in Hk0.
  split; [|split; [exact Hsplit | split; [exact Hin0 | split; [exact Hk0 | split]]]].
  - unfold emit_constraints_block.
    assert (bool_decide (zero_constraints = ∅) = false) as ->.
    { apply bool_decide_eq_false. set_solver. }
    cbn [andb]. rewrite Hsplit.
    unfold out_bind at 1. unfold w_ at 1.
    unfold out_bind at 1. unfold w_ at 1.
    unfold out_bind at 1. unfold w_ at 1.
    unfold out_bind at 1.
    rewrite (emits_for (sorted_items driver_constraints)
               (fun e => w_ (driver_line e)) (fun e => [driver_line e])
               (fun e _ => emits_w (driver_line e))).
    rewrite flat_map_singleton.
    rewrite (out_for_raises bad (fun k => EmitConflict (fst k) (snd k)) zero_line)
      by (done || by apply bool_decide_eq_true).
    by rewrite <- !app_assoc.
  - eapply Forall_impl; [exact Hbefore|]. intros k Hk. unfold bad in Hk.
    apply bool_decide_eq_false in Hk.
    destruct (drv_get driver_constraints k); [|done]. exfalso. by apply Hk.
  - intros k Hk Hs.
    assert (Hsorted : StronglySorted key_le (before ++ k0 :: after)).
    { rewrite <- Hsplit. apply (StronglySorted_merge_sort _). }
    apply Hperm in Hk. rewrite Hsplit in Hk.
    apply in_app_or in Hk as [Hk | [<- | Hk]].
    + exfalso. rewrite Forall_forall in Hbefore.
      apply list_elem_of_In, Hbefore in Hk. unfold bad in Hk.
      by apply bool_decide_eq_false in Hk.
    + destruct (total key_le k0 k0); done.
    + apply StronglySorted_app_1_r in Hsorted.
      apply StronglySorted_inv in Hsorted as [_ Hall].
      rewrite Forall_forall in Hall. by apply Hall, list_elem_of_In.
Qed.

Lemma X8_witness :
  exists k0 ls,
    emit_constraints_block zero_with_driver driver_200u ["! header"]
    = (ls, inl (EmitConflict (fst k0) (snd k0)))
    /\ key_le k0 (200, u).
Proof.
  destruct (X8_constraints_block_conflict zero_with_driver driver_200u
              ["! header"] (200, u))
    as (k0 & before & after & H & _ & _ & _ & _ & Hmin).
  - by_evaluation.
  - vm_compute. eauto.
  - exists k0. eexists. split; [exact H|].
    apply Hmin; [by_evaluation | vm_compute; eauto].
Defined.


(** ** The vertex pairings *)

Lemma vertex_loop_first_missing (nodes : Nodes) (vertex_ids : VertexIds)
    (defs : list (VLabel * VLabel)) (e : Err) :
  vertex_pairings_loop nodes vertex_ids defs = inl e ->
  exists pre pl ml post,
    defs = pre ++ (pl, ml) :: post
    /\ e = VertexMissing pl ml (vertex_ids pl) (vertex_ids ml)
    /\ ~ diagonal_present nodes vertex_ids (pl, ml)
    /\ Forall (diagonal_present nodes vertex_ids) pre.
Proof.
  induction defs as [|[pl ml] defs IH]; first done.
  simpl.
  destruct (nodes_get nodes (vertex_ids ml)) as [a|] eqn:Ha.
  - destruct (nodes_get nodes (vertex_ids pl)) as [b|] eqn:Hb.
    + destruct (vertex_pairings_loop nodes vertex_ids defs) as [e'|out]; [|done].
      intros [= <-].
      destruct (IH eq_refl) as (pre & pl' & ml' & post & -> & He & Hmiss & Hpre).
      exists ((pl, ml) :: pre), pl', ml', post.
      split; [done | split; [done | split; [done|]]].
      constructor; [|done]. unfold diagonal_present. simpl. by rewrite Ha, Hb.
    + intros [= <-]. exists [], pl, ml, defs.
      split; [done | split; [done | split; [|constructor]]].
      intros [_ H]. simpl in H. rewrite Hb in H. by destruct H.
  - intros [= <-]. exists [], pl, ml, defs.
    split; [done | split; [done | split; [|constructor]]].
    intros [H _]. simpl in H. rewrite Ha in H. by destruct H.
Qed.

Lemma vertex_loop_joins (nodes : Nodes) (vertex_ids : VertexIds)
    (defs : list (VLabel * VLabel)) (vp : list Pairing) :
  vertex_pairings_loop nodes vertex_ids defs = inr vp ->
  Forall2 (fun d p => minus_node p = vertex_ids (snd d)
                      /\ plus_node p = vertex_ids (fst d)
                      /\ exists a b, joins nodes p a b) defs vp.
Proof.
  revert vp. induction defs as [|[pl ml] defs IH]; intros vp; simpl.
  - intros [= <-]. constructor.
  - destruct (nodes_get nodes (vertex_ids ml)) as [a|] eqn:Ha; [|done].
    destruct (nodes_get nodes (vertex_ids pl)) as [b|] eqn:Hb; [|done].
    destruct (vertex_pairings_loop nodes vertex_ids defs) as [?|out]; [done|].
    intros [= <-]. constructor; [|by apply IH].
    simpl. split; [done | split; [done|]]. by exists a, b.
Qed.

Lemma vertex_loop_present (nodes : Nodes) (vertex_ids : VertexIds)
    (defs : list (VLabel * VLabel)) :
  Forall (diagonal_present nodes vertex_ids) defs ->
  exists vp, vertex_pairings_loop nodes vertex_ids defs = inr vp.
Proof.
  induction 1 as [|[pl ml] defs [[a Ha] [b Hb]] _ [vp IH]]; simpl.
  - by eexists.
  - simpl in Ha, Hb. rewrite Ha, Hb, IH. by eexists.
Qed.

(** X9: the vertex pairings. The function returns exactly when each of
    the eight labels A..H is on a node of the dictionary; it then returns
    four pairings, for the diagonals A-G, D-F, B-H and E-C in this order,
    each with the coordinate differences of its plus node and its minus node
    as delta. Otherwise it raises for the first diagonal, in this order,
    with a label on no node, and the error names the two labels and ids of
    that diagonal. *)
Theorem X9_vertex_pairings (nodes : Nodes) (vertex_ids : VertexIds) :
  ((exists vp, build_vertex_pairings_from_vertices nodes vertex_ids = inr vp)
   <-> forall l, is_Some (nodes_get nodes (vertex_ids l)))
  /\ (forall vp, build_vertex_pairings_from_vertices nodes vertex_ids = inr vp ->
        Forall2 (fun d p => minus_node p = vertex_ids (snd d)
                            /\ plus_node p = vertex_ids (fst d)
                            /\ exists a b, joins nodes p a b)
          [(vG, vA); (vF, vD); (vH, vB); (vC, vE)] vp)
  /\ (forall e, build_vertex_pairings_from_vertices nodes vertex_ids = inl e ->
        exists pre pl ml post,
          [(vG, vA); (vF, vD); (vH, vB); (vC, vE)] = pre ++ (pl, ml) :: post
          /\ e = VertexMissing pl ml (vertex_ids pl) (vertex_ids ml)
          /\ ~ diagonal_present nodes vertex_ids (pl, ml)
          /\ Forall (diagonal_present nodes vertex_ids) pre).
Proof.
  unfold build_vertex_pairings_from_vertices.
  change [(vG, vA); (vF, vD); (vH, vB); (vC, vE)] with vertex_defs.
  split; [|split].
  - split.
    + intros [vp Hvp] l. apply vertex_loop_joins in Hvp.
      assert (Hd : exists d, In d vertex_defs /\ (l = fst d \/ l = snd d)).
      { destruct l; unfold vertex_defs; simpl;
          [ exists (vG, vA) | exists (vH, vB) | exists (vC, vE) | exists (vF, vD)
          | exists (vC, vE) | exists (vF, vD) | exists (vG, vA) | exists (vH, vB) ];
          simpl; tauto. }
      destruct Hd as (d & Hin & Hl).
      apply list_elem_of_In, list_elem_of_lookup_1 in Hin as [n Hn].
      destruct (Forall2_lookup_l _ _ _ _ d Hvp Hn)
        as (p & _ & Hm & Hp & a & b & Ha & Hb & _).
      destruct Hl as [-> | ->]; [rewrite <- Hp | rewrite <- Hm]; by eexists.
    + intros Hall. apply vertex_loop_present.
      unfold vertex_defs. repeat constructor; simpl; apply Hall.
  - apply vertex_loop_joins.
  - apply vertex_loop_first_missing.
Qed.


(** ** Every eligible node is paired *)

Section PairComplete.
Context {K : Type} (keq : K -> K -> bool) (key : Node -> K).
Hypothesis keq_sym : forall a b, keq a b = keq b a.
Hypothesis keq_trans : forall a b c, keq a b = true -> keq b c = true -> keq a c = true.

(** [d[k] = v] stores [v], under [k] or under an equal key stored before. *)
Lemma kd_set_has (d : list (K * Z)) (k : K) (val : Z) :
exists k0, In (k0, val) (kd_set keq d k val) /\ (k0 = k \/ keq k0 k = true).
Proof.
induction d as [|[k' v'] d (k0 & Hin & Hk)]; simpl.
- exists k. split; [by left | by left].
- destruct (keq k' k) eqn:Hkk.
+ exists k'. split; [by left | by right].
+ exists k0. split; [by right | done].
Qed.

(** [d[k] = v] leaves the entries under other keys as they are, and keeps
every stored key. *)
Lemma kd_set_keeps (d : list (K * Z)) (k0 k : K) (v0 val : Z) :
In (k0, v0) d -> keq k0 k = false -> In (k0, v0) (kd_set keq d k val).
Proof.
induction d as [|[k' v'] d IH]; first done.
intros [[= -> ->] | Hin] Hne; simpl.
- rewrite Hne. by left.
- destruct (keq k' k); right; [done | by apply IH].
Qed.

Lemma kd_set_key_kept (d : list (K * Z)) (k0 k : K) (v0 val : Z) :
In (k0, v0) d -> exists v1, In (k0, v1) (kd_set keq d k val).
Proof.
induction d as [|[k' v'] d IH]; first done.
intros [[= -> ->] | Hin]; simpl.
- destruct (keq k0 k); eexists; by left.
- destruct (keq k' k).
+ exists v0. by right.
+ destruct (IH Hin) as [v1 H1]. exists v1. by right.
Qed.

Lemma kd_fold_keeps (l : list Node) (d : list (K * Z)) (k0 : K) (v0 : Z) :
In (k0, v0) d -> Forall (fun nd => keq k0 (key nd) = false) l ->
In (k0, v0) (fold_left (fun d nd => kd_set keq d (key nd) (nid nd)) l d).
Proof.
revert d. induction l as [|nd l IH]; intros d Hin Hall; first done.
apply Forall_cons in Hall as [Hnd Hall]. simpl.
apply IH; [by apply kd_set_keeps | done].
Qed.

Lemma kd_fold_key_kept (l : list Node) (d : list (K * Z)) (k0 : K) (v0 : Z) :
In (k0, v0) d ->
exists v1, In (k0, v1) (fold_left (fun d nd => kd_set keq d (key nd) (nid nd)) l d).
Proof.
revert d v0. induction l as [|nd l IH]; intros d v0 Hin; first by exists v0.
simpl. destruct (kd_set_key_kept d k0 (key nd) v0 (nid nd) Hin) as [v1 H1].
by apply (IH _ v1).
Qed.

(** The dictionary holds the id of the last node of each key. *)
Lemma kd_build_last (l : list Node) (a : Node) :
last_of_key keq key l a ->
exists k0, In (k0, nid a) (kd_build keq key l)
 /\ (k0 = key a \/ keq k0 (key a) = true).
Proof.
intros (l1 & l2 & -> & Hall). unfold kd_build.
rewrite fold_left_app. cbn [fold_left].
destruct (kd_set_has (fold_left (fun d nd => kd_set keq d (key nd) (nid nd)) l1 [])
(key a) (nid a)) as (k0 & Hin & Hk).
exists k0. split; [|exact Hk]. apply kd_fold_keeps; [exact Hin|].
eapply Forall_impl; [exact Hall|]. intros nd Hnd. simpl in Hnd.
destruct (keq k0 (key nd)) eqn:Hk0; [|done].
rewrite <- Hnd. symmetry. destruct Hk as [<- | Hk]; first done.
apply (keq_trans _ k0); [by rewrite keq_sym | done].
Qed.

(** A key equal to the key of a node of the list is found in the
dictionary. *)
Lemma kd_build_covers (l : list Node) (b : Node) (k : K) :
In b l -> keq k (key b) = true ->
exists pid, kd_get keq (kd_build keq key l) k = Some pid.
Proof.
intros Hin Hk. apply in_split in Hin as (l1 & l2 & ->). unfold kd_build.
rewrite fold_left_app. cbn [fold_left].
destruct (kd_set_has (fold_left (fun d nd => kd_set keq d (key nd) (nid nd)) l1 [])
(key b) (nid b)) as (k0 & Hin & Hk0).
destruct (kd_fold_key_kept l2 _ k0 (nid b) Hin) as [v1 H1].
unfold kd_get.
destruct (List.find _ _) as [e|] eqn:Hf; first by eexists.
apply (find_none _ _ Hf) in H1. simpl in H1. exfalso.
assert (keq k0 k = true); [|congruence].
rewrite keq_sym in Hk.
assert (Hbb : keq (key b) (key b) = true).
{ apply (keq_trans _ k); [done | by rewrite keq_sym]. }
destruct Hk0 as [-> | Hk0]; first done.
by apply (keq_trans _ (key b)).
Qed.

Variable nodes : Nodes.
Variables lm lp : list Node.
Hypothesis nodes_nodup : NoDup (map nid nodes).
Hypothesis lm_incl : forall nd, In nd lm -> In nd nodes.
Hypothesis lp_incl : forall nd, In nd lp -> In nd nodes.

(** The last minus node of a key that some plus node has is paired. *)
Lemma pair_by_key_complete (a b : Node) :
last_of_key keq key lm a -> In b lp -> keq (key a) (key b) = true ->
exists p, In p (pair_by_key keq key nodes lm lp) /\ minus_node p = nid a.
Proof.
intros Hlast Hb Hk.
destruct (kd_build_last lm a Hlast) as (k0 & Hin & Hk0).
assert (Hk0b : keq k0 (key b) = true).
{ destruct Hk0 as [-> | Hk0]; [done | by apply (keq_trans _ (key a))]. }
destruct (kd_build_covers lp b k0 Hb Hk0b) as [pid Hget].
pose proof Hget as Hget'.
apply kd_get_Some in Hget' as (k' & Hin' & _).
destruct (kd_build_inv keq key keq_sym keq_trans lp) as [_ Hlp].
rewrite Forall_forall in Hlp. apply list_elem_of_In in Hin'.
apply Hlp in Hin' as (l1 & nb & l2 & Hl & Hnb & _). simpl in Hnb.
assert (Hnbn : nodes_get nodes pid = Some nb).
{ rewrite <- Hnb. apply nodes_get_In; [done|]. apply lp_incl.
rewrite Hl. apply in_or_app. right. by left. }
assert (Han : nodes_get nodes (nid a) = Some a).
{ apply nodes_get_In; [done|]. apply lm_incl.
destruct Hlast as (l1' & l2' & -> & _). apply in_or_app. right. by left. }
eexists. split.
- unfold pair_by_key, match_keys. apply in_flat_map.
exists (k0, nid a). split; [exact Hin|]. cbn [fst snd]. rewrite Hget.
unfold pairing_of. rewrite Han, Hnbn. by left.
- reflexivity.
Qed.
End PairComplete.

Lemma pair_by_key_iff {K : Type} (keq : K -> K -> bool) (key : Node -> K)
    (nodes : Nodes) (g h : Node -> bool) (a : Node) :
  (forall a b, keq a b = keq b a) ->
  (forall a b c, keq a b = true -> keq b c = true -> keq a c = true) ->
  NoDup (map nid nodes) ->
  In a (List.filter g nodes) ->
  (exists p, In p (pair_by_key keq key nodes (List.filter g nodes)
                     (List.filter h nodes))
             /\ minus_node p = nid a)
  <-> last_of_key keq key (List.filter g nodes) a
      /\ exists b, In b (List.filter h nodes) /\ keq (key a) (key b) = true.
Proof.
  intros Hsym Htrans Hnd Ha.
  assert (Hg : forall nd, In nd (List.filter g nodes) -> In nd nodes)
    by (intros nd H; by apply filter_In in H as [? _]).
  assert (Hh : forall nd, In nd (List.filter h nodes) -> In nd nodes)
    by (intros nd H; by apply filter_In in H as [? _]).
  split.
  - intros (p & Hp & Hm).
    destruct (pair_by_key_entry keq key Hsym Htrans nodes _ _ Hnd Hg Hh p Hp)
      as (k & a' & b & _ & Ha' & Hb & Hla & Hlb & _ & Hk & _).
    rewrite Hm, (nodes_get_In nodes a Hnd (Hg _ Ha)) in Ha'. injection Ha' as <-.
    split; [exact Hla|]. exists b. split; [|exact Hk].
    destruct Hlb as (l1 & l2 & -> & _). apply in_or_app. right. by left.
  - intros (Hlast & b & Hb & Hk).
    by apply (pair_by_key_complete keq key Hsym Htrans nodes _ _ Hnd Hg Hh a b).
Qed.

Lemma pair_by_key_joins {K : Type} (keq : K -> K -> bool) (key : Node -> K)
    (nodes : Nodes) (lm lp : list Node) (p : Pairing) :
  In p (pair_by_key keq key nodes lm lp) -> exists a b, joins nodes p a b.
Proof.
  unfold pair_by_key, match_keys. intros Hp.
  apply in_flat_map in Hp as ([k mid] & _ & Hp). simpl in Hp.
  destruct (kd_get keq _ k) as [pid|]; [|done].
  apply pairing_of_In in Hp as (a & b & Ha & Hb & ->). by exists a, b.
Qed.

(** X10: face and edge pairing leave no eligible node out. In a node
    dictionary with distinct ids, a node of the minus face is the minus node
    of a face pairing exactly when it is the last node of its face with its
    transverse key and some node of the plus face has an equal key; likewise
    an edge node of the minus edge and its key along the edge. The delta of
    every face and edge pairing is the difference of the coordinates of its
    plus node and of its minus node. *)
Theorem X10_pairing_complete (nodes : Nodes) :
  NoDup (map nid nodes) ->
  (forall minus_face plus_face a,
     In a (nodes_on_face nodes minus_face) ->
     (exists p, In p (_pair_face_nodes nodes minus_face plus_face)
                /\ minus_node p = nid a)
     <-> last_of_key key2_eqb (face_key (face_axis minus_face))
           (nodes_on_face nodes minus_face) a
         /\ exists b, In b (nodes_on_face nodes plus_face)
                      /\ key2_eqb (face_key (face_axis minus_face) a)
                                  (face_key (face_axis minus_face) b) = true)
  /\ (forall minus_faces plus_faces a,
        In a (nodes_on_edge nodes minus_faces) ->
        (exists p, In p (edge_pairings_for nodes minus_faces plus_faces)
                   /\ minus_node p = nid a)
        <-> last_of_key key1_eqb (edge_key minus_faces)
              (nodes_on_edge nodes minus_faces) a
            /\ exists b, In b (nodes_on_edge nodes plus_faces)
                         /\ key1_eqb (edge_key minus_faces a)
                                     (edge_key minus_faces b) = true)
  /\ (forall minus_face plus_face p,
        In p (_pair_face_nodes nodes minus_face plus_face) ->
        exists a b, joins nodes p a b)
  /\ (forall minus_faces plus_faces p,
        In p (edge_pairings_for nodes minus_faces plus_faces) ->
        exists a b, joins nodes p a b).
Proof.
  intros Hnd. split; [|split; [|split]].
  - intros mf pf a Ha. rewrite pair_face_nodes_by_key.
    apply pair_by_key_iff;
      [apply key2_eqb_sym | apply key2_eqb_trans | done | done].
  - intros mfs pfs a Ha. rewrite edge_pairings_by_key.
    apply pair_by_key_iff;
      [apply key1_eqb_sym | apply key1_eqb_trans | done | done].
  - intros mf pf p. rewrite pair_face_nodes_by_key. apply pair_by_key_joins.
  - intros mfs pfs p. rewrite edge_pairings_by_key. apply pair_by_key_joins.
Qed.

Lemma X10_witness :
  NoDup (map nid shadow_nodes)
  /\ (exists p, In p (_pair_face_nodes shadow_nodes Xm Xp) /\ minus_node p = 10)
  /\ ~ (exists p, In p (_pair_face_nodes shadow_nodes Xm Xp) /\ minus_node p = 9).
Proof.
  assert (Hnd : NoDup (map nid shadow_nodes)) by by_evaluation.
  split; [exact Hnd|].
  destruct (X10_pairing_complete shadow_nodes Hnd) as [Hface _].
  split.
  - set (a := nth 9 shadow_nodes (parsed_node 0 0 0 0)).
    set (b := nth 10 shadow_nodes (parsed_node 0 0 0 0)).
    change 10 with (nid a). apply (Hface Xm Xp a).
    + apply filter_In. split; [|vm_compute; reflexivity].
      apply nth_In. vm_compute. lia.
    + split.
      * exists (firstn 5 (nodes_on_face shadow_nodes Xm)), [].
        split; [vm_compute; reflexivity | constructor].
      * exists b. split; [|vm_compute; reflexivity].
        apply filter_In. split; [|vm_compute; reflexivity].
        apply nth_In. vm_compute. lia.
  - intros (p & Hp & Hm).
    assert (H : forallb (fun q => negb (minus_node q =? 9))
                  (_pair_face_nodes shadow_nodes Xm Xp) = true)
      by (vm_compute; reflexivity).
    rewrite forallb_forall in H. specialize (H p Hp). rewrite Hm in H. done.
Defined.


(** ** Without fixed dofs, and without strain *)

Lemma closure_loop_break (gs : list (list Pairing * option Kind)) (nodes : Nodes)
    (eps : Strain) (dummy_eps_map : DummyEpsMap) (eps_tol : float) (fuel : nat)
    (F : FixedDofSet) (ws : list string) :
  closed gs nodes eps dummy_eps_map eps_tol F ->
  closure_loop (S fuel) gs nodes eps dummy_eps_map eps_tol F ws
  = (F, ws ++ gen_warnings (sweep gs nodes eps dummy_eps_map F eps_tol)).
Proof.
  intros Hc. apply break_iff_closed in Hc. cbn [closure_loop]. cbv zeta.
  by rewrite bool_decide_eq_true_2.
Qed.

Lemma assemble_terms_no_fixed_length (eps : Strain) (dummy_eps_map : DummyEpsMap)
    (eps_tol : float) (p : Pairing) (i : Ix) :
  (2 <= List.length (fst (assemble_terms eps dummy_eps_map ∅ eps_tol p i)))%nat.
Proof.
  rewrite assemble_terms_split, length_app, physical_terms_none. simpl. lia.
Qed.

(** X11: without zero constraints from the caller, the closure adds
    none, and writes exactly three equations for each pairing that passes
    the guards of its group; its only warnings are those of strain
    components missing from the map. *)
Theorem X11_closure_without_fixed_dofs (face_pairings : FacePairings)
    (edge_pairings : EdgePairings) (vertex_pairings : list Pairing)
    (nodes : Nodes) (eps : Strain) (dummy_eps_map : DummyEpsMap)
    (eps_tol : float) :
  let gs := groups face_pairings edge_pairings vertex_pairings in
  let r := closure_generate_all_mpcs face_pairings edge_pairings vertex_pairings
             nodes eps dummy_eps_map ∅ eps_tol in
  fst (fst r) = ∅
  /\ List.length (snd (fst r)) = (3 * List.length (passing_pairings gs nodes))%nat
  /\ forall s, In s (snd r) -> exists i j, s = missing_map_warning i j.
Proof.
  intros gs r. subst r. unfold closure_generate_all_mpcs. fold gs.
  change 50%nat with (S 49).
  assert (Hc : closed gs nodes eps dummy_eps_map eps_tol ∅).
  { unfold closed. by rewrite (proj1 (sweep_no_fixed _ _ _ _ _)). }
  rewrite (closure_loop_break _ _ _ _ _ _ _ _ Hc). cbn [fst snd].
  split; [done | split].
  - apply sweep_no_fixed.
  - intros s Hs. apply (proj1 (sorted_set_In _ _)) in Hs.
    assert (Hs' : In s (gen_warnings (sweep gs nodes eps dummy_eps_map ∅ eps_tol)))
      by (apply in_app_or in Hs as [Hs | Hs]; exact Hs).
    apply sweep_warnings in Hs' as (g & p & i & _ & _ & _ & Hs').
    apply gen_dof_warnings in Hs' as [(j & -> & _) | (t & Ht & _)].
    + by exists i, j.
    + pose proof (assemble_terms_no_fixed_length eps dummy_eps_map eps_tol p i) as Hl.
      rewrite Ht in Hl. simpl in Hl. lia.
Qed.

Lemma dummy_terms_negligible (eps : Strain) (dummy_eps_map : DummyEpsMap)
    (fixed_dofs : FixedDofSet) (eps_tol : float) (i : Ix)
    (deltas : list (Ix * float)) :
  negligible_strain eps eps_tol ->
  dummy_terms (eps_row eps i) dummy_eps_map fixed_dofs eps_tol i deltas = ([], []).
Proof.
  intros Hz. induction deltas as [|[j dv] rest IH]; first done.
  cbn [dummy_terms]. rewrite IH.
  change (row_at (eps_row eps i) j) with (eps_at eps i j). by rewrite Hz.
Qed.

Lemma assemble_terms_negligible (eps : Strain) (dummy_eps_map : DummyEpsMap)
    (fixed_dofs : FixedDofSet) (eps_tol : float) (p : Pairing) (i : Ix) :
  negligible_strain eps eps_tol ->
  assemble_terms eps dummy_eps_map fixed_dofs eps_tol p i
  = (physical_terms fixed_dofs p (comp i), []).
Proof.
  intros Hz. unfold assemble_terms. destruct (delta p) as [[dx dy] dz].
  rewrite (dummy_terms_negligible _ _ _ _ _ _ Hz). by rewrite app_nil_r.
Qed.

Lemma pair_passes_physical (nodes : Nodes) (required_kind : option Kind)
    (p : Pairing) :
  pair_passes nodes required_kind p = true ->
  is_physical nodes (minus_node p) = true /\ is_physical nodes (plus_node p) = true.
Proof.
  unfold pair_passes, is_physical.
  destruct (nodes_get nodes (minus_node p)) as [a|]; [|done].
  destruct (nodes_get nodes (plus_node p)) as [b|]; [|done].
  intros _. split; apply bool_decide_eq_true; by eexists.
Qed.

Lemma driver_loop_negligible (eps : Strain) (eps_tol : float)
    (items : DummyEpsMap) (drv : DriverMap) :
  negligible_strain eps eps_tol -> driver_loop eps eps_tol items drv = inr drv.
Proof.
  intros Hz. induction items as [|[[i j] [[dn dr] d]] items IH]; first done.
  simpl. by rewrite Hz.
Qed.

(** A closed set, under a strain that is negligible, holds the dof of the
    plus node of a passing pairing exactly when it holds the dof of its
    minus node. *)
Lemma closed_negligible (gs : list (list Pairing * option Kind)) (nodes : Nodes)
    (eps : Strain) (dummy_eps_map : DummyEpsMap) (F : FixedDofSet)
    (g : list Pairing * option Kind) (p : Pairing) (i : Ix) :
  negligible_strain eps eps_tol_default ->
  closed gs nodes eps dummy_eps_map eps_tol_default F ->
  In g gs -> In p (fst g) -> pair_passes nodes (snd g) p = true ->
  (plus_node p, comp i) ∈ F <-> (minus_node p, comp i) ∈ F.
Proof.
  intros Hz Hc Hg Hp Hpass.
  destruct (pair_passes_physical _ _ _ Hpass) as [Hm Hpl].
  assert (Himp : forall k,
            k ∈ gen_implied (gen_dof nodes eps dummy_eps_map F eps_tol_default
                               one_term_tol_default p i) -> k ∈ F).
  { intros k Hk. apply Hc, sweep_implied. by exists g, p, i. }
  unfold gen_dof in Himp. rewrite (assemble_terms_negligible _ _ _ _ _ _ Hz) in Himp.
  unfold physical_terms in Himp.
  destruct (decide ((plus_node p, comp i) ∈ F)) as [H1 | H1];
    destruct (decide ((minus_node p, comp i) ∈ F)) as [H2 | H2]; try tauto.
  - exfalso. apply H2, Himp.
    rewrite (bool_decide_eq_true_2 _ H1), (bool_decide_eq_false_2 _ H2).
    cbn [app resolve_terms]. rewrite Hm.
    assert (is_close (PrimFloat.abs (-1)) 1 one_term_tol_default = true) as ->
      by reflexivity.
    unfold gen_implied. simpl. set_solver.
  - exfalso. apply H1, Himp.
    rewrite (bool_decide_eq_false_2 _ H1), (bool_decide_eq_true_2 _ H2).
    cbn [app resolve_terms]. rewrite Hpl.
    assert (is_close (PrimFloat.abs 1) 1 one_term_tol_default = true) as ->
      by reflexivity.
    unfold gen_implied. simpl. set_solver.
Qed.

(** X12: a run under a strain whose nine components are all below the
    threshold. There is no driver constraint, and every equation ties the
    same dof of the two nodes of a pairing: +1 on the plus node, -1 on the
    minus node. When the warning of the iteration limit is absent, the final
    set of zero constraints is periodic: it holds a dof of the plus node of
    a passing pairing exactly when it holds that dof of the minus node. *)
Theorem X12_negligible_strain (P : Parsed) (R : Prepared) :
  negligible_strain (eps P) eps_tol_default ->
  prepare P = inr R ->
  driver_constraints R = []
  /\ (forall ts, In ts (run_equations P R) ->
        exists p d, ts = [(1%float, plus_node p, d); ((-1)%float, minus_node p, d)])
  /\ (~ In limit_warning (warnings R) ->
      forall p d,
        In p (passing_pairings (groups (face_pairings R) (edge_pairings R)
                                  (vertex_pairings R)) (classified R)) ->
        (plus_node p, d) ∈ fixed_final R <-> (minus_node p, d) ∈ fixed_final R).
Proof.
  intros Hz HR.
  destruct (prepare_inr P R HR) as (_ & _ & _ & _ & _ & Hc & Hd & _).
  split; [|split].
  - unfold build_driver_constraints in Hd.
    rewrite (driver_loop_negligible _ _ _ _ Hz) in Hd. by apply inr_inj in Hd.
  - intros ts Hts. unfold run_equations in Hts.
    apply sweep_equations_In in Hts as (g & p & i & _ & _ & _ & -> & Hlen).
    rewrite (assemble_terms_negligible _ _ _ _ _ _ Hz) in *. cbn [fst] in *.
    exists p, (comp i). unfold physical_terms in *.
    repeat case_bool_decide; simpl in Hlen; try lia. done.
  - intros Hno p d Hp.
    apply in_flat_map in Hp as (g & Hg & Hp). apply filter_In in Hp as [Hp Hpass].
    assert (Hclosed : closed (groups (face_pairings R) (edge_pairings R)
                                (vertex_pairings R)) (classified R) (eps P)
                        (dummy_eps_map P) eps_tol_default (fixed_final R)).
    { pose proof (closure_fixed_eq (face_pairings R) (edge_pairings R)
                    (vertex_pairings R) (classified R) (eps P) (dummy_eps_map P)
                    (fixed_dofs P) eps_tol_default) as Hf.
      rewrite Hc in Hf. cbn [fst] in Hf.
      destruct (closure_loop_rounds
                  (groups (face_pairings R) (edge_pairings R) (vertex_pairings R))
                  (classified R) (eps P) (dummy_eps_map P) eps_tol_default 50
                  (fixed_dofs P) []) as (k & _ & Hk & Hor).
      rewrite Hf, Hk. destruct Hor as [Hcl | Hlim]; first exact Hcl.
      exfalso. apply Hno.
      apply closure_limit_warning with (F := fixed_dofs P) in Hlim.
      by rewrite Hc in Hlim. }
    assert (Hd' : exists i, d = comp i).
    { destruct d; [by exists I1 | by exists I2 | by exists I3]. }
    destruct Hd' as [i ->].
    by apply (closed_negligible _ _ _ _ _ g p i Hz Hclosed).
Qed.

Lemma X12_witness :
  exists R, prepare cube_pinned = inr R
            /\ driver_constraints R = []
            /\ forall ts, In ts (run_equations cube_pinned R) ->
                 exists p d, ts = [(1%float, plus_node p, d);
                                   ((-1)%float, minus_node p, d)].
Proof.
  destruct (prepare cube_pinned) as [e|R] eqn:HR.
  - exfalso. vm_compute in HR. discriminate HR.
  - exists R. split; [reflexivity|].
    assert (Hz : negligible_strain (eps cube_pinned) eps_tol_default)
      by (intros [] []; reflexivity).
    destruct (X12_negligible_strain cube_pinned R Hz HR) as (H1 & H2 & _).
    by split.
Defined.


(** ** The order of the floats and the bounds *)

Lemma SFltb_trans (a b c : spec_float) :
  SFltb a b = true -> SFltb b c = true -> SFltb a c = true.
Proof.
  unfold SFltb, SFcompare.
  destruct a as [sa|sa| |sa ma ea], b as [sb|sb| |sb mb eb], c as [sc|sc| |sc mc ec];
    try discriminate; try reflexivity;
    repeat match goal with s : bool |- _ => destruct s end;
    try discriminate; try reflexivity;
    change (PosDef.Pos.compare_cont Eq) with Pos.compare;
    destruct (Z.compare_spec ea eb), (Z.compare_spec eb ec), (Z.compare_spec ea ec);
    try discriminate; try reflexivity; try lia; subst;
    destruct (Pos.compare_spec ma mb), (Pos.compare_spec mb mc),
      (Pos.compare_spec ma mc);
    simpl; try discriminate; try reflexivity; try lia.
Qed.

Lemma SFltb_irrefl (a : spec_float) : SFltb a a = false.
Proof.
  unfold SFltb, SFcompare.
  destruct a as [sa|sa| |sa ma ea]; try reflexivity.
  - by destruct sa.
  - change (PosDef.Pos.compare_cont Eq) with Pos.compare.
    rewrite Z.compare_refl, Pos.compare_refl. by destruct sa.
Qed.

Lemma SFltb_false_leb (a b : spec_float) :
  SFeqb a a = true -> SFeqb b b = true -> SFltb a b = false -> SFleb b a = true.
Proof.
  unfold SFltb, SFleb, SFeqb, SFcompare.
  destruct a as [sa|sa| |sa ma ea], b as [sb|sb| |sb mb eb];
    try discriminate; try reflexivity;
    repeat match goal with s : bool |- _ => destruct s end;
    try discriminate; try reflexivity;
    change (PosDef.Pos.compare_cont Eq) with Pos.compare;
    intros _ _;
    rewrite (Z.compare_antisym ea eb), (Pos.compare_antisym ma mb);
    destruct (ea ?= eb)%Z; simpl; try discriminate; try reflexivity;
    destruct (ma ?= mb)%positive; simpl; try discriminate; try reflexivity.
Qed.

(** [<] on floats is transitive and irreflexive; between numbers, it fails
    exactly when [>=] holds. *)
Lemma float_ltb_trans (a b c : float) :
  PrimFloat.ltb a b = true -> PrimFloat.ltb b c = true -> PrimFloat.ltb a c = true.
Proof. rewrite !FloatAxioms.ltb_spec. apply SFltb_trans. Qed.

Lemma float_ltb_irrefl (a : float) : PrimFloat.ltb a a = false.
Proof. rewrite FloatAxioms.ltb_spec. apply SFltb_irrefl. Qed.

Lemma float_ltb_false_leb (a b : float) :
  is_number a -> is_number b -> PrimFloat.ltb a b = false -> PrimFloat.leb b a = true.
Proof.
  unfold is_number.
  rewrite !FloatAxioms.eqb_spec, FloatAxioms.ltb_spec, FloatAxioms.leb_spec.
  apply SFltb_false_leb.
Qed.

(** The running minimum: an element seen, which no element seen is below. *)
Lemma min_fold_spec (l seen : list float) (a : float) :
  In a seen -> (forall c, In c seen -> PrimFloat.ltb c a = false) ->
  let m := fold_left (fun m c => if PrimFloat.ltb c m then c else m) l a in
  In m (seen ++ l) /\ forall c, In c (seen ++ l) -> PrimFloat.ltb c m = false.
Proof.
  revert seen a. induction l as [|c0 l IH]; intros seen a Ha Hlow.
  { simpl. rewrite app_nil_r. by split. }
  cbn [fold_left]. cbv zeta.
  replace (seen ++ c0 :: l) with ((seen ++ [c0]) ++ l) by by rewrite <- app_assoc.
  apply IH.
  - destruct (PrimFloat.ltb c0 a); apply in_or_app; [right; by left | by left].
  - intros c Hc. apply in_app_or in Hc as [Hc | [<- | []]].
    + destruct (PrimFloat.ltb c0 a) eqn:H0; [|by apply Hlow].
      destruct (PrimFloat.ltb c c0) eqn:Hcc; [|done].
      rewrite <- (Hlow c Hc). symmetry. by apply (float_ltb_trans _ c0).
    + destruct (PrimFloat.ltb c0 a) eqn:H0; [apply float_ltb_irrefl | done].
Qed.

Lemma max_fold_spec (l seen : list float) (a : float) :
  In a seen -> (forall c, In c seen -> PrimFloat.ltb a c = false) ->
  let m := fold_left (fun m c => if PrimFloat.ltb m c then c else m) l a in
  In m (seen ++ l) /\ forall c, In c (seen ++ l) -> PrimFloat.ltb m c = false.
Proof.
  revert seen a. induction l as [|c0 l IH]; intros seen a Ha Hup.
  { simpl. rewrite app_nil_r. by split. }
  cbn [fold_left]. cbv zeta.
  replace (seen ++ c0 :: l) with ((seen ++ [c0]) ++ l) by by rewrite <- app_assoc.
  apply IH.
  - destruct (PrimFloat.ltb a c0); apply in_or_app; [right; by left | by left].
  - intros c Hc. apply in_app_or in Hc as [Hc | [<- | []]].
    + destruct (PrimFloat.ltb a c0) eqn:H0; [|by apply Hup].
      destruct (PrimFloat.ltb c0 c) eqn:Hcc; [|done].
      rewrite <- (Hup c Hc). symmetry. by apply (float_ltb_trans _ c0).
    + destruct (PrimFloat.ltb a c0) eqn:H0; [apply float_ltb_irrefl | done].
Qed.

Lemma py_min_spec (l : list float) (m : float) :
  Py.min l = Some m ->
  In m l /\ forall c, In c l -> PrimFloat.ltb c m = false.
Proof.
  destruct l as [|a l]; first done. unfold Py.min. intros [= <-].
  apply (min_fold_spec l [a] a); [by left|].
  intros c [<- | []]. apply float_ltb_irrefl.
Qed.

Lemma py_max_spec (l : list float) (m : float) :
  Py.max l = Some m ->
  In m l /\ forall c, In c l -> PrimFloat.ltb m c = false.
Proof.
  destruct l as [|a l]; first done. unfold Py.max. intros [= <-].
  apply (max_fold_spec l [a] a); [by left|].
  intros c [<- | []]. apply float_ltb_irrefl.
Qed.

Lemma detect_bounds_inr (nodes : Nodes) (b : Bounds) :
  detect_bounds nodes = inr b ->
  forall a,
    Py.min (map (fun nd => _axis_coord nd a) nodes)
    = Some (plane_of b (minus_face_of a))
    /\ Py.max (map (fun nd => _axis_coord nd a) nodes)
       = Some (plane_of b (plus_face_of a)).
Proof.
  unfold detect_bounds.
  destruct (Py.min (map x nodes)) as [xmin|] eqn:H1; [|done].
  destruct (Py.max (map x nodes)) as [xmax|] eqn:H2; [|done].
  destruct (Py.min (map y nodes)) as [ymin|] eqn:H3; [|done].
  destruct (Py.max (map y nodes)) as [ymax|] eqn:H4; [|done].
  destruct (Py.min (map z nodes)) as [zmin|] eqn:H5; [|done].
  destruct (Py.max (map z nodes)) as [zmax|] eqn:H6; [|done].
  intros Hb. apply inr_inj in Hb. subst b. intros []; by split.
Qed.

(** X13: the bounds of the node coordinates. The function raises, with
    the error of the empty sequence, exactly when there is no node.
    Otherwise, along each axis, the lower and the upper bound are
    coordinates of nodes, no node has a coordinate below the lower bound or
    above the upper bound, and when no coordinate along the axis is a NaN
    every node lies between the two bounds. *)
Theorem X13_detect_bounds (nodes : Nodes) :
  (detect_bounds nodes = inl EmptySequence <-> nodes = [])
  /\ forall b, detect_bounds nodes = inr b ->
     forall a,
       let lo := plane_of b (minus_face_of a) in
       let hi := plane_of b (plus_face_of a) in
       (exists nd, In nd nodes /\ _axis_coord nd a = lo)
       /\ (exists nd, In nd nodes /\ _axis_coord nd a = hi)
       /\ (forall nd, In nd nodes ->
             PrimFloat.ltb (_axis_coord nd a) lo = false
             /\ PrimFloat.ltb hi (_axis_coord nd a) = false)
       /\ ((forall nd, In nd nodes -> is_number (_axis_coord nd a)) ->
           forall nd, In nd nodes ->
             PrimFloat.leb lo (_axis_coord nd a) = true
             /\ PrimFloat.leb (_axis_coord nd a) hi = true).
Proof.
  split.
  - split; [|by intros ->].
    destruct nodes as [|nd nodes]; first done.
    destruct (detect_bounds_cons nd nodes) as [b ->]. done.
  - intros b Hb a lo hi.
    destruct (detect_bounds_inr nodes b Hb a) as [Hmin Hmax].
    apply py_min_spec in Hmin as [Hlo Hlow]. apply py_max_spec in Hmax as [Hhi Hup].
    fold lo in Hlo, Hlow. fold hi in Hhi, Hup.
    apply in_map_iff in Hlo as (ndl & Hndl & Hinl).
    apply in_map_iff in Hhi as (ndh & Hndh & Hinh).
    assert (Hbetween : forall nd, In nd nodes ->
              PrimFloat.ltb (_axis_coord nd a) lo = false
              /\ PrimFloat.ltb hi (_axis_coord nd a) = false).
    { intros nd Hnd. split; [apply Hlow | apply Hup];
        apply in_map_iff; by exists nd. }
    split; [by exists ndl | split; [by exists ndh | split; [exact Hbetween|]]].
    intros Hnum nd Hnd. destruct (Hbetween nd Hnd) as [H1 H2].
    split; apply float_ltb_false_leb; try done; try (by apply Hnum).
    + rewrite <- Hndl. by apply Hnum.
    + rewrite <- Hndh. by apply Hnum.
Qed.


(** ** The tokens of a line *)

Lemma split_ws_cons (c : ascii) (s : string) (cur : list ascii) :
  split_ws (String c s) cur
  = if is_space c then flush_run cur ++ split_ws s [] else split_ws s (c :: cur).
Proof. reflexivity. Qed.

Lemma split_ws_nil (cur : list ascii) : split_ws EmptyString cur = flush_run cur.
Proof. reflexivity. Qed.

Lemma space_not_comma (c : ascii) :
  is_space c = true -> Ascii.eqb c "," = false.
Proof.
  intros H. destruct (Ascii.eqb_spec c ","%char) as [-> | _]; [|done].
  vm_compute in H. discriminate H.
Qed.

Lemma replace_commas_cons (c : ascii) (s : string) :
  replace_commas (String c s)
  = String (if Ascii.eqb c "," then " "%char else c) (replace_commas s).
Proof. reflexivity. Qed.

Lemma split_lstrip (s : string) :
  split_ws (replace_commas (lstrip s)) [] = split_ws (replace_commas s) [].
Proof.
  induction s as [|c s IH]; first done.
  cbn [lstrip]. destruct (is_space c) eqn:Hc; [|done].
  rewrite IH, replace_commas_cons, (space_not_comma c Hc), split_ws_cons, Hc.
  done.
Qed.

Lemma split_blank (s : string) (cur : list ascii) :
  rstrip_ws s = EmptyString -> split_ws (replace_commas s) cur = flush_run cur.
Proof.
  revert cur. induction s as [|c s IH]; intros cur; first done.
  cbn [rstrip_ws]. destruct (rstrip_ws s) eqn:Hr; [|done].
  destruct (is_space c) eqn:Hc; [|done]. intros _.
  rewrite replace_commas_cons, (space_not_comma c Hc), split_ws_cons, Hc.
  rewrite (IH [] eq_refl). apply app_nil_r.
Qed.

Lemma split_rstrip (s : string) (cur : list ascii) :
  split_ws (replace_commas (rstrip_ws s)) cur = split_ws (replace_commas s) cur.
Proof.
  revert cur. induction s as [|c s IH]; intros cur; first done.
  cbn [rstrip_ws]. destruct (rstrip_ws s) as [|a r] eqn:Hr.
  - destruct (is_space c) eqn:Hc.
    + rewrite replace_commas_cons, (space_not_comma c Hc), split_ws_cons, Hc.
      rewrite (split_blank s [] Hr). simpl. by rewrite app_nil_r.
    + rewrite (replace_commas_cons c ""), (replace_commas_cons c s).
      rewrite !split_ws_cons.
      destruct (is_space (if Ascii.eqb c "," then " "%char else c)).
      * by rewrite (split_blank s [] Hr).
      * by rewrite (split_blank s _ Hr).
  - rewrite (replace_commas_cons c (String a r)), (replace_commas_cons c s).
    rewrite !split_ws_cons.
    destruct (is_space (if Ascii.eqb c "," then " "%char else c)); by rewrite IH.
Qed.

Lemma flush_run_nonempty (cur : list ascii) (t : string) :
  In t (flush_run cur) -> t <> EmptyString.
Proof.
  destruct cur as [|c cur]; first done. intros [<- | []].
  simpl. destruct (rev cur); done.
Qed.

Lemma split_ws_nonempty (s : string) (cur : list ascii) (t : string) :
  In t (split_ws s cur) -> t <> EmptyString.
Proof.
  revert cur. induction s as [|c s IH]; intros cur.
  - apply flush_run_nonempty.
  - rewrite split_ws_cons. destruct (is_space c); [|apply IH].
    intros H. apply in_app_or in H as [H | H];
      [by apply flush_run_nonempty in H | by apply IH in H].
Qed.

Lemma filter_all {A} (f : A -> bool) (l : list A) :
  (forall a, In a l -> f a = true) -> List.filter f l = l.
Proof.
  induction l as [|a l IH]; intros H; first done.
  simpl. rewrite (H a) by by left. f_equal. apply IH. intros; apply H. by right.
Qed.

(** The tokens of a line are the runs, without white space and commas, of
    the part of the line before "#": stripping that part and dropping the
    empty tokens change nothing. *)
Lemma data_tokens_runs (line : string) :
  data_tokens line = split_ws (replace_commas (before_hash line)) [].
Proof.
  unfold data_tokens, strip.
  rewrite <- (split_lstrip (before_hash line)).
  rewrite <- (split_rstrip (lstrip (before_hash line))).
  case_bool_decide as Hcore.
  - by rewrite Hcore.
  - apply filter_all. intros t Ht. apply split_ws_nonempty in Ht.
    by rewrite bool_decide_eq_false_2.
Qed.

Lemma chars_string_of_list (l : list ascii) : chars (string_of_list_ascii l) = l.
Proof. apply list_ascii_of_string_of_list_ascii. Qed.

Lemma flush_run_chars (cur : list ascii) (t : string) (c : ascii) :
  In t (flush_run cur) -> In c (chars t) -> In c cur.
Proof.
  destruct cur as [|c0 cur]; first done. intros [<- | []].
  rewrite chars_string_of_list. intros H. by apply in_rev in H.
Qed.

Lemma split_ws_chars (s : string) (cur : list ascii) (t : string) (c : ascii) :
  In t (split_ws s cur) -> In c (chars t) ->
  In c cur \/ (In c (chars s) /\ is_space c = false).
Proof.
  revert cur. induction s as [|c0 s IH]; intros cur Ht Hc.
  - left. by apply (flush_run_chars cur t).
  - rewrite split_ws_cons in Ht. destruct (is_space c0) eqn:H0.
    + apply in_app_or in Ht as [Ht | Ht].
      * left. by apply (flush_run_chars cur t).
      * destruct (IH [] Ht Hc) as [[] | [H1 H2]]. right. split; [by right | done].
    + destruct (IH _ Ht Hc) as [[<- | H1] | [H1 H2]].
      * right. split; [by left | done].
      * by left.
      * right. split; [by right | done].
Qed.

Lemma replace_commas_chars (s : string) (c : ascii) :
  In c (chars (replace_commas s)) -> is_space c = false ->
  In c (chars s) /\ c <> ","%char.
Proof.
  induction s as [|c0 s IH]; first done.
  rewrite replace_commas_cons. intros [Hc | Hc] Hsp.
  - destruct (Ascii.eqb_spec c0 ","%char) as [-> | Hne].
    + subst c. done.
    + subst c. split; [by left | done].
  - destruct (IH Hc Hsp) as [H1 H2]. split; [by right | done].
Qed.

Lemma before_hash_chars (s : string) (c : ascii) :
  In c (chars (before_hash s)) -> c <> "#"%char.
Proof.
  induction s as [|c0 s IH]; first done.
  cbn [before_hash]. destruct (Ascii.eqb_spec c0 "#"%char) as [-> | Hne]; first done.
  intros [<- | H]; [done | by apply IH].
Qed.

Lemma string_app_cons (c : ascii) (s1 s2 : string) :
  String c s1 +:+ s2 = String c (s1 +:+ s2).
Proof. reflexivity. Qed.

Lemma before_hash_app (line rest : string) :
  before_hash (line +:+ String "#" rest) = before_hash line.
Proof.
  induction line as [|c line IH]; first done.
  rewrite string_app_cons. cbn [before_hash]. by rewrite IH.
Qed.

Lemma before_hash_id (s : string) :
  (forall c, In c (chars s) -> c <> "#"%char) -> before_hash s = s.
Proof.
  induction s as [|c s IH]; intros H; first done.
  cbn [before_hash]. destruct (Ascii.eqb_spec c "#"%char) as [-> | _].
  - exfalso. by apply (H "#"%char); [left|].
  - f_equal. apply IH. intros c' Hc'. apply H. by right.
Qed.

Lemma replace_commas_id (s : string) :
  (forall c, In c (chars s) -> c <> ","%char) -> replace_commas s = s.
Proof.
  induction s as [|c s IH]; intros H; first done.
  rewrite replace_commas_cons. destruct (Ascii.eqb_spec c ","%char) as [-> | _].
  - exfalso. by apply (H ","%char); [left|].
  - f_equal. apply IH. intros c' Hc'. apply H. by right.
Qed.

Lemma chars_app (s1 s2 : string) : chars (s1 +:+ s2) = chars s1 ++ chars s2.
Proof.
  induction s1 as [|c s1 IH]; first done.
  rewrite string_app_cons. simpl. by rewrite <- IH.
Qed.

(** Reading a run without white space puts it on the current run. *)
Lemma split_ws_run (t s : string) (cur : list ascii) :
  (forall c, In c (chars t) -> is_space c = false) ->
  split_ws (t +:+ s) cur = split_ws s (rev (chars t) ++ cur).
Proof.
  revert cur. induction t as [|c t IH]; intros cur H; first done.
  rewrite string_app_cons, split_ws_cons, (H c) by by left.
  rewrite IH by (intros c' Hc'; apply H; by right).
  simpl. by rewrite <- app_assoc.
Qed.

Lemma flush_run_token (t : string) :
  t <> EmptyString -> flush_run (rev (chars t) ++ []) = [t].
Proof.
  intros Ht. rewrite app_nil_r. unfold flush_run.
  destruct (rev (chars t)) as [|c l] eqn:Hr.
  - destruct t; [done|]. apply (f_equal (@rev ascii)) in Hr.
    rewrite rev_involutive in Hr. done.
  - rewrite <- Hr, rev_involutive. unfold chars.
    by rewrite string_of_list_ascii_of_string.
Qed.

Lemma append_empty_r (s : string) : s +:+ "" = s.
Proof.
  induction s as [|c s IH]; first done. by rewrite string_app_cons, IH.
Qed.

Lemma split_ws_join (l : list string) :
  Forall is_token l -> split_ws (Py.join " " l) [] = l.
Proof.
  induction 1 as [|t l [Hne Ht] Hl IH]; first done.
  assert (Hsp : forall c, In c (chars t) -> is_space c = false)
    by (intros c Hc; by apply Ht).
  destruct l as [|t2 l].
  - cbn [Py.join]. rewrite <- (append_empty_r t) at 1.
    rewrite (split_ws_run t "" [] Hsp), split_ws_nil. by apply flush_run_token.
  - change (Py.join " " (t :: t2 :: l)) with (t +:+ " " +:+ Py.join " " (t2 :: l)).
    rewrite (split_ws_run t _ [] Hsp).
    change (" " +:+ Py.join " " (t2 :: l)) with (String " " (Py.join " " (t2 :: l))).
    rewrite split_ws_cons. change (is_space " ") with true. cbv iota.
    rewrite IH, (flush_run_token t Hne). done.
Qed.

Lemma join_tokens_chars (l : list string) (c : ascii) :
  Forall is_token l -> In c (chars (Py.join " " l)) ->
  c <> ","%char /\ c <> "#"%char.
Proof.
  induction 1 as [|t l [Hne Ht] Hl IH]; first done.
  destruct l as [|t2 l].
  - cbn [Py.join]. intros Hc. by apply Ht.
  - change (Py.join " " (t :: t2 :: l)) with (t +:+ " " +:+ Py.join " " (t2 :: l)).
    rewrite !chars_app. intros Hc.
    apply in_app_or in Hc as [Hc | Hc]; first by apply Ht.
    apply in_app_or in Hc as [Hc | Hc]; [|by apply IH].
    destruct Hc as [<- | []]. done.
Qed.

(** X14: the tokens of a line. Each token is not empty and holds no white
    space, no comma and no "#". What follows a "#" does not count: a line
    and the line with a comment appended have the same tokens. And the
    tokens joined by single blanks make a line with the same tokens. *)
Theorem X14_data_tokens (line : string) :
  Forall is_token (data_tokens line)
  /\ (forall comment, data_tokens (line +:+ String "#" comment) = data_tokens line)
  /\ data_tokens (Py.join " " (data_tokens line)) = data_tokens line.
Proof.
  assert (Htok : Forall is_token (data_tokens line)).
  { rewrite data_tokens_runs. apply Forall_forall. intros t Ht.
    apply list_elem_of_In in Ht. split; [by apply split_ws_nonempty in Ht|].
    intros c Hc. destruct (split_ws_chars _ _ _ _ Ht Hc) as [[] | [H1 H2]].
    apply replace_commas_chars in H1 as [H1 H3]; [|done].
    apply before_hash_chars in H1. done. }
  split; [exact Htok | split].
  - intros comment. by rewrite !data_tokens_runs, before_hash_app.
  - rewrite (data_tokens_runs (Py.join _ _)).
    rewrite before_hash_id by (intros c Hc; by apply (join_tokens_chars _ _ Htok)).
    rewrite replace_commas_id by (intros c Hc; by apply (join_tokens_chars _ _ Htok)).
    by apply split_ws_join.
Qed.


(* ===================================================================== *)
(** ** The parser *)

Ltac parse_steps := cbv [mbind mret parse_bind parse_ret].

Lemma data_lines_app (r1 r2 : list string) :
  data_lines (r1 ++ r2) = data_lines r1 ++ data_lines r2.
Proof. unfold data_lines. by rewrite List.filter_app, map_app. Qed.

Section ParseModelFacts.
Variable py_int : string -> option Z.
Variable py_float : string -> option float.
Variable py_upper : string -> string.
Variable py_lower : string -> string.

Local Abbreviation absE := (abs_entries py_int py_lower).
Local Abbreviation mapE := (map_entries py_int py_lower).
Local Abbreviation pabs := (parse_abs py_int py_upper py_lower).
Local Abbreviation pmap := (parse_map py_int py_upper py_lower).
Local Abbreviation pblock := (parse_node_block py_int py_float).
Local Abbreviation pmodel := (parse_model_def py_int py_float py_upper py_lower).

(** *** Lines after the node block *)

Lemma abs_entries_app (n : nat) (lines extra : list string) (idx : nat)
(fixed : FixedDofSet) (r : nat * FixedDofSet) :
absE n lines idx fixed = inr r ->
absE n (lines ++ extra) idx fixed = inr r.
Proof.
revert idx fixed. induction n as [|n IH]; intros idx fixed; first done.
cbn [abs_entries].
destruct (lines !! idx) as [line|] eqn:Hl; [|done].
rewrite (lookup_app_l_Some _ _ _ _ Hl).
destruct (data_tokens line) as [|t0 [|t1 ts]]; [done | done |].
parse_steps. destruct (int_of py_int t0) as [?|node]; [done|].
destruct (abs_dofs py_lower node (t1 :: ts) fixed) as [?|fixed']; [done|].
apply IH.
Qed.

Lemma abs_entries_idx (n : nat) (lines : list string) (idx : nat)
(fixed : FixedDofSet) (idx' : nat) (fixed' : FixedDofSet) :
absE n lines idx fixed = inr (idx', fixed') ->
idx' = (idx + n)%nat /\ (idx <= List.length lines -> idx' <= List.length lines)%nat.
Proof.
revert idx fixed. induction n as [|n IH]; intros idx fixed.
{ intros [= <- <-]. lia. }
cbn [abs_entries].
destruct (lines !! idx) as [line|] eqn:Hl; [|done].
apply lookup_lt_Some in Hl.
destruct (data_tokens line) as [|t0 [|t1 ts]]; [done | done |].
parse_steps. destruct (int_of py_int t0) as [?|node]; [done|].
destruct (abs_dofs py_lower node (t1 :: ts) fixed) as [?|fixed1]; [done|].
intros H. apply IH in H. lia.
Qed.

Lemma map_entries_app (n : nat) (lines extra : list string) (idx : nat)
(dmap : DummyEpsMap) (r : nat * DummyEpsMap) :
mapE n lines idx dmap = inr r ->
mapE n (lines ++ extra) idx dmap = inr r.
Proof.
revert idx dmap. induction n as [|n IH]; intros idx dmap; first done.
cbn [map_entries].
destruct (lines !! idx) as [line|] eqn:Hl; [|done].
rewrite (lookup_app_l_Some _ _ _ _ Hl).
destruct (data_tokens line) as [|t0 [|t1 [|t2 [|t3 [|t4 [|]]]]]]; try done.
parse_steps.
destruct (int_of py_int t0) as [?|i]; [done|].
destruct (int_of py_int t1) as [?|j]; [done|].
destruct (int_of py_int t2) as [?|dn]; [done|].
destruct (int_of py_int t3) as [?|drv]; [done|].
destruct (ix_of_Z i) as [i'|]; [|done].
destruct (ix_of_Z j) as [j'|]; [|done].
destruct (dof_of_string (py_lower t4)) as [d|]; [|done].
apply IH.
Qed.

Lemma map_entries_idx (n : nat) (lines : list string) (idx : nat)
(dmap : DummyEpsMap) (idx' : nat) (dmap' : DummyEpsMap) :
mapE n lines idx dmap = inr (idx', dmap') ->
idx' = (idx + n)%nat /\ (idx <= List.length lines -> idx' <= List.length lines)%nat.
Proof.
revert idx dmap. induction n as [|n IH]; intros idx dmap.
{ intros [= <- <-]. lia. }
cbn [map_entries].
destruct (lines !! idx) as [line|] eqn:Hl; [|done].
apply lookup_lt_Some in Hl.
destruct (data_tokens line) as [|t0 [|t1 [|t2 [|t3 [|t4 [|]]]]]]; try done.
parse_steps.
destruct (int_of py_int t0) as [?|i]; [done|].
destruct (int_of py_int t1) as [?|j]; [done|].
destruct (int_of py_int t2) as [?|dn]; [done|].
destruct (int_of py_int t3) as [?|drv]; [done|].
destruct (ix_of_Z i) as [i'|]; [|done].
destruct (ix_of_Z j) as [j'|]; [|done].
destruct (dof_of_string (py_lower t4)) as [d|]; [|done].
intros H. apply IH in H. lia.
Qed.

Lemma parse_abs_app (lines extra : list string) (idx : nat)
(r : nat * FixedDofSet) :
is_Some (lines !! idx) ->
pabs lines idx = inr r -> pabs (lines ++ extra) idx = inr r.
Proof.
intros [line Hl]. unfold parse_abs.
rewrite (lookup_app_l_Some _ _ _ _ Hl), Hl.
destruct (data_tokens line) as [|t0 ts]; [done|].
destruct (bool_decide _); [|done].
destruct ts as [|t1 [|]]; try done.
parse_steps. destruct (int_of py_int t1) as [?|n_fix]; [done|].
apply abs_entries_app.
Qed.

Lemma parse_abs_idx (lines : list string) (idx idx' : nat) (fixed : FixedDofSet) :
pabs lines idx = inr (idx', fixed) ->
(idx <= idx')%nat
/\ (idx <= List.length lines -> idx' <= List.length lines)%nat.
Proof.
unfold parse_abs.
destruct (lines !! idx) as [line|] eqn:Hl; [|intros [= <- <-]; lia].
apply lookup_lt_Some in Hl.
destruct (data_tokens line) as [|t0 ts]; [intros [= <- <-]; lia|].
destruct (bool_decide _); [|intros [= <- <-]; lia].
destruct ts as [|t1 [|]]; try done.
parse_steps. destruct (int_of py_int t1) as [?|n_fix]; [done|].
intros H. apply abs_entries_idx in H. lia.
Qed.

Lemma parse_map_app (lines extra : list string) (idx : nat)
(r : nat * DummyEpsMap) :
pmap lines idx = inr r -> pmap (lines ++ extra) idx = inr r.
Proof.
unfold parse_map.
destruct (lines !! idx) as [line|] eqn:Hl; [|done].
rewrite (lookup_app_l_Some _ _ _ _ Hl).
destruct (data_tokens line) as [|t0 ts]; [done|].
destruct (bool_decide _); [|done].
destruct ts as [|t1 [|]]; try done.
parse_steps. destruct (int_of py_int t1) as [?|n_map]; [done|].
apply map_entries_app.
Qed.

Lemma parse_map_idx (lines : list string) (idx idx' : nat) (dmap : DummyEpsMap) :
pmap lines idx = inr (idx', dmap) ->
is_Some (lines !! idx) /\ (idx' <= List.length lines)%nat.
Proof.
unfold parse_map.
destruct (lines !! idx) as [line|] eqn:Hl; [|done].
split; [by eexists|]. apply lookup_lt_Some in Hl. revert H.
destruct (data_tokens line) as [|t0 ts]; [done|].
destruct (bool_decide _); [|done].
destruct ts as [|t1 [|]]; try done.
parse_steps. destruct (int_of py_int t1) as [?|n_map]; [done|].
intros H. apply map_entries_idx in H. lia.
Qed.

Lemma parse_nodes_app (lines extra : list string) (idx : nat) (n_nodes : Z)
(nodes : Nodes) :
(idx <= List.length lines)%nat ->
parse_nodes py_int py_float lines idx n_nodes = inr nodes ->
parse_nodes py_int py_float (lines ++ extra) idx n_nodes = inr nodes.
Proof.
intros Hidx. unfold parse_nodes.
destruct (Z.of_nat (List.length lines) <? Z.of_nat idx + n_nodes) eqn:Hlen; [done|].
apply Z.ltb_ge in Hlen.
assert ((Z.of_nat (List.length (lines ++ extra)) <? Z.of_nat idx + n_nodes) = false)
as ->.
{ apply Z.ltb_ge. rewrite length_app. lia. }
rewrite drop_app_le by lia. rewrite take_app_le; [done|].
rewrite length_drop. lia.
Qed.

(** X16: the lines after the node block are ignored. When a model
definition parses, the same definition followed by any further lines
(the element lines, in a mesh file) parses to the same result. *)
Theorem X16_trailing_lines_ignored (raw_lines extra : list string) (P : Parsed) :
pmodel raw_lines = inr P ->
pmodel (raw_lines ++ extra) = inr P.
Proof.
unfold parse_model_def. rewrite data_lines_app.
generalize (data_lines extra). generalize (data_lines raw_lines).
clear raw_lines extra. intros lines extra.
destruct lines as [|l1 [|l2 [|l3 [|l4 [|l5 [|l6 rest]]]]]]; try done.
cbv zeta. cbn [app].
change (l1 :: l2 :: l3 :: l4 :: l5 :: l6 :: rest ++ extra)
with ((l1 :: l2 :: l3 :: l4 :: l5 :: l6 :: rest) ++ extra).
set (lines := l1 :: l2 :: l3 :: l4 :: l5 :: l6 :: rest).
parse_steps.
destruct (parse_line1 py_int l1) as [?|n_nodes]; [done|].
destruct (parse_line2 py_float l2) as [?|[[lx ly] lz]]; [done|].
destruct (parse_line3 py_int l3) as [?|vids]; [done|].
destruct (parse_row py_float 4 l4) as [?|r1]; [done|].
destruct (parse_row py_float 5 l5) as [?|r2]; [done|].
destruct (parse_row py_float 6 l6) as [?|r3]; [done|].
destruct (pabs lines 6) as [?|[idx fixed]] eqn:Habs; [done|].
destruct (pmap lines idx) as [?|[idx' dmap]] eqn:Hmap; [done|].
destruct (pblock lines idx' n_nodes) as [?|nodes] eqn:Hnodes; [done|].
intros HP.
pose proof (parse_map_idx _ _ _ _ Hmap) as [Hsome Hle].
assert (H6 : is_Some (lines !! 6%nat)).
{ destruct (lines !! 6%nat) eqn:H6; [by eexists|]. exfalso.
unfold parse_abs in Habs. rewrite H6 in Habs.
injection Habs as <- <-. rewrite H6 in Hsome. by destruct Hsome. }
rewrite (parse_abs_app _ extra _ _ H6 Habs).
rewrite (parse_map_app _ extra _ _ Hmap).
unfold parse_node_block in *.
destruct (parse_nodes py_int py_float lines idx' n_nodes) as [?|nd] eqn:Hn; [done|].
rewrite (parse_nodes_app _ extra _ _ _ Hle Hn).
apply inr_inj in Hnodes. by subst nd.
Qed.
End ParseModelFacts.

Lemma X16_witness :
  exists P,
    parse_model_def dec_int dec_float ascii_upper ascii_lower
      (sample_input ++ ["1 2 1"; "element lines"]) = inr P
    /\ map nid (nodes P) = [1; 2]
    /\ dummy_eps_map P = [((I1, I1), (11, 21, v))].
Proof.
  destruct (parse_model_def dec_int dec_float ascii_upper ascii_lower sample_input)
    as [e|P] eqn:HP.
  - exfalso. vm_compute in HP. discriminate HP.
  - exists P. split.
    + by apply X16_trailing_lines_ignored.
    + assert (Hpair : (map nid (nodes P), dummy_eps_map P)
                      = ([1; 2], [((I1, I1), (11, 21, v))])).
      { apply (f_equal (fun r => match r with
                                 | inr P' => (map nid (nodes P'), dummy_eps_map P')
                                 | inl _ => ([], [])
                                 end)) in HP.
        rewrite <- HP. vm_compute. reflexivity. }
      by injection Hpair as -> ->.
Defined.


(** *** Blanks, commas and comments *)

Lemma ok_bind {A B : Type} (m m' : ParseErr + A) (k k' : A -> ParseErr + B) :
  ok_of m = ok_of m' -> (forall a, ok_of (k a) = ok_of (k' a)) ->
  ok_of (m ≫= k) = ok_of (m' ≫= k').
Proof.
  parse_steps. destruct m as [e|a], m' as [e'|a']; simpl; try done.
  intros [= <-] Hk. apply Hk.
Qed.

Lemma lookup_tokens (lines lines' : list string) (idx : nat) :
  map data_tokens lines = map data_tokens lines' ->
  match lines !! idx, lines' !! idx with
  | Some l, Some l' => data_tokens l = data_tokens l'
  | None, None => True
  | _, _ => False
  end.
Proof.
  intros H. apply (f_equal (fun l => l !! idx)) in H.
  change (map data_tokens ?l) with (data_tokens <$> l) in H.
  rewrite !list_lookup_fmap in H.
  destruct (lines !! idx), (lines' !! idx); simpl in H; try done. by injection H.
Qed.

Section ParseTokens.
Variable py_int : string -> option Z.
Variable py_float : string -> option float.
Variable py_upper : string -> string.
Variable py_lower : string -> string.

Local Abbreviation absE := (abs_entries py_int py_lower).
Local Abbreviation mapE := (map_entries py_int py_lower).
Local Abbreviation pabs := (parse_abs py_int py_upper py_lower).
Local Abbreviation pmap := (parse_map py_int py_upper py_lower).
Local Abbreviation pblock := (parse_node_block py_int py_float).
Local Abbreviation pmodel := (parse_model_def py_int py_float py_upper py_lower).

Lemma parse_line1_tokens (l l' : string) :
data_tokens l = data_tokens l' ->
ok_of (parse_line1 py_int l) = ok_of (parse_line1 py_int l').
Proof.
intros H. unfold parse_line1. rewrite H.
by destruct (data_tokens l') as [|t0 [|t1 [|]]].
Qed.

Lemma parse_line2_tokens (l l' : string) :
data_tokens l = data_tokens l' ->
ok_of (parse_line2 py_float l) = ok_of (parse_line2 py_float l').
Proof.
intros H. unfold parse_line2. rewrite H.
by destruct (data_tokens l') as [|t0 [|t1 [|t2 [|]]]].
Qed.

Lemma parse_line3_tokens (l l' : string) :
data_tokens l = data_tokens l' ->
ok_of (parse_line3 py_int l) = ok_of (parse_line3 py_int l').
Proof.
intros H. unfold parse_line3. rewrite H. apply ok_bind; [done|].
by intros [|a [|b [|c [|d [|e [|f [|g [|h [|]]]]]]]]].
Qed.

Lemma parse_row_tokens (k : Z) (l l' : string) :
data_tokens l = data_tokens l' ->
ok_of (parse_row py_float k l) = ok_of (parse_row py_float k l').
Proof.
intros H. unfold parse_row. rewrite H.
by destruct (data_tokens l') as [|t0 [|t1 [|t2 [|]]]].
Qed.

Lemma abs_entries_tokens (n : nat) (lines lines' : list string) (idx : nat)
(fixed : FixedDofSet) :
map data_tokens lines = map data_tokens lines' ->
ok_of (absE n lines idx fixed) = ok_of (absE n lines' idx fixed).
Proof.
intros H. revert idx fixed. induction n as [|n IH]; intros idx fixed; first done.
cbn [abs_entries]. pose proof (lookup_tokens lines lines' idx H) as Hl.
destruct (lines !! idx) as [l|], (lines' !! idx) as [l'|]; try done.
rewrite Hl. destruct (data_tokens l') as [|t0 [|t1 ts]]; try done.
apply ok_bind; [done|]. intros node. apply ok_bind; [done|]. intros f. apply IH.
Qed.

Lemma parse_abs_tokens (lines lines' : list string) (idx : nat) :
map data_tokens lines = map data_tokens lines' ->
ok_of (pabs lines idx) = ok_of (pabs lines' idx).
Proof.
intros H. unfold parse_abs. pose proof (lookup_tokens lines lines' idx H) as Hl.
destruct (lines !! idx) as [l|], (lines' !! idx) as [l'|]; try done.
rewrite Hl. destruct (data_tokens l') as [|t0 ts]; try done.
destruct (bool_decide _); [|done].
destruct ts as [|t1 [|]]; try done.
apply ok_bind; [done|]. intros n. by apply abs_entries_tokens.
Qed.

Lemma map_entries_tokens (n : nat) (lines lines' : list string) (idx : nat)
(dmap : DummyEpsMap) :
map data_tokens lines = map data_tokens lines' ->
ok_of (mapE n lines idx dmap) = ok_of (mapE n lines' idx dmap).
Proof.
intros H. revert idx dmap. induction n as [|n IH]; intros idx dmap; first done.
cbn [map_entries]. pose proof (lookup_tokens lines lines' idx H) as Hl.
destruct (lines !! idx) as [l|], (lines' !! idx) as [l'|]; try done.
rewrite Hl.
destruct (data_tokens l') as [|t0 [|t1 [|t2 [|t3 [|t4 [|]]]]]]; try done.
apply ok_bind; [done|]. intros i. apply ok_bind; [done|]. intros j.
apply ok_bind; [done|]. intros dn. apply ok_bind; [done|]. intros drv.
cbv zeta. destruct (ix_of_Z i); [|done]. destruct (ix_of_Z j); [|done].
destruct (dof_of_string _); [|done]. apply IH.
Qed.

Lemma parse_map_tokens (lines lines' : list string) (idx : nat) :
map data_tokens lines = map data_tokens lines' ->
ok_of (pmap lines idx) = ok_of (pmap lines' idx).
Proof.
intros H. unfold parse_map. pose proof (lookup_tokens lines lines' idx H) as Hl.
destruct (lines !! idx) as [l|], (lines' !! idx) as [l'|]; try done.
rewrite Hl. destruct (data_tokens l') as [|t0 ts]; try done.
destruct (bool_decide _); [|done].
destruct ts as [|t1 [|]]; try done.
apply ok_bind; [done|]. intros n. by apply map_entries_tokens.
Qed.

Lemma parse_node_lines_tokens (ls ls' : list string) (e : Z) (nodes : Nodes) :
map data_tokens ls = map data_tokens ls' ->
ok_of (parse_node_lines py_int py_float ls e nodes)
= ok_of (parse_node_lines py_int py_float ls' e nodes).
Proof.
revert ls' e nodes. induction ls as [|l ls IH]; intros [|l' ls'] e nodes H;
try done.
injection H as Hl H. cbn [parse_node_lines]. cbv zeta. rewrite Hl.
destruct (data_tokens l') as [|t0 [|t1 [|t2 [|t3 [|]]]]]; try done.
destruct (py_int t0) as [n|]; [|done].
destruct (bool_decide _); [done|].
destruct (py_float t1); [|done]. destruct (py_float t2); [|done].
destruct (py_float t3); [|done]. by apply IH.
Qed.

Lemma parse_node_block_tokens (lines lines' : list string) (idx : nat)
(n_nodes : Z) :
map data_tokens lines = map data_tokens lines' ->
ok_of (pblock lines idx n_nodes) = ok_of (pblock lines' idx n_nodes).
Proof.
intros H. unfold parse_node_block, parse_nodes.
assert (Hlen : List.length lines = List.length lines').
{ by rewrite <- (length_map data_tokens lines), H, length_map. }
rewrite Hlen. destruct (_ <? _); [done|].
pose proof (parse_node_lines_tokens
        (take (Z.to_nat (Z.of_nat idx + n_nodes - Z.of_nat idx)) (drop idx lines))
        (take (Z.to_nat (Z.of_nat idx + n_nodes - Z.of_nat idx)) (drop idx lines'))
        1 []) as Hn.
destruct (parse_node_lines _ _ (take _ (drop idx lines)) _ _),
(parse_node_lines _ _ (take _ (drop idx lines')) _ _); simpl in *;
try done; apply Hn; change (map data_tokens ?l) with (data_tokens <$> l);
change (map data_tokens ?l) with (data_tokens <$> l) in H;
by rewrite !fmap_take, !fmap_drop, H.
Qed.

(** X15: blanks, commas and comments do not matter. A raw line that is
blank or starts with "#" can be added or dropped anywhere without any
change to what the parser returns or raises. And two definitions whose
data lines have the same tokens, line by line -- whatever their white
space, commas and comments -- either both fail or both parse to the same
result. *)
Theorem X15_parse_by_tokens :
(forall before line after,
 is_data_line line = false ->
 pmodel (before ++ line :: after) = pmodel (before ++ after))
/\ (forall raw_lines raw_lines',
  map data_tokens (data_lines raw_lines)
  = map data_tokens (data_lines raw_lines') ->
  ok_of (pmodel raw_lines) = ok_of (pmodel raw_lines')).
Proof.
split.
- intros before line after Hline. unfold parse_model_def.
assert (data_lines (before ++ line :: after) = data_lines (before ++ after))
as ->; [|done].
rewrite !data_lines_app. f_equal. unfold data_lines. cbn [List.filter].
by rewrite Hline.
- intros raw raw'. unfold parse_model_def.
generalize (data_lines raw) (data_lines raw'). clear raw raw'.
intros lines lines' H. cbv zeta.
destruct lines as [|l1 [|l2 [|l3 [|l4 [|l5 [|l6 rest]]]]]],
lines' as [|l1' [|l2' [|l3' [|l4' [|l5' [|l6' rest']]]]]]; try done.
set (ls := l1 :: l2 :: l3 :: l4 :: l5 :: l6 :: rest) in *.
set (ls' := l1' :: l2' :: l3' :: l4' :: l5' :: l6' :: rest') in *.
assert (H1 : data_tokens l1 = data_tokens l1') by (by injection H).
assert (H2 : data_tokens l2 = data_tokens l2') by (by injection H).
assert (H3 : data_tokens l3 = data_tokens l3') by (by injection H).
assert (H4 : data_tokens l4 = data_tokens l4') by (by injection H).
assert (H5 : data_tokens l5 = data_tokens l5') by (by injection H).
assert (H6 : data_tokens l6 = data_tokens l6') by (by injection H).
apply ok_bind; [by apply parse_line1_tokens|]. intros n_nodes.
apply ok_bind; [by apply parse_line2_tokens|]. intros [[lx ly] lz].
apply ok_bind; [by apply parse_line3_tokens|]. intros vids.
apply ok_bind; [by apply parse_row_tokens|]. intros r1.
apply ok_bind; [by apply parse_row_tokens|]. intros r2.
apply ok_bind; [by apply parse_row_tokens|]. intros r3.
apply ok_bind; [by apply parse_abs_tokens|]. intros [idx fixed].
apply ok_bind; [by apply parse_map_tokens|]. intros [idx' dmap].
apply ok_bind; [by apply parse_node_block_tokens|]. done.
Qed.
End ParseTokens.


(** *** The declared number of nodes *)

Lemma parse_nodes_ids (py_int : string -> option Z)
    (py_float : string -> option float) (lines : list string) (idx : nat)
    (n_nodes : Z) (nodes : Nodes) :
  parse_nodes py_int py_float lines idx n_nodes = inr nodes ->
  map nid nodes = seqZ 1 n_nodes.
Proof.
  unfold parse_nodes.
  replace (Z.of_nat idx + n_nodes - Z.of_nat idx) with n_nodes by lia.
  destruct (_ <? _) eqn:Hlen; first done. apply Z.ltb_ge in Hlen.
  intros H. apply node_lines_ids in H as (new & -> & Hnew). simpl. rewrite Hnew.
  rewrite length_take, length_drop.
  destruct (Z.le_gt_cases n_nodes 0); [by rewrite !seqZ_nil by lia|].
  f_equal. lia.
Qed.

Section ParseHeader.
Variable py_int : string -> option Z.
Variable py_float : string -> option float.
Variable py_upper : string -> string.
Variable py_lower : string -> string.

Local Abbreviation pmodel := (parse_model_def py_int py_float py_upper py_lower).
Local Abbreviation prun := (run py_int py_float py_upper py_lower).

(** X17: the number of nodes declared on the first data line. When the
definition parses, the node dictionary holds the ids 1, 2, ..., n_nodes
in this order. A declared number that is zero or negative is accepted
by the parser, which returns no node; the run then stops on the bounds,
with the error of the empty sequence, and leaves the output file as it
was. *)
Theorem X17_declared_nodes (raw_lines : list string) (P : Parsed)
(l1 : string) (rest : list string) (t0 t1 : string) (n_nodes : Z) :
data_lines raw_lines = l1 :: rest ->
data_tokens l1 = [t0; t1] ->
py_int t0 = Some n_nodes ->
pmodel raw_lines = inr P ->
map nid (nodes P) = seqZ 1 n_nodes
/\ (n_nodes <= 0 ->
nodes P = []
/\ forall in_name emit_symbolic file,
     prun raw_lines in_name emit_symbolic file
     = (file, inl (Raised EmptySequence))).
Proof.
intros Hlines Htok Hint HP.
assert (Hids : map nid (nodes P) = seqZ 1 n_nodes).
{ revert HP. unfold parse_model_def. rewrite Hlines.
destruct rest as [|l2 [|l3 [|l4 [|l5 [|l6 rest]]]]]; try done.
cbv zeta. parse_steps.
destruct (parse_line1 py_int l1) as [?|n] eqn:H1; [done|].
assert (n = n_nodes) as ->.
{ revert H1. unfold parse_line1. rewrite Htok. parse_steps. unfold int_of.
rewrite Hint. destruct (py_int t1); [|done]. by intros [= <-]. }
destruct (parse_line2 py_float l2) as [?|[[lx ly] lz]]; [done|].
destruct (parse_line3 py_int l3) as [?|vids]; [done|].
destruct (parse_row py_float 4 l4) as [?|r1]; [done|].
destruct (parse_row py_float 5 l5) as [?|r2]; [done|].
destruct (parse_row py_float 6 l6) as [?|r3]; [done|].
destruct (parse_abs _ _ _ _ _) as [?|[idx fixed]]; [done|].
destruct (parse_map _ _ _ _ _) as [?|[idx' dmap]]; [done|].
unfold parse_node_block.
destruct (parse_nodes _ _ _ _ _) as [?|nd] eqn:Hn; [done|].
intros HP. apply inr_inj in HP. subst P. cbn [nodes].
by apply parse_nodes_ids in Hn. }
split; [exact Hids|]. intros Hn.
assert (Hnil : nodes P = []).
{ rewrite seqZ_nil in Hids by lia. by destruct (nodes P). }
split; [exact Hnil|]. intros in_name emit_symbolic file.
unfold run. rewrite HP. unfold main, prepare. by rewrite Hnil.
Qed.
End ParseHeader.

Lemma X17_witness :
  exists P,
    parse_model_def dec_int dec_float ascii_upper ascii_lower no_node_input = inr P
    /\ nodes P = []
    /\ run dec_int dec_float ascii_upper ascii_lower no_node_input
         "rve_code_input.txt" false None
       = (None, inl (Raised EmptySequence)).
Proof.
  destruct (parse_model_def dec_int dec_float ascii_upper ascii_lower no_node_input)
    as [e|P] eqn:HP.
  - exfalso. vm_compute in HP. discriminate HP.
  - exists P. split; [reflexivity|].
    destruct (X17_declared_nodes dec_int dec_float ascii_upper ascii_lower
                no_node_input P "0 0"
                ["1 1 1"; "1 2 3 4 5 6 7 8"; "0 0 0"; "0 0 0"; "0 0 0";
                 "DUMMY_EPS_MAP 0"; "1 2 3 4"] "0" "0" 0)
      as [_ Hz]; [reflexivity | reflexivity | reflexivity | exact HP |].
    destruct Hz as [Hnil Hrun]; [lia|]. split; [exact Hnil | apply Hrun].
Defined.

(** *** The map block *)

Lemma dmap_set_get (m : DummyEpsMap) (key key' : Ix * Ix) (val : Z * Z * Dof) :
  dmap_get (dmap_set m key val) key'
  = if bool_decide (key = key') then Some val else dmap_get m key'.
Proof.
  unfold dmap_get. induction m as [|[k0 v0] m IH]; simpl.
  - by destruct (bool_decide (key = key')).
  - destruct (bool_decide (k0 = key)) eqn:H0; simpl.
    + apply bool_decide_eq_true in H0. subst k0.
      by destruct (bool_decide (key = key')).
    + apply bool_decide_eq_false in H0.
      destruct (bool_decide (k0 = key')) eqn:H1; simpl; [|exact IH].
      apply bool_decide_eq_true in H1. subst k0.
      by rewrite bool_decide_eq_false_2 by done.
Qed.

Lemma dmap_set_keys (m : DummyEpsMap) (key : Ix * Ix) (val : Z * Z * Dof) :
  map fst (dmap_set m key val)
  = if bool_decide (key ∈ map fst m) then map fst m else map fst m ++ [key].
Proof.
  induction m as [|[k0 v0] m IH]; simpl; first done.
  destruct (bool_decide (k0 = key)) eqn:H0; simpl.
  - apply bool_decide_eq_true in H0. subst k0.
    by rewrite bool_decide_eq_true_2 by apply list_elem_of_here.
  - apply bool_decide_eq_false in H0. rewrite IH.
    destruct (bool_decide (key ∈ map fst m)) eqn:H1.
    + apply bool_decide_eq_true in H1.
      by rewrite bool_decide_eq_true_2 by (by apply list_elem_of_further).
    + apply bool_decide_eq_false in H1.
      rewrite bool_decide_eq_false_2; [done|].
      intros H. apply elem_of_cons in H as [? | ?]; done.
Qed.

Lemma dmap_set_nodup (m : DummyEpsMap) (key : Ix * Ix) (val : Z * Z * Dof) :
  NoDup (map fst m) -> NoDup (map fst (dmap_set m key val)).
Proof.
  intros H. rewrite dmap_set_keys. case_bool_decide as Hk; first done.
  apply NoDup_app. split; [done | split; [|apply NoDup_singleton]].
  intros k Hin Hk'. apply list_elem_of_singleton in Hk'. by subst k.
Qed.

Lemma find_over_app {A} (f : A -> bool) (l1 l2 : list A) :
  List.find f (l1 ++ l2)
  = match List.find f l1 with Some a => Some a | None => List.find f l2 end.
Proof.
  induction l1 as [|a l1 IH]; first done. simpl. by destruct (f a).
Qed.

Lemma dmap_fold_spec (entries : list ((Ix * Ix) * (Z * Z * Dof)))
    (m : DummyEpsMap) :
  let m' := fold_left (fun m e => dmap_set m (fst e) (snd e)) entries m in
  (NoDup (map fst m) -> NoDup (map fst m'))
  /\ forall key, dmap_get m' key
                 = match last_entry entries key with
                   | Some val => Some val
                   | None => dmap_get m key
                   end.
Proof.
  revert m. induction entries as [|[k v] entries IH]; intros m; simpl.
  { split; [done|]. intros key. unfold last_entry. done. }
  destruct (IH (dmap_set m k v)) as [IH1 IH2]. split.
  - intros Hnd. by apply IH1, dmap_set_nodup.
  - intros key. rewrite IH2. unfold last_entry. simpl.
    rewrite find_over_app.
    destruct (List.find _ (rev entries)) as [e|]; simpl; first done.
    rewrite dmap_set_get. by destruct (bool_decide (k = key)).
Qed.

Lemma ix_pairs_all (key : Ix * Ix) :
  In key [ (I1, I1); (I1, I2); (I1, I3); (I2, I1); (I2, I2); (I2, I3);
           (I3, I1); (I3, I2); (I3, I3) ].
Proof. destruct key as [[] []]; simpl; tauto. Qed.

Section ParseMap.
Variable py_int : string -> option Z.
Variable py_upper : string -> string.
Variable py_lower : string -> string.

Local Abbreviation mapE := (map_entries py_int py_lower).
Local Abbreviation pmap := (parse_map py_int py_upper py_lower).
Local Abbreviation entry_of := (map_entry_of py_int py_lower).

Lemma map_entries_fold (n : nat) (lines : list string) (idx : nat)
(dmap : DummyEpsMap) (idx' : nat) (dmap' : DummyEpsMap) :
mapE n lines idx dmap = inr (idx', dmap') ->
exists entries,
Forall2 (fun l e => entry_of l = Some e) (take n (drop idx lines)) entries
/\ idx' = (idx + List.length entries)%nat
/\ dmap' = fold_left (fun m e => dmap_set m (fst e) (snd e)) entries dmap.
Proof.
revert idx dmap. induction n as [|n IH]; intros idx dmap.
{ intros [= <- <-]. exists []. simpl. split; [constructor | split; [lia | done]]. }
cbn [map_entries].
destruct (lines !! idx) as [line|] eqn:Hl; [|done].
assert (Hentry : forall e, entry_of line = Some e ->
      mapE n lines (S idx) (dmap_set dmap (fst e) (snd e)) = inr (idx', dmap') ->
      exists entries,
        Forall2 (fun l e => entry_of l = Some e)
          (take (S n) (drop idx lines)) entries
        /\ idx' = (idx + List.length entries)%nat
        /\ dmap' = fold_left (fun m e => dmap_set m (fst e) (snd e)) entries dmap).
{ intros e He H. apply IH in H as (entries & Hall & Hidx & Hfold).
exists (e :: entries). rewrite (drop_S _ _ _ Hl). cbn [take].
split; [by constructor | split; [simpl; lia | done]]. }
destruct (data_tokens line) as [|t0 [|t1 [|t2 [|t3 [|t4 [|]]]]]] eqn:Ht; try done.
parse_steps. unfold int_of.
destruct (py_int t0) as [i|] eqn:H0; [|done].
destruct (py_int t1) as [j|] eqn:H1; [|done].
destruct (py_int t2) as [dn|] eqn:H2; [|done].
destruct (py_int t3) as [drv|] eqn:H3; [|done].
destruct (ix_of_Z i) as [i'|] eqn:Hi; [|done].
destruct (ix_of_Z j) as [j'|] eqn:Hj; [|done].
destruct (dof_of_string (py_lower t4)) as [d|] eqn:Hd; [|done].
apply (Hentry ((i', j'), (dn, drv, d))).
unfold map_entry_of. by rewrite Ht, H0, H1, H2, H3, Hi, Hj, Hd.
Qed.

(** X18: the block DUMMY_EPS_MAP. When the block at the index [idx]
parses, the lines after its header, up to the index returned, are entry
lines (five tokens: i and j among 1, 2, 3, two node ids, a dof in any
case). The map holds one entry for each key (i, j) given, so at most nine,
and under a key given on several lines it holds the values of the last of
these lines. *)
Theorem X18_map_block (lines : list string) (idx idx' : nat)
(dmap : DummyEpsMap) :
pmap lines idx = inr (idx', dmap) ->
exists entries,
Forall2 (fun l e => entry_of l = Some e)
(take (List.length entries) (drop (S idx) lines)) entries
/\ idx' = (S idx + List.length entries)%nat
/\ NoDup (map fst dmap)
/\ (List.length dmap <= 9)%nat
/\ forall key, dmap_get dmap key = last_entry entries key.
Proof.
unfold parse_map.
destruct (lines !! idx) as [line|]; [|done].
destruct (data_tokens line) as [|t0 ts]; [done|].
destruct (bool_decide _); [|done].
destruct ts as [|t1 [|]]; try done.
parse_steps. destruct (int_of py_int t1) as [?|n_map]; [done|].
intros H. apply map_entries_fold in H as (entries & Hall & Hidx & Hfold).
exists entries.
destruct (dmap_fold_spec entries []) as [Hnd Hget]. rewrite <- Hfold in Hnd, Hget.
assert (Hlen : List.length entries
           = List.length (take (Z.to_nat n_map) (drop (S idx) lines))).
{ symmetry. by eapply Forall2_length. }
split; [|split; [exact Hidx | split; [by apply Hnd; constructor | split]]].
- replace (take (List.length entries) (drop (S idx) lines))
with (take (Z.to_nat n_map) (drop (S idx) lines)); [done|].
rewrite Hlen, length_take.
destruct (Nat.le_gt_cases (Z.to_nat n_map) (List.length (drop (S idx) lines))).
+ by rewrite Nat.min_l by lia.
+ rewrite Nat.min_r by lia. by rewrite !take_ge by lia.
- rewrite <- (length_map fst).
change 9%nat with (List.length [ (I1, I1); (I1, I2); (I1, I3); (I2, I1); (I2, I2);
                               (I2, I3); (I3, I1); (I3, I2); (I3, I3) ]).
apply submseteq_length, NoDup_submseteq; [apply Hnd; constructor|].
intros key _. apply list_elem_of_In, ix_pairs_all.
- intros key. rewrite Hget. by destruct (last_entry entries key).
Qed.
End ParseMap.

Lemma X18_witness :
  exists entries,
    parse_map dec_int ascii_upper ascii_lower (data_lines sample_input) 8
    = inr (11%nat, [((I1, I1), (11, 21, v))])
    /\ entries = [((I1, I1), (10, 20, u)); ((I1, I1), (11, 21, v))]
    /\ last_entry entries (I1, I1) = Some (11, 21, v).
Proof.
  destruct (X18_map_block dec_int ascii_upper ascii_lower (data_lines sample_input)
              8 11 [((I1, I1), (11, 21, v))])
    as (entries & Hall & Hidx & _ & _ & Hget); [vm_compute; reflexivity|].
  exists entries. split; [vm_compute; reflexivity|].
  assert (Hlen : List.length entries = 2%nat) by lia.
  destruct entries as [|e1 [|e2 [|]]]; try done.
  apply Forall2_cons in Hall as [H1 Hall]. apply Forall2_cons in Hall as [H2 _].
  vm_compute in H1, H2. injection H1 as <-. injection H2 as <-.
  split; [reflexivity | vm_compute; reflexivity].
Defined.


Lemma X15_witness :
  ok_of (parse_model_def dec_int dec_float ascii_upper ascii_lower sample_input)
  = ok_of (parse_model_def dec_int dec_float ascii_upper ascii_lower
             sample_reformatted).
Proof.
  apply (proj2 (X15_parse_by_tokens dec_int dec_float ascii_upper ascii_lower)).
  vm_compute. reflexivity.
Defined.

(** *** The block of the absolute constraints *)

Section ParseAbs.
Variable py_int : string -> option Z.
Variable py_upper : string -> string.
Variable py_lower : string -> string.

Local Abbreviation absE := (abs_entries py_int py_lower).
Local Abbreviation pabs := (parse_abs py_int py_upper py_lower).
Local Abbreviation entry_of := (abs_entry_of py_int py_lower).

Lemma abs_dofs_spec (node : Z) (dchs : list string) (fixed fixed' : FixedDofSet) :
abs_dofs py_lower node dchs fixed = inr fixed' ->
exists ds, dofs_of py_lower dchs = Some ds
     /\ forall key, key ∈ fixed' <-> key ∈ fixed \/ (fst key = node /\ In (snd key) ds).
Proof.
revert fixed. induction dchs as [|dch rest IH]; intros fixed; simpl.
{ intros [= <-]. exists []. split; [done|]. intros key. simpl. tauto. }
destruct (dof_of_string (py_lower dch)) as [d|]; [|done].
intros H. apply IH in H as (ds & -> & Hk). exists (d :: ds). split; [done|].
intros [n d']. rewrite Hk, elem_of_union, elem_of_singleton. simpl.
split.
- intros [[H | [= -> ->]] | [H1 H2]]; auto.
- intros [H | [H1 [<- | H2]]]; auto. subst n. auto.
Qed.

Lemma abs_entries_spec (n : nat) (lines : list string) (idx : nat)
(fixed : FixedDofSet) (idx' : nat) (fixed' : FixedDofSet) :
absE n lines idx fixed = inr (idx', fixed') ->
exists entries,
Forall2 (fun l e => entry_of l = Some e) (take n (drop idx lines)) entries
/\ List.length entries = n
/\ idx' = (idx + n)%nat
/\ forall key, key ∈ fixed' <-> key ∈ fixed \/ listed entries key.
Proof.
revert idx fixed. induction n as [|n IH]; intros idx fixed.
{ intros [= <- <-]. exists []. simpl.
split; [constructor | split; [done | split; [lia|]]].
intros key. split; [by left | intros [H | (e & [] & _)]; done]. }
cbn [abs_entries].
destruct (lines !! idx) as [line|] eqn:Hl; [|done].
destruct (data_tokens line) as [|t0 [|t1 ts]] eqn:Ht; [done | done |].
parse_steps. unfold int_of.
destruct (py_int t0) as [node|] eqn:H0; [|done].
destruct (abs_dofs py_lower node (t1 :: ts) fixed) as [?|fixed1] eqn:Hd; [done|].
apply abs_dofs_spec in Hd as (ds & Hds & Hk1).
intros H. apply IH in H as (entries & Hall & Hlen & Hidx & Hk).
exists ((node, ds) :: entries). rewrite (drop_S _ _ _ Hl). cbn [take].
split; [|split; [simpl; lia | split; [lia|]]].
- constructor; [|exact Hall]. unfold abs_entry_of. by rewrite Ht, H0, Hds.
- intros key. rewrite Hk, Hk1. unfold listed. split.
+ intros [[H | [H1 H2]] | (e & He & H)]; [by left | |].
* right. exists (node, ds). split; [by left | done].
* right. exists e. split; [by right | done].
+ intros [H | (e & [<- | He] & H1 & H2)]; [by left; left | |].
* left. right. done.
* right. by exists e.
Qed.

(** X19: the optional block ABS_CONSTRAINTS. The block is there when the
line at the index has a first token that is ABS_CONSTRAINTS once in upper
case. Without it the index is unchanged and no dof is fixed. With it, when
the block parses: the header has one more token, read by [int] as a
count; the lines after the header, as many as the count, are entry lines
(a node id, then one dof or more, in any case); and the fixed dofs are
exactly the pairs (node, dof) these lines list. *)
Theorem X19_abs_block (lines : list string) (idx idx' : nat)
(fixed : FixedDofSet) :
pabs lines idx = inr (idx', fixed) ->
(idx' = idx /\ fixed = ∅
 /\ forall line t0 ts, lines !! idx = Some line -> data_tokens line = t0 :: ts ->
  py_upper t0 <> "ABS_CONSTRAINTS")
\/ (exists line t0 t1 n_fix entries,
  lines !! idx = Some line
  /\ data_tokens line = [t0; t1]
  /\ py_upper t0 = "ABS_CONSTRAINTS"
  /\ py_int t1 = Some n_fix
  /\ Forall2 (fun l e => entry_of l = Some e)
       (take (Z.to_nat n_fix) (drop (S idx) lines)) entries
  /\ List.length entries = Z.to_nat n_fix
  /\ idx' = (S idx + Z.to_nat n_fix)%nat
  /\ forall key, key ∈ fixed <-> listed entries key).
Proof.
unfold parse_abs.
destruct (lines !! idx) as [line|] eqn:Hl.
2:{ intros [= <- <-]. left. split; [done | split; [done|]]. by intros. }
destruct (data_tokens line) as [|t0 ts] eqn:Ht.
{ intros [= <- <-]. left. split; [done | split; [done|]].
intros line' t0 ts [= <-]. by rewrite Ht. }
case_bool_decide as Hup.
2:{ intros [= <- <-]. left. split; [done | split; [done|]].
intros line' t0' ts' [= <-]. rewrite Ht. by intros [= <- <-]. }
destruct ts as [|t1 [|]]; try done.
parse_steps. unfold int_of. destruct (py_int t1) as [n_fix|] eqn:H1; [|done].
intros H. apply abs_entries_spec in H as (entries & Hall & Hlen & Hidx & Hk).
right. exists line, t0, t1, n_fix, entries.
repeat split; try done.
- intros Hkey. apply Hk in Hkey as [Hkey | Hkey]; [set_solver | done].
- intros Hkey. apply Hk. by right.
Qed.
End ParseAbs.

Lemma X19_witness :
  exists fixed,
    parse_abs dec_int ascii_upper ascii_lower (data_lines sample_input) 6
    = inr (8%nat, fixed)
    /\ forall key, key ∈ fixed <-> key = (1, u).
Proof.
  destruct (parse_abs dec_int ascii_upper ascii_lower (data_lines sample_input) 6)
    as [e|[idx' fixed]] eqn:HP.
  { exfalso. vm_compute in HP. discriminate HP. }
  assert (Hidx : idx' = 8%nat).
  { apply (f_equal (fun r => match r with inr (i, _) => i | inl _ => 0%nat end)) in HP.
    rewrite <- HP. vm_compute. reflexivity. }
  subst idx'. exists fixed. split; [reflexivity|].
  destruct (X19_abs_block dec_int ascii_upper ascii_lower _ _ _ _ HP)
    as [(Habs & _) | (line & t0 & t1 & n_fix & entries & Hl & Ht & _ & H1 & Hall
                      & Hlen & _ & Hk)].
  { discriminate Habs. }
  vm_compute in Hl. injection Hl as <-. vm_compute in Ht. injection Ht as <- <-.
  vm_compute in H1. injection H1 as <-.
  destruct entries as [|e1 [|]]; try done.
  apply Forall2_cons in Hall as [He _]. vm_compute in He. injection He as <-.
  intros key. rewrite Hk. unfold listed. split.
  - intros (e & [<- | []] & Hn & [Hd | []]). destruct key. simpl in *. congruence.
  - intros ->. exists (1, [u]). split; [by left | split; [done | by left]].
Defined.

(** ** The lines that are not comments *)

Lemma effective_lines_app (l1 l2 : list string) :
  effective_lines (l1 ++ l2) = effective_lines l1 ++ effective_lines l2.
Proof. apply List.filter_app. Qed.

Lemma effective_comments (ls : list string) :
  Forall (fun s => is_comment s = true) ls -> effective_lines ls = [].
Proof.
  induction 1 as [|s ls Hs _ IH]; first done.
  unfold effective_lines in *. simpl. by rewrite Hs.
Qed.

Lemma effective_blank (ls : list string) :
  Forall (fun s => exists rest, s = String " " rest) ls -> effective_lines ls = ls.
Proof.
  induction 1 as [|s ls [rest ->] _ IH]; first done.
  unfold effective_lines in *. simpl. by rewrite IH.
Qed.

Lemma driver_lines_blank (drv : DriverMap) :
  Forall (fun s => exists rest, s = String " " rest) (map driver_line drv).
Proof.
  apply Forall_forall. intros s Hs. apply list_elem_of_In, in_map_iff in Hs as (e & <- & _).
  unfold driver_line. by eexists.
Qed.

Lemma zero_lines_blank (keys : list (Z * Dof)) :
  Forall (fun s => exists rest, s = String " " rest) (map zero_line keys).
Proof.
  apply Forall_forall. intros s Hs. apply list_elem_of_In, in_map_iff in Hs as (e & <- & _).
  unfold zero_line. by eexists.
Qed.

(** X20: what the output file holds apart from comment lines. In the file
    of a successful run, the lines that do not start with "!" are: when
    there is a zero or a driver constraint, the keyword "constraints", the
    driver lines and the zero lines in sorted order; then the keyword
    "multipoint" and the equations. The name of the input file and the
    answer on the symbolic equations change comment lines only. *)
Theorem X20_effective_lines (in_name : string) (emit_symbolic : bool)
    (P : Parsed) (file : FileState) (R : Prepared) :
  prepare P = inr R ->
  exists out,
    main in_name emit_symbolic P file = (Some out, inr tt)
    /\ effective_lines out
       = (if bool_decide (fixed_final R = ∅) && is_empty (driver_constraints R)
          then []
          else "constraints"
                 :: map driver_line (sorted_items (driver_constraints R))
                 ++ map zero_line (sorted_keys (fixed_final R)))
         ++ "multipoint" :: mpc_lines R.
Proof.
  intros HR.
  destruct (main_writes in_name emit_symbolic P file R HR) as (pre & Hmain & Hpre).
  eexists. split; [exact Hmain|].
  rewrite !effective_lines_app, (effective_comments pre Hpre). cbn [app].
  f_equal.
  - unfold constraints_lines. rewrite effective_lines_app.
    destruct (bool_decide (fixed_final R = ∅) && is_empty (driver_constraints R));
      first done.
    change (effective_lines ("constraints" :: ?l))
      with ("constraints" :: effective_lines l).
    change (effective_lines [ "!"; _ ]) with (@nil string).
    cbn [app]. f_equal. apply effective_blank, Forall_app.
    split; [apply driver_lines_blank | apply zero_lines_blank].
  - unfold multipoint_lines. rewrite !effective_lines_app.
    rewrite (effective_blank (mpc_lines R)).
    + match goal with
      | |- effective_lines ?a ++ _ ++ effective_lines ?b = _ =>
          change (effective_lines a) with ["multipoint"];
          change (effective_lines b) with (@nil string)
      end.
      by rewrite app_nil_r.
    + apply Forall_forall. intros s Hs. apply list_elem_of_In in Hs.
      by apply (mpc_lines_blank P R).
Qed.

Lemma X20_witness :
  exists out,
    main "rve_code_input.txt" true cube_pinned None = (Some out, inr tt)
    /\ List.length (effective_lines out) = 15%nat.
Proof.
  destruct (prepare cube_pinned) as [e|R] eqn:HR.
  - exfalso. vm_compute in HR. discriminate HR.
  - destruct (X20_effective_lines "rve_code_input.txt" true cube_pinned None R HR)
      as (out & Hmain & Heff).
    exists out. split; [exact Hmain|]. rewrite Heff.
    apply (f_equal (fun r => match r with
      | inr R' =>
          List.length
            ((if bool_decide (fixed_final R' = ∅) && is_empty (driver_constraints R')
              then []
              else "constraints"
                     :: map driver_line (sorted_items (driver_constraints R'))
                     ++ map zero_line (sorted_keys (fixed_final R')))
             ++ "multipoint" :: mpc_lines R')
      | inl _ => 0%nat
      end)) in HR.
    rewrite <- HR. vm_compute. reflexivity.
Defined.


(** ** Fixing more dofs *)

Lemma term_free_in (F : FixedDofSet) (c : float) (n : Z) (d : Dof) :
  (n, d) ∈ F -> term_free F (c, n, d) = false.
Proof. intros H. apply bool_decide_eq_false_2. intros Hn. by apply Hn. Qed.

Lemma term_free_out (F : FixedDofSet) (c : float) (n : Z) (d : Dof) :
  (n, d) ∉ F -> term_free F (c, n, d) = true.
Proof. intros H. by apply bool_decide_eq_true_2. Qed.

Lemma physical_terms_filter (F F' : FixedDofSet) (p : Pairing) (d : Dof) :
  F ⊆ F' ->
  physical_terms F' p d = List.filter (term_free F') (physical_terms F p d).
Proof.
  intros Hsub. unfold physical_terms. rewrite List.filter_app.
  f_equal.
  - destruct (bool_decide ((plus_node p, d) ∈ F')) eqn:H'.
    + destruct (bool_decide ((plus_node p, d) ∈ F)); [done|].
      apply bool_decide_eq_true in H'. cbn [List.filter].
      by rewrite term_free_in.
    + apply bool_decide_eq_false in H'.
      rewrite (bool_decide_eq_false_2 ((plus_node p, d) ∈ F)) by set_solver.
      cbn [List.filter]. by rewrite term_free_out.
  - destruct (bool_decide ((minus_node p, d) ∈ F')) eqn:H'.
    + destruct (bool_decide ((minus_node p, d) ∈ F)); [done|].
      apply bool_decide_eq_true in H'. cbn [List.filter].
      by rewrite term_free_in.
    + apply bool_decide_eq_false in H'.
      rewrite (bool_decide_eq_false_2 ((minus_node p, d) ∈ F)) by set_solver.
      cbn [List.filter]. by rewrite term_free_out.
Qed.

Lemma dummy_terms_filter (row : Row) (dummy_eps_map : DummyEpsMap)
    (F F' : FixedDofSet) (eps_tol : float) (i : Ix) (deltas : list (Ix * float)) :
  F ⊆ F' ->
  fst (dummy_terms row dummy_eps_map F' eps_tol i deltas)
  = List.filter (term_free F') (fst (dummy_terms row dummy_eps_map F eps_tol i deltas))
  /\ snd (dummy_terms row dummy_eps_map F' eps_tol i deltas)
     = snd (dummy_terms row dummy_eps_map F eps_tol i deltas).
Proof.
  intros Hsub. induction deltas as [|[j dv] rest [IH1 IH2]]; first done.
  cbn [dummy_terms].
  destruct (dummy_terms row dummy_eps_map F' eps_tol i rest) as [ts' ws'].
  destruct (dummy_terms row dummy_eps_map F eps_tol i rest) as [ts ws].
  cbn [fst snd] in IH1, IH2. subst ts' ws'.
  destruct (_ || _); [done|].
  destruct (dmap_get dummy_eps_map (i, j)) as [[[dn drv] ddof]|]; [|done].
  destruct (bool_decide ((dn, ddof) ∈ F')) eqn:H'.
  - destruct (bool_decide ((dn, ddof) ∈ F)); [done|].
    apply bool_decide_eq_true in H'. cbn [fst snd List.filter].
    by rewrite term_free_in.
  - apply bool_decide_eq_false in H'.
    rewrite (bool_decide_eq_false_2 ((dn, ddof) ∈ F)) by set_solver.
    cbn [fst snd List.filter]. by rewrite term_free_out.
Qed.

(** X21: fixing more dofs only removes terms. For two sets of fixed dofs,
    one included in the other, the terms assembled for a pairing and a
    component under the larger set are the terms assembled under the smaller
    set that are not on a dof of the larger set, in the same order; the
    warnings of the assembly are the same. *)
Theorem X21_fixing_removes_terms (eps : Strain) (dummy_eps_map : DummyEpsMap)
    (F F' : FixedDofSet) (eps_tol : float) (p : Pairing) (i : Ix) :
  F ⊆ F' ->
  fst (assemble_terms eps dummy_eps_map F' eps_tol p i)
  = List.filter (term_free F') (fst (assemble_terms eps dummy_eps_map F eps_tol p i))
  /\ snd (assemble_terms eps dummy_eps_map F' eps_tol p i)
     = snd (assemble_terms eps dummy_eps_map F eps_tol p i).
Proof.
  intros Hsub. unfold assemble_terms. destruct (delta p) as [[dx dy] dz].
  destruct (dummy_terms_filter (eps_row eps i) dummy_eps_map F F' eps_tol i
              [(I1, dx); (I2, dy); (I3, dz)] Hsub) as [H1 H2].
  destruct (dummy_terms (eps_row eps i) dummy_eps_map F' eps_tol i _) as [ds' ws'].
  destruct (dummy_terms (eps_row eps i) dummy_eps_map F eps_tol i _) as [ds ws].
  cbn [fst snd] in *. subst ds' ws'.
  by rewrite List.filter_app, <- (physical_terms_filter F F' p (comp i) Hsub).
Qed.

Lemma X21_witness :
  fst (assemble_terms eps_close_pair map_shared_driver node1_u eps_tol_default
         (mkPairing 1 7 (1, 1, 1)%float) I1)
  = List.filter (term_free node1_u)
      (fst (assemble_terms eps_close_pair map_shared_driver ∅ eps_tol_default
              (mkPairing 1 7 (1, 1, 1)%float) I1)).
Proof.
  apply X21_fixing_removes_terms. set_solver.
Defined.
